(** * Vuon Ruc Ro client scripts: carousels, scroll reveal, identity wrapper

    A shallow embedding of the parts of [js/api-client.js] and
    [js/firebase-auth.js] that carry state or arithmetic:

    - [StoryCarousel] and [AdvancedHeroCarousel]: cursor arithmetic, render
      step, auto-play timer handling, swipe handling;
    - [ScrollReveal3D], [ProgressiveScrollReveal] and
      [SmoothScrollAnimations]: viewport tests, reveal marks and the scroll
      progress bar;
    - [firebaseAuth]: the catch blocks that turn a provider rejection into a
      [{success, message}] record;
    - [GameAPI.getCurrentUserId];
    - [Newsletter]: the submit listeners of the sign-up form;
    - [GameAnalytics]: [throttle], the scroll-depth tracker and the user id;
    - [GameAPIClient]: the token kept in [localStorage] and the options of
      [request];
    - [firebaseStore]: [saveUserData] and [checkUsernameExists];
    - [PaymentSystem], [GameplayGuide] and [StoryScrollEffects]: the package
      table, the tab listener and the slide styles.

    Conventions.  Methods that mutate [this], the DOM or the timer table are
    computations in a state monad whose state survives a thrown exception,
    as a JavaScript object does.  Slide indices are integer-valued numbers
    and are modelled in [Z], with [%] as [Z.rem] (truncated, like
    JavaScript's).  Pixel quantities are exact rationals; the result of a
    division is a [jsnum], which adds the two infinities and NaN.  IEEE
    rounding is not modelled.  An assignment to [style.width] or
    [style.transform] whose text does not parse is ignored, as the
    browser ignores it, and the property keeps its previous value. *)

From stdpp Require Import gmap strings list.
From Stdlib Require Import Ascii ZArith QArith Qabs Qminmax Qround Lia Lqa.

Close Scope Q_scope.
Local Open Scope string_scope.
#[local] Set Warnings "-clear-no-such-hyp".

(** ** JavaScript completions and the state monad *)

Module JS.

Inductive exn :=
| TypeError (what : string)
| InvalidCharacterError
| SyntaxError.

Inductive completion (A : Type) :=
| Normal (a : A)
| Throw (e : exn).
Arguments Normal {A} a.
Arguments Throw {A} e.

(** A method body over a mutable world [W]: the world reached is returned
    with either completion. *)
Definition M (W A : Type) : Type := W → completion A * W.

Definition ret {W A} (a : A) : M W A := λ w, (Normal a, w).
Definition bind {W A B} (m : M W A) (k : A → M W B) : M W B :=
  λ w, match m w with
       | (Normal a, w') => k a w'
       | (Throw e, w') => (Throw e, w')
       end.
Definition throw {W A} (e : exn) : M W A := λ w, (Throw e, w).
Definition get {W} : M W W := λ w, (Normal w, w).
Definition modify {W} (f : W → W) : M W unit := λ w, (Normal tt, f w).
Definition when {W} (b : bool) (m : M W unit) : M W unit :=
  if b then m else ret tt.

(** Where a call site runs several handlers one after the other (one event
    each), an exception ends its own handler only. *)
Definition exec {W A} (m : M W A) (w : W) : W := snd (m w).
Definition completes {W A} (m : M W A) (w : W) : bool :=
  match fst (m w) with Normal _ => true | Throw _ => false end.

(** [m] relates the world it starts in to the world it leaves. *)
Definition frame {W A} (R : W → W → Prop) (m : M W A) : Prop :=
  ∀ w, R w (exec m w).

(** *** Numbers: exact rationals with the IEEE specials *)

Inductive jsnum :=
| Fin (q : Q)
| PInf
| NInf
| NaN.

Definition Qsgn (q : Q) : Z := Z.sgn (Qnum q).

(** [a / b] for finite operands; a zero divisor here is always [+0] (it
    comes from a subtraction or a box height). *)
Definition div (a b : Q) : jsnum :=
  if Qeq_bool b 0 then
    match Qsgn a with
    | Z0 => NaN
    | Zpos _ => PInf
    | Zneg _ => NInf
    end
  else Fin (a / b).

(** [x * k] for a finite positive constant [k]. *)
Definition mul_pos (x : jsnum) (k : Q) : jsnum :=
  match x with
  | Fin q => Fin (q * k)
  | other => other
  end.

(** [Math.min(x, k)] for a finite [k]. *)
Definition min_fin (x : jsnum) (k : Q) : jsnum :=
  match x with
  | Fin q => Fin (Qmin q k)
  | PInf => Fin k
  | NInf => NInf
  | NaN => NaN
  end.

(** [x > t] for a finite [t]; every comparison with NaN is false. *)
Definition gt_fin (x : jsnum) (t : Q) : bool :=
  match x with
  | Fin q => negb (Qle_bool q t)
  | PInf => true
  | NInf => false
  | NaN => false
  end.

(** [x - k] and [x / k] for a finite [k], positive in the division. *)
Definition sub_fin (x : jsnum) (k : Q) : jsnum :=
  match x with
  | Fin q => Fin (q - k)
  | other => other
  end.

Definition div_pos (x : jsnum) (k : Q) : jsnum :=
  match x with
  | Fin q => Fin (q / k)
  | other => other
  end.

(** [Math.max(0, Math.min(1, x))] *)
Definition clamp01 (x : jsnum) : jsnum :=
  match x with
  | Fin q => Fin (Qmax 0 (Qmin 1 q))
  | PInf => Fin 1
  | NInf => Fin 0
  | NaN => NaN
  end.

Definition Qgt_bool (a b : Q) : bool := negb (Qle_bool a b).
Definition Qge_bool (a b : Q) : bool := Qle_bool b a.

(** [lo <= x <= hi] as a proposition on numbers. *)
Definition within (lo hi : Q) (x : jsnum) : Prop :=
  match x with
  | Fin q => (lo <= q)%Q ∧ (q <= hi)%Q
  | _ => False
  end.

End JS.

Import JS.

Notation "'let*' x ':=' m 'in' k" := (JS.bind m (λ x, k))
  (at level 10, x name, m at level 100, k at level 200).
Notation "m ;;; k" := (JS.bind m (λ _, k))
  (at level 100, right associativity).

(** ** Browser facilities *)

Module DOM.

(** [element.classList] *)
Abbreviation classList := (gset string).

Definition add (c : string) (cl : classList) : classList := {[c]} ∪ cl.
Definition remove (c : string) (cl : classList) : classList := cl ∖ {[c]}.
Definition contains (c : string) (cl : classList) : bool := bool_decide (c ∈ cl).
(** [classList.toggle(c, force)] *)
Definition toggle (c : string) (force : bool) (cl : classList) : classList :=
  if force then add c cl else remove c cl.

(** [style.width] of a progress bar: empty, or a percentage
    (the template string [`${progress}%`]). *)
Inductive Width :=
| NoWidth
| Pct (p : jsnum).

(** [element.style.width = `${v}%`].  A declaration that does not parse is
    ignored and the property keeps the value it had: that is the case of
    [NaN%], [Infinity%], [-Infinity%] and of every negative percentage,
    which a width does not admit. *)
Definition assign_width (v : jsnum) (old : Width) : Width :=
  match v with
  | Fin q => if Qle_bool 0 q then Pct (Fin q) else old
  | _ => old
  end.

(** [getBoundingClientRect()] *)
Record DOMRect := { top : Q; bottom : Q; height : Q }.

(** The class lists of the page's elements, by node.  Node lists held by
    different components may name the same node. *)
Abbreviation nodes := (gmap nat classList).

Definition add_class (c : string) (n : nat) (d : nodes) : nodes :=
  <[n := add c (d !!! n)]> d.

Definition add_all (c : string) (ns : list nat) (cls : nodes) : nodes :=
  foldl (λ cls n, add_class c n cls) cls ns.

Definition has_class (c : string) (n : nat) (d : nodes) : bool :=
  contains c (d !!! n).

(** Every mark present in [cls] is present in [cls']. *)
Definition grows (cls cls' : nodes) : Prop :=
  ∀ (c : string) (n : nat), c ∈ cls !!! n → c ∈ cls' !!! n.

(** What a scroll or resize handler reads from [window], [document] and
    the elements when it runs. *)
Record Layout := {
  innerHeight : Q;
  pageYOffset : Q;
  scrollHeight : Q;
  rect : nat → DOMRect
}.

(** The part of the document the scroll systems read and write: class
    lists, the [.char] spans and the [.text-line] elements under each
    element, the width of [#scrollProgress] when the page has it, the lines
    whose reveal is waiting in a timeout, and the event list of
    [window.analytics] when one is installed.  Inline styles other than
    that width are not kept. *)
Record Doc := {
  classes : nodes;
  char_spans : nat → list nat;
  text_lines : nat → list nat;
  scrollProgress : option Width;
  pending : list nat;
  analytics : option (list (string * nat))
}.

Definition set_classes (v : nodes) (d : Doc) : Doc :=
  {| classes := v; char_spans := char_spans d; text_lines := text_lines d;
     scrollProgress := scrollProgress d; pending := pending d;
     analytics := analytics d |}.
Definition set_scrollProgress (v : option Width) (d : Doc) : Doc :=
  {| classes := classes d; char_spans := char_spans d; text_lines := text_lines d;
     scrollProgress := v; pending := pending d; analytics := analytics d |}.
Definition set_pending (v : list nat) (d : Doc) : Doc :=
  {| classes := classes d; char_spans := char_spans d; text_lines := text_lines d;
     scrollProgress := scrollProgress d; pending := v; analytics := analytics d |}.
Definition set_analytics (v : option (list (string * nat))) (d : Doc) : Doc :=
  {| classes := classes d; char_spans := char_spans d; text_lines := text_lines d;
     scrollProgress := scrollProgress d; pending := pending d; analytics := v |}.

End DOM.

Module Timers.

(** The interval table of the page as far as one navigator sees it: the
    handles it was given that are still scheduled.  Handles are positive
    integers, never reused; a stored handle is therefore truthy exactly
    when it is [Some (S n)]. *)
Record t := { next_id : nat; live : gset nat }.

Definition empty : t := {| next_id := 1; live := ∅ |}.

Definition setInterval (tm : t) : nat * t :=
  (next_id tm, {| next_id := S (next_id tm); live := {[next_id tm]} ∪ live tm |}).

Definition clearInterval (id : nat) (tm : t) : t :=
  {| next_id := next_id tm; live := live tm ∖ {[id]} |}.

End Timers.

(** ** Story carousel ([class StoryCarousel]) *)

Module StoryCarousel.
Import DOM.

(** [style.transform] of [#storySlides]: empty, or
    [translateX(-p%)] with [p = currentSlide * 100]. *)
Inductive Transform :=
| NoTransform
| TranslateXNegPct (p : Z).

(** [element.style.transform = `translateX(-${p}%)`].  A negative [p]
    prints with its own sign, and [translateX(--100%)] does not parse: the
    assignment is ignored and the property keeps the value it had. *)
Definition assign_transform (p : Z) (old : Transform) : Transform :=
  if (0 <=? p)%Z then TranslateXNegPct p else old.

(** [#autoPlayToggle]: its class list, the class name of its first [<i>]
    descendant if it has one, and its [innerHTML] (attribute quotes are
    written as apostrophes here). *)
Record Button := { btn_classes : classList; btn_icon : option string; btn_html : string }.

Inductive PropValue :=
| PNum (z : Z)
| PBool (b : bool).

Record TrackedEvent :=
  { ev_name : string; ev_category : string; ev_props : list (string * PropValue) }.

(** The carousel object, the elements it looks up, and the two window
    facilities it touches.  An element that [getElementById] does not find
    is [None].  [analytics] is the event list of [window.analytics] when
    one is installed. *)
Record World := {
  currentSlide : Z;
  totalSlides : Z;
  autoPlayInterval : option nat;
  isAutoPlaying : bool;
  storySlides : option Transform;
  storyProgress : option Width;
  indicators : list classList;
  autoPlayToggle : option Button;
  timers : Timers.t;
  analytics : option (list TrackedEvent)
}.

Definition set_currentSlide (v : Z) (w : World) : World :=
  {| currentSlide := v; totalSlides := totalSlides w;
     autoPlayInterval := autoPlayInterval w;
     isAutoPlaying := isAutoPlaying w; storySlides := storySlides w;
     storyProgress := storyProgress w; indicators := indicators w;
     autoPlayToggle := autoPlayToggle w; timers := timers w;
     analytics := analytics w |}.
Definition set_autoPlayInterval (v : option nat) (w : World) : World :=
  {| currentSlide := currentSlide w; totalSlides := totalSlides w;
     autoPlayInterval := v; isAutoPlaying := isAutoPlaying w;
     storySlides := storySlides w; storyProgress := storyProgress w;
     indicators := indicators w; autoPlayToggle := autoPlayToggle w;
     timers := timers w; analytics := analytics w |}.
Definition set_isAutoPlaying (v : bool) (w : World) : World :=
  {| currentSlide := currentSlide w; totalSlides := totalSlides w;
     autoPlayInterval := autoPlayInterval w; isAutoPlaying := v;
     storySlides := storySlides w; storyProgress := storyProgress w;
     indicators := indicators w; autoPlayToggle := autoPlayToggle w;
     timers := timers w; analytics := analytics w |}.
Definition set_storySlides (v : option Transform) (w : World) : World :=
  {| currentSlide := currentSlide w; totalSlides := totalSlides w;
     autoPlayInterval := autoPlayInterval w;
     isAutoPlaying := isAutoPlaying w; storySlides := v;
     storyProgress := storyProgress w; indicators := indicators w;
     autoPlayToggle := autoPlayToggle w; timers := timers w;
     analytics := analytics w |}.
Definition set_storyProgress (v : option Width) (w : World) : World :=
  {| currentSlide := currentSlide w; totalSlides := totalSlides w;
     autoPlayInterval := autoPlayInterval w;
     isAutoPlaying := isAutoPlaying w; storySlides := storySlides w;
     storyProgress := v; indicators := indicators w;
     autoPlayToggle := autoPlayToggle w; timers := timers w;
     analytics := analytics w |}.
Definition set_indicators (v : list classList) (w : World) : World :=
  {| currentSlide := currentSlide w; totalSlides := totalSlides w;
     autoPlayInterval := autoPlayInterval w;
     isAutoPlaying := isAutoPlaying w; storySlides := storySlides w;
     storyProgress := storyProgress w; indicators := v;
     autoPlayToggle := autoPlayToggle w; timers := timers w;
     analytics := analytics w |}.
Definition set_autoPlayToggle (v : option Button) (w : World) : World :=
  {| currentSlide := currentSlide w; totalSlides := totalSlides w;
     autoPlayInterval := autoPlayInterval w;
     isAutoPlaying := isAutoPlaying w; storySlides := storySlides w;
     storyProgress := storyProgress w; indicators := indicators w;
     autoPlayToggle := v; timers := timers w; analytics := analytics w |}.
Definition set_timers (v : Timers.t) (w : World) : World :=
  {| currentSlide := currentSlide w; totalSlides := totalSlides w;
     autoPlayInterval := autoPlayInterval w;
     isAutoPlaying := isAutoPlaying w; storySlides := storySlides w;
     storyProgress := storyProgress w; indicators := indicators w;
     autoPlayToggle := autoPlayToggle w; timers := v;
     analytics := analytics w |}.
Definition set_analytics (v : option (list TrackedEvent)) (w : World) : World :=
  {| currentSlide := currentSlide w; totalSlides := totalSlides w;
     autoPlayInterval := autoPlayInterval w;
     isAutoPlaying := isAutoPlaying w; storySlides := storySlides w;
     storyProgress := storyProgress w; indicators := indicators w;
     autoPlayToggle := autoPlayToggle w; timers := timers w; analytics := v |}.

(** [this.trackEvent]: forwards to the global [trackEvent], which hands
    the event to [window.analytics] if there is one. *)
Definition trackEvent (eventName category : string)
    (properties : list (string * PropValue)) : M World unit :=
  modify (λ w,
    match analytics w with
    | Some events =>
        let ev := {| ev_name := eventName; ev_category := category;
                     ev_props := (properties ++
                       [("currentSlide", PNum (currentSlide w));
                        ("totalSlides", PNum (totalSlides w))])%list |} in
        set_analytics (Some (events ++ [ev])%list) w
    | None => w
    end).

Definition updateSlide : M World unit :=
  let* w := get in
  let slidesContainer := storySlides w in
  let progressBar := storyProgress w in
  match slidesContainer with
  | None => throw (TypeError "slidesContainer is null")
  | Some transform =>
      modify (set_storySlides
                (Some (assign_transform (currentSlide w * 100) transform)))
  end ;;;
  let progress :=
    mul_pos (div (inject_Z (currentSlide w + 1)) (inject_Z (totalSlides w)))
            (inject_Z 100) in
  match progressBar with
  | None => throw (TypeError "progressBar is null")
  | Some width => modify (set_storyProgress (Some (assign_width progress width)))
  end ;;;
  modify (set_indicators
            (imap (λ index indicator,
                     toggle "active" (Z.of_nat index =? currentSlide w)%Z indicator)
                  (indicators w))) ;;;
  trackEvent "story_slide_view" "engagement"
    [("slide", PNum (currentSlide w)); ("chapter", PNum (currentSlide w + 1))].

Definition goToSlide (index : Z) : M World unit :=
  modify (set_currentSlide index) ;;;
  updateSlide ;;;
  trackEvent "story_navigation" "indicator" [("slide", PNum index)].

(** With no slide at all JavaScript's [%] gives NaN; [Z.rem] does not, and
    nothing below is stated for [totalSlides = 0]. *)
Definition nextSlide : M World unit :=
  let* w := get in
  modify (set_currentSlide (Z.rem (currentSlide w + 1) (totalSlides w))) ;;;
  updateSlide.

Definition prevSlide : M World unit :=
  let* w := get in
  modify (set_currentSlide
            (Z.rem (currentSlide w - 1 + totalSlides w) (totalSlides w))) ;;;
  updateSlide.

Definition handleSwipe (startX endX : Q) : M World unit :=
  let threshold := inject_Z 50 in
  let diff := (startX - endX)%Q in
  if Qgt_bool (Qabs diff) threshold then
    if Qgt_bool diff (inject_Z 0) then nextSlide else prevSlide
  else ret tt.

(** The three statements of either branch of [updateAutoPlayButton]: the
    class list is written first, then the icon, which may be missing, then
    [innerHTML], which brings a fresh icon. *)
Definition set_button (classes : classList → classList) (icon html : string)
    (button : Button) : M World unit :=
  let button := {| btn_classes := classes (btn_classes button);
                   btn_icon := btn_icon button;
                   btn_html := btn_html button |} in
  modify (set_autoPlayToggle (Some button)) ;;;
  match btn_icon button with
  | None => throw (TypeError "icon is null")
  | Some _ =>
      modify (set_autoPlayToggle
                (Some {| btn_classes := btn_classes button;
                         btn_icon := Some icon;
                         btn_html := html |}))
  end.

Definition updateAutoPlayButton : M World unit :=
  let* w := get in
  match autoPlayToggle w with
  | None => throw (TypeError "button is null")
  | Some button =>
      if isAutoPlaying w then
        set_button (add "active") "fas fa-pause"
          "<i class='fas fa-pause'></i> Tạm dừng" button
      else
        set_button (remove "active") "fas fa-play"
          "<i class='fas fa-play'></i> Tự động phát" button
  end.

Definition startAutoPlay : M World unit :=
  modify (set_isAutoPlaying true) ;;;
  updateAutoPlayButton ;;;
  modify (λ w, let '(id, tm) := Timers.setInterval (timers w) in
               set_autoPlayInterval (Some id) (set_timers tm w)).

Definition stopAutoPlay : M World unit :=
  modify (set_isAutoPlaying false) ;;;
  updateAutoPlayButton ;;;
  let* w := get in
  match autoPlayInterval w with
  | Some (S n) =>
      modify (set_timers (Timers.clearInterval (S n) (timers w))) ;;;
      modify (set_autoPlayInterval None)
  | _ => ret tt
  end.

Definition toggleAutoPlay : M World unit :=
  let* w := get in
  (if isAutoPlaying w then stopAutoPlay else startAutoPlay) ;;;
  let* w := get in
  trackEvent "story_autoplay_toggle" "interaction"
    [("autoplay", PBool (isAutoPlaying w))].

(** [pauseOnInteraction] stops auto-play and arms a ten second timeout;
    [restartAfterIdle] is the body of that timeout. *)
Definition pauseOnInteraction : M World unit := stopAutoPlay.

Definition restartAfterIdle : M World unit :=
  let* w := get in
  when (negb (isAutoPlaying w)) startAutoPlay.

(** The interval callback. *)
Definition tick : M World unit := nextSlide.

(** The page a carousel is constructed on: how many [.story-slide]
    elements it has, which of the elements looked up by id or selector
    exist, and the analytics object. *)
Record Page := {
  slides : nat;
  has_storyIndicators : bool;
  has_prevBtn : bool;
  has_nextBtn : bool;
  has_carousel : bool;
  page_storySlides : option Transform;
  page_storyProgress : option Width;
  page_autoPlayToggle : option Button;
  page_analytics : option (list TrackedEvent)
}.

Definition require (present : bool) (what : string) : M World unit :=
  if present then ret tt else throw (TypeError what).

(** [createIndicators]: empties [#storyIndicators] and appends one
    indicator per slide, the first one active.  The page is taken to have
    no [.story-indicator] outside that container. *)
Definition createIndicators (pg : Page) : M World unit :=
  require (has_storyIndicators pg) "indicatorsContainer is null" ;;;
  let* w := get in
  modify (set_indicators
            (imap (λ i _, if (i =? 0)%nat
                          then add "active" {["story-indicator"]}
                          else {["story-indicator"]})
                  (replicate (Z.to_nat (totalSlides w)) tt))).

Definition setupEventListeners (pg : Page) : M World unit :=
  require (has_prevBtn pg) "prevBtn is null" ;;;
  require (has_nextBtn pg) "nextBtn is null" ;;;
  require (bool_decide (is_Some (page_autoPlayToggle pg))) "autoPlayToggle is null" ;;;
  require (has_carousel pg) "carousel is null".

Definition init (pg : Page) : M World unit :=
  createIndicators pg ;;;
  setupEventListeners pg ;;;
  updateSlide ;;;
  startAutoPlay.

(** [new StoryCarousel()]: the listeners that [init] managed to register
    keep the object alive even when [init] throws part-way. *)
Definition new (pg : Page) : World :=
  exec (init pg)
    {| currentSlide := 0; totalSlides := Z.of_nat (slides pg);
       autoPlayInterval := None; isAutoPlaying := false;
       storySlides := page_storySlides pg; storyProgress := page_storyProgress pg;
       indicators := []; autoPlayToggle := page_autoPlayToggle pg;
       timers := Timers.empty; analytics := page_analytics pg |}.

End StoryCarousel.

(** ** Hero carousel ([class AdvancedHeroCarousel]) *)

Module AdvancedHeroCarousel.
Import DOM.

(** A [.carousel-item]: class list and the three inline style properties
    the render step writes. *)
Record Item :=
  { item_classes : classList; left : string; transform : string; zIndex : string }.

(** The carousel object with the node lists and the progress bar it
    captured in its constructor ([progressBar] is [null] when
    [#progressBar] is not in the page). *)
Record World := {
  currentIndex : Z;
  totalItems : Z;
  autoPlayInterval : option nat;
  isAutoPlaying : bool;
  items : list Item;
  dots : list classList;
  progressBar : option Width;
  timers : Timers.t
}.

Definition set_currentIndex (v : Z) (w : World) : World :=
  {| currentIndex := v; totalItems := totalItems w;
     autoPlayInterval := autoPlayInterval w;
     isAutoPlaying := isAutoPlaying w; items := items w; dots := dots w;
     progressBar := progressBar w; timers := timers w |}.
Definition set_autoPlayInterval (v : option nat) (w : World) : World :=
  {| currentIndex := currentIndex w; totalItems := totalItems w;
     autoPlayInterval := v; isAutoPlaying := isAutoPlaying w;
     items := items w; dots := dots w; progressBar := progressBar w;
     timers := timers w |}.
Definition set_isAutoPlaying (v : bool) (w : World) : World :=
  {| currentIndex := currentIndex w; totalItems := totalItems w;
     autoPlayInterval := autoPlayInterval w; isAutoPlaying := v;
     items := items w; dots := dots w; progressBar := progressBar w;
     timers := timers w |}.
Definition set_items (v : list Item) (w : World) : World :=
  {| currentIndex := currentIndex w; totalItems := totalItems w;
     autoPlayInterval := autoPlayInterval w;
     isAutoPlaying := isAutoPlaying w; items := v; dots := dots w;
     progressBar := progressBar w; timers := timers w |}.
Definition set_dots (v : list classList) (w : World) : World :=
  {| currentIndex := currentIndex w; totalItems := totalItems w;
     autoPlayInterval := autoPlayInterval w;
     isAutoPlaying := isAutoPlaying w; items := items w; dots := v;
     progressBar := progressBar w; timers := timers w |}.
Definition set_progressBar (v : option Width) (w : World) : World :=
  {| currentIndex := currentIndex w; totalItems := totalItems w;
     autoPlayInterval := autoPlayInterval w;
     isAutoPlaying := isAutoPlaying w; items := items w; dots := dots w;
     progressBar := v; timers := timers w |}.
Definition set_timers (v : Timers.t) (w : World) : World :=
  {| currentIndex := currentIndex w; totalItems := totalItems w;
     autoPlayInterval := autoPlayInterval w;
     isAutoPlaying := isAutoPlaying w; items := items w; dots := dots w;
     progressBar := progressBar w; timers := v |}.

Definition place (currentIndex totalItems : Z) (index : nat) (item : Item) : Item :=
  let classes := remove "active" (item_classes item) in
  let relativeIndex :=
    Z.rem (Z.of_nat index - currentIndex + totalItems) totalItems in
  if (Z.of_nat index =? currentIndex)%Z then
    {| item_classes := add "active" classes; left := "50%";
       transform := "translateX(-50%) scale(1.35)"; zIndex := "5" |}
  else if (relativeIndex =? 1)%Z then
    {| item_classes := classes; left := "90px"; transform := ""; zIndex := "2" |}
  else if (relativeIndex =? 2)%Z then
    {| item_classes := classes; left := "250px"; transform := ""; zIndex := "1" |}
  else if (relativeIndex =? 3)%Z then
    {| item_classes := classes; left := "-90px"; transform := ""; zIndex := "2" |}
  else
    {| item_classes := classes; left := ""; transform := ""; zIndex := "" |}.

Definition mark (currentIndex : Z) (index : nat) (dot : classList) : classList :=
  let dot := remove "active" dot in
  if (Z.of_nat index =? currentIndex)%Z then add "active" dot else dot.

Definition updateCarousel : M World unit :=
  let* w := get in
  modify (set_items (imap (place (currentIndex w) (totalItems w)) (items w))) ;;;
  modify (set_dots (imap (mark (currentIndex w)) (dots w))) ;;;
  let progress :=
    mul_pos (div (inject_Z (currentIndex w + 1)) (inject_Z (totalItems w)))
            (inject_Z 100) in
  match progressBar w with
  | Some width => modify (set_progressBar (Some (assign_width progress width)))
  | None => ret tt
  end.

Definition nextSlide : M World unit :=
  let* w := get in
  modify (set_currentIndex (Z.rem (currentIndex w + 1) (totalItems w))) ;;;
  updateCarousel.

Definition prevSlide : M World unit :=
  let* w := get in
  modify (set_currentIndex
            (Z.rem (currentIndex w - 1 + totalItems w) (totalItems w))) ;;;
  updateCarousel.

Definition goToSlide (index : Z) : M World unit :=
  let* w := get in
  if (index >=? 0)%Z && (index <? totalItems w)%Z then
    modify (set_currentIndex index) ;;;
    updateCarousel
  else ret tt.

Definition startAutoPlay : M World unit :=
  let* w := get in
  if isAutoPlaying w then
    modify (λ w, let '(id, tm) := Timers.setInterval (timers w) in
                 set_autoPlayInterval (Some id) (set_timers tm w))
  else ret tt.

Definition pauseAutoPlay : M World unit :=
  let* w := get in
  match autoPlayInterval w with
  | Some (S n) => modify (set_timers (Timers.clearInterval (S n) (timers w)))
  | _ => ret tt
  end.

Definition resumeAutoPlay : M World unit :=
  let* w := get in
  if isAutoPlaying w then startAutoPlay else ret tt.

Definition resetAutoPlay : M World unit :=
  pauseAutoPlay ;;;
  resumeAutoPlay.

Definition toggleAutoPlay : M World unit :=
  let* w := get in
  modify (set_isAutoPlaying (negb (isAutoPlaying w))) ;;;
  let* w := get in
  if isAutoPlaying w then startAutoPlay else pauseAutoPlay.

Definition handleSwipe (startX endX : Q) : M World unit :=
  let threshold := inject_Z 50 in
  let diff := (startX - endX)%Q in
  if Qgt_bool (Qabs diff) threshold then
    (if Qgt_bool diff (inject_Z 0) then nextSlide else prevSlide) ;;;
    resetAutoPlay
  else ret tt.

(** The interval callback. *)
Definition tick : M World unit := nextSlide.

(** [new AdvancedHeroCarousel()] on a page with the given items, dots and
    progress bar; [init] runs only when there is at least one item. *)
Definition new (page_items : list Item) (page_dots : list classList)
    (page_progressBar : option Width) : World :=
  let w := {| currentIndex := 0; totalItems := Z.of_nat (length page_items);
              autoPlayInterval := None; isAutoPlaying := false;
              items := page_items; dots := page_dots;
              progressBar := page_progressBar; timers := Timers.empty |} in
  if (totalItems w >? 0)%Z then exec updateCarousel w else w.

End AdvancedHeroCarousel.

(** ** Scroll reveal ([class ScrollReveal3D]) *)

Module ScrollReveal3D.
Import DOM.

Record t := { elements : list nat; windowHeight : Q }.

Definition isInViewport (self : t) (r : DOMRect) : bool :=
  let threshold := (windowHeight self * (1 # 10))%Q in
  Qge_bool (top r) (- threshold)%Q &&
  Qle_bool (bottom r) (windowHeight self + threshold)%Q.

Definition revealElement (element : nat) (d : Doc) : Doc :=
  if negb (has_class "revealed" element (classes d)) then
    let d := set_classes (add_class "revealed" element (classes d)) d in
    match analytics d with
    | Some events => set_analytics (Some (events ++ [("scroll_reveal", element)])%list) d
    | None => d
    end
  else d.

Definition checkElements (self : t) (lay : Layout) (d : Doc) : Doc :=
  foldl (λ d element,
           if isInViewport self (rect lay element) then revealElement element d
           else d)
        d (elements self).

(** The two listeners of [bindEvents]. *)
Definition on_scroll (lay : Layout) (st : t * Doc) : t * Doc :=
  (st.1, checkElements st.1 lay st.2).

Definition on_resize (lay : Layout) (st : t * Doc) : t * Doc :=
  ({| elements := elements st.1; windowHeight := innerHeight lay |}, st.2).

End ScrollReveal3D.

(** ** Progressive reveal and scroll progress ([class ProgressiveScrollReveal]) *)

Module ProgressiveScrollReveal.
Import DOM.

Record t := {
  elementsToReveal : list nat;
  charElements : list nat;
  textLines : list nat
}.

Definition updateScrollProgress (lay : Layout) (d : Doc) : Doc :=
  let docHeight := (scrollHeight lay - innerHeight lay)%Q in
  let scrolled := pageYOffset lay in
  let progress := mul_pos (div scrolled docHeight) (inject_Z 100) in
  match scrollProgress d with
  | Some width =>
      set_scrollProgress
        (Some (assign_width (min_fin progress (inject_Z 100)) width)) d
  | None => d
  end.

Definition isInViewport (lay : Layout) (element : nat) (threshold : Q) : bool :=
  let r := rect lay element in
  let windowHeight := innerHeight lay in
  let elementHeight := height r in
  let elementTop := top r in
  let elementBottom := bottom r in
  let visibleHeight :=
    (Qmin elementBottom windowHeight - Qmax elementTop (inject_Z 0))%Q in
  let visibilityRatio := div visibleHeight elementHeight in
  gt_fin visibilityRatio threshold.

Definition checkElements (self : t) (lay : Layout) (d : Doc) : Doc :=
  let d :=
    foldl (λ d element,
             if isInViewport lay element (1 # 10) then
               set_classes (add_class "in-view" element (classes d)) d
             else d)
          d (elementsToReveal self) in
  let d :=
    foldl (λ d element,
             if isInViewport lay element (2 # 10) then
               set_classes (add_all "revealed" (char_spans d element) (classes d)) d
             else d)
          d (charElements self) in
  foldl (λ d line,
           if isInViewport lay line (1 # 10) then
             set_classes (add_class "revealed" line (classes d)) d
           else d)
        d (textLines self).

(** The two listeners of [bindEvents]. *)
Definition on_scroll (self : t) (lay : Layout) (d : Doc) : Doc :=
  checkElements self lay (updateScrollProgress lay d).

Definition on_resize (self : t) (lay : Layout) (d : Doc) : Doc :=
  checkElements self lay d.

End ProgressiveScrollReveal.

(** ** Section animations ([class SmoothScrollAnimations]) *)

Module SmoothScrollAnimations.
Import DOM.

(** A [section] element: its node, whether its id is [story], and its
    [.story-slide] descendants. *)
Record SectionElement := { node : nat; is_story : bool; slides : list nat }.

Record t := { sections : list SectionElement }.

Definition slideProgress (progress : jsnum) (index : nat) : jsnum :=
  clamp01 (div_pos (sub_fin progress (inject_Z (Z.of_nat index) * (15 # 100))%Q)
                   (3 # 10)).

(** One slide of the story section.  The inline styles written when
    [slideProgress > 0] are not kept; beyond 0.3 every text line of the
    slide gets a timeout that will reveal it and every [.char] span is
    revealed at once. *)
Definition animateSlide (progress : jsnum) (d : Doc) (index : nat) (slide : nat) : Doc :=
  let slideProgress := slideProgress progress index in
  if gt_fin slideProgress 0 then
    if gt_fin slideProgress (3 # 10) then
      let d := set_pending (pending d ++ text_lines d slide)%list d in
      set_classes (add_all "revealed" (char_spans d slide) (classes d)) d
    else d
  else d.

Definition animateSection (section : SectionElement) (progress : jsnum) (d : Doc) : Doc :=
  if is_story section then
    foldl (λ d '(index, slide), animateSlide progress d index slide) d
          (zip (seq 0 (length (slides section))) (slides section))
  else d.

Definition updateAnimations (self : t) (lay : Layout) (d : Doc) : Doc :=
  let scrollY := pageYOffset lay in
  let windowHeight := innerHeight lay in
  foldl (λ d section,
           let r := rect lay (node section) in
           let sectionTop := (top r + scrollY)%Q in
           let sectionHeight := height r in
           let sectionProgress :=
             clamp01 (div (scrollY + windowHeight - sectionTop)%Q
                          (sectionHeight + windowHeight)%Q) in
           animateSection section sectionProgress d)
        d (sections self).

(** The body of the [k]-th waiting timeout: the line is revealed. *)
Definition line_timeout (k : nat) (d : Doc) : Doc :=
  match pending d !! k with
  | Some line =>
      set_classes (add_class "revealed" line (classes d))
                  (set_pending (delete k (pending d)) d)
  | None => d
  end.

End SmoothScrollAnimations.

(** ** The scroll systems on one page *)

Module Page.
Import DOM.

Record State := {
  doc : Doc;
  progressiveReveal : ProgressiveScrollReveal.t;
  smoothAnimations : SmoothScrollAnimations.t;
  scrollReveal : ScrollReveal3D.t
}.

(** What the window delivers: a scroll event, a resize event, the
    animation frame requested by the throttled scroll listener, each with
    the layout at that moment, or one of the waiting line timeouts.  The
    listeners run in the order the systems were constructed.
    [StoryScrollEffects], which runs on the same events, writes inline
    styles only and is left out. *)
Inductive Event :=
| Scroll (lay : Layout)
| Resize (lay : Layout)
| Frame (lay : Layout)
| LineTimeout (k : nat).

Definition with_doc (st : State) (d : Doc) : State :=
  {| doc := d; progressiveReveal := progressiveReveal st;
     smoothAnimations := smoothAnimations st; scrollReveal := scrollReveal st |}.

Definition step (st : State) (ev : Event) : State :=
  match ev with
  | Scroll lay =>
      let d := ProgressiveScrollReveal.on_scroll (progressiveReveal st) lay (doc st) in
      let d := SmoothScrollAnimations.updateAnimations (smoothAnimations st) lay d in
      let '(sr, d) := ScrollReveal3D.on_scroll lay (scrollReveal st, d) in
      {| doc := d; progressiveReveal := progressiveReveal st;
         smoothAnimations := smoothAnimations st; scrollReveal := sr |}
  | Resize lay =>
      let d := ProgressiveScrollReveal.on_resize (progressiveReveal st) lay (doc st) in
      let '(sr, d) := ScrollReveal3D.on_resize lay (scrollReveal st, d) in
      {| doc := d; progressiveReveal := progressiveReveal st;
         smoothAnimations := smoothAnimations st; scrollReveal := sr |}
  | Frame lay =>
      let d := ProgressiveScrollReveal.updateScrollProgress lay (doc st) in
      let d := ProgressiveScrollReveal.checkElements (progressiveReveal st) lay d in
      let d := SmoothScrollAnimations.updateAnimations (smoothAnimations st) lay d in
      let d := ScrollReveal3D.checkElements (scrollReveal st) lay d in
      with_doc st d
  | LineTimeout k => with_doc st (SmoothScrollAnimations.line_timeout k (doc st))
  end.

Definition run (st : State) (evs : list Event) : State := foldl step st evs.

(** The overlapping fraction in the words of the specification: the part
    of the box height that lies inside the viewport [0, innerHeight],
    over the box height. *)
Definition spec_visibility_ratio (windowHeight : Q) (r : DOMRect) : Q :=
  (Qmax (inject_Z 0) (Qmin (bottom r) windowHeight - Qmax (top r) (inject_Z 0))
   / height r)%Q.

End Page.

(** ** Identity service wrapper ([firebaseAuth] in [js/firebase-auth.js]) *)

Module firebaseAuth.

(** What the catch blocks read from a rejection: its [code] and [message]
    properties, either of which may be missing. *)
Record AuthError := { code : option string; message : option string }.

(** How an awaited provider call settles. *)
Inductive settled (A : Type) :=
| Resolved (a : A)
| Rejected (e : AuthError).
Arguments Resolved {A} a.
Arguments Rejected {A} e.

Record User := { uid : string; email : string }.

Record Result := { success : bool; user : option User; message_of : string }.

(** [a || b] on an optional string: the empty string is falsy. *)
Definition or_else (a : option string) (b : string) : string :=
  match a with
  | Some (String c rest) => String c rest
  | _ => b
  end.

Definition register_fallback : string := "Đã có lỗi xảy ra khi đăng ký!".
Definition login_fallback : string := "Đã có lỗi xảy ra khi đăng nhập!".
Definition google_fallback : string := "Đã có lỗi xảy ra khi đăng nhập Google!".
Definition reset_fallback : string := "Đã có lỗi xảy ra khi gửi email!".

(** [switch (error.code)]: the cases are tried in order with strict
    equality; a missing [code] matches none of them. *)
Fixpoint switch (cases : list (string * string)) (fallback : string)
    (c : option string) : string :=
  match cases with
  | [] => fallback
  | (label, text) :: rest =>
      if bool_decide (c = Some label) then text else switch rest fallback c
  end.

Definition register_cases : list (string * string) :=
  [("auth/email-already-in-use", "Email này đã được sử dụng!");
   ("auth/invalid-email", "Email không hợp lệ!");
   ("auth/weak-password", "Mật khẩu quá yếu! Vui lòng chọn mật khẩu mạnh hơn.");
   ("auth/operation-not-allowed", "Đăng ký bằng email chưa được kích hoạt!")].

Definition login_cases : list (string * string) :=
  [("auth/user-not-found", "Không tìm thấy tài khoản với email này!");
   ("auth/wrong-password", "Mật khẩu không đúng!");
   ("auth/invalid-email", "Email không hợp lệ!");
   ("auth/user-disabled", "Tài khoản đã bị khóa!");
   ("auth/too-many-requests", "Quá nhiều lần thử. Vui lòng thử lại sau!")].

Definition google_cases : list (string * string) :=
  [("auth/popup-closed-by-user", "Đăng nhập bị hủy!");
   ("auth/popup-blocked", "Popup bị chặn! Vui lòng cho phép popup và thử lại.");
   ("auth/account-exists-with-different-credential",
    "Tài khoản đã tồn tại với phương thức đăng nhập khác!")].

Definition reset_cases : list (string * string) :=
  [("auth/user-not-found", "Không tìm thấy tài khoản với email này!");
   ("auth/invalid-email", "Email không hợp lệ!")].

Definition register_message : option string → string :=
  switch register_cases register_fallback.
Definition login_message : option string → string :=
  switch login_cases login_fallback.
Definition google_message : option string → string :=
  switch google_cases google_fallback.
Definition reset_message : option string → string :=
  switch reset_cases reset_fallback.

(** A code is in an operation's table when one of its cases names it. *)
Definition in_table (cases : list (string * string)) (c : option string) : Prop :=
  ∃ label, c = Some label ∧ label ∈ cases.*1.

Definition register_catch (error : AuthError) : Result :=
  let mapped := register_message (code error) in
  {| success := false; user := None;
     message_of := or_else (message error) mapped |}.

(** [register]: [usernameExists] is what [checkUsernameExists] resolved
    to; [created] and [profiled] are how [createUserWithEmailAndPassword]
    and [updateProfile] settle.  [saveUserData] never rejects. *)
Definition register (usernameExists : bool) (created : settled User)
    (profiled : settled unit) : Result :=
  if usernameExists then
    register_catch {| code := None; message := Some "Tên đăng nhập đã tồn tại!" |}
  else
    match created with
    | Rejected error => register_catch error
    | Resolved u =>
        match profiled with
        | Rejected error => register_catch error
        | Resolved _ =>
            {| success := true; user := Some u; message_of := "Đăng ký thành công!" |}
        end
    end.

Definition login (signedIn : settled User) : Result :=
  match signedIn with
  | Resolved u =>
      {| success := true; user := Some u; message_of := "Đăng nhập thành công!" |}
  | Rejected error =>
      {| success := false; user := None; message_of := login_message (code error) |}
  end.

Definition loginWithGoogle (popup : settled User) : Result :=
  match popup with
  | Resolved u =>
      {| success := true; user := Some u;
         message_of := "Đăng nhập Google thành công!" |}
  | Rejected error =>
      {| success := false; user := None; message_of := google_message (code error) |}
  end.

Definition resetPassword (sent : settled unit) : Result :=
  match sent with
  | Resolved _ =>
      {| success := true; user := None;
         message_of := "Email khôi phục mật khẩu đã được gửi!" |}
  | Rejected error =>
      {| success := false; user := None; message_of := reset_message (code error) |}
  end.

End firebaseAuth.

(** ** [GameAPI.getCurrentUserId] *)

Module GameAPI.

(** JavaScript values as far as a parsed token payload needs them. *)
#[local] Set Warnings "-register-all".
Inductive value :=
| VUndefined
| VNull
| VBool (b : bool)
| VNumber (q : Q)
| VString (s : string)
| VArray (elems : list value)
| VObject (props : list (string * value))
| VFunction (name : string).
#[local] Set Warnings "register-all".

Fixpoint own_property (key : string) (props : list (string * value)) : option value :=
  match props with
  | [] => None
  | (k, v) :: rest => if String.eqb k key then Some v else own_property key rest
  end.

(** [payload.sub]: a property read throws on [null] and [undefined];
    a string finds [String.prototype.sub]; numbers, booleans, arrays and
    objects without the key give [undefined]. *)
Definition get_sub (payload : value) : completion value :=
  match payload with
  | VUndefined | VNull => Throw (TypeError "cannot read properties of null")
  | VObject props => Normal (default VUndefined (own_property "sub" props))
  | VString _ => Normal (VFunction "String.prototype.sub")
  | _ => Normal VUndefined
  end.

(** [s.split('.')] *)
Fixpoint split_dot (s : string) : list string :=
  match s with
  | EmptyString => [EmptyString]
  | String c rest =>
      if Ascii.eqb c "."%char then EmptyString :: split_dot rest
      else match split_dot rest with
           | seg :: segs => String c seg :: segs
           | [] => [String c EmptyString]
           end
  end.

Definition try_catch {A} (body : completion A) (handler : exn → completion A)
    : completion A :=
  match body with
  | Normal a => Normal a
  | Throw e => handler e
  end.

(** Truthiness, as [!token] tests it. *)
Definition truthy (v : value) : bool :=
  match v with
  | VUndefined | VNull => false
  | VBool b => b
  | VNumber q => negb (Qeq_bool q 0)
  | VString EmptyString => false
  | VString (String _ _) => true
  | VArray _ | VObject _ | VFunction _ => true
  end.

(** The segment handed to [atob]; a missing array element is
    [undefined], which [atob] reads as the string "undefined". *)
Definition second_segment (token : string) : string :=
  default "undefined" (split_dot token !! 1%nat).

(** [token.split('.')[1]]: only a string has a [split] method. *)
Definition split_second (token : value) : completion string :=
  match token with
  | VString s => Normal (second_segment s)
  | _ => Throw (TypeError "token.split is not a function")
  end.

Section Builtins.
(** The two host functions; [None] is a throw ([InvalidCharacterError]
    from [atob], [SyntaxError] from [JSON.parse]). *)
Variable atob : string → option string.
Variable JSON_parse : string → option value.

Definition decode_payload (token : value) : completion value :=
  match split_second token with
  | Throw e => Throw e
  | Normal segment =>
      match atob segment with
      | None => Throw InvalidCharacterError
      | Some text =>
          match JSON_parse text with
          | None => Throw SyntaxError
          | Some payload => get_sub payload
          end
      end
  end.

(** [this.token] is whatever [localStorage.getItem] or [setToken] left
    there: [null], a string, or any other value a login response carried. *)
Definition getCurrentUserId (token : value) : completion value :=
  if negb (truthy token) then Normal VNull
  else try_catch (decode_payload token) (λ _, Normal VNull).

End Builtins.

End GameAPI.

(** ** Call sequences *)

Module Calls.

(** Handlers run one per event: each starts in the world the previous one
    left, whether that one returned or threw. *)
Fixpoint trace {W C} (handler : C → M W unit) (w : W) (cs : list C) : list W :=
  match cs with
  | [] => []
  | c :: cs => let w' := exec (handler c) w in w' :: trace handler w' cs
  end.

Definition run {W C} (handler : C → M W unit) (w : W) (cs : list C) : W :=
  foldl (λ w c, exec (handler c) w) w cs.

Inductive nav := Next | Previous.

Fixpoint next_count (cs : list nav) : Z :=
  match cs with
  | [] => 0
  | Next :: cs => 1 + next_count cs
  | Previous :: cs => next_count cs
  end.

Fixpoint previous_count (cs : list nav) : Z :=
  match cs with
  | [] => 0
  | Next :: cs => previous_count cs
  | Previous :: cs => 1 + previous_count cs
  end.

Definition story_nav (c : nav) : M StoryCarousel.World unit :=
  match c with
  | Next => StoryCarousel.nextSlide
  | Previous => StoryCarousel.prevSlide
  end.

Definition hero_nav (c : nav) : M AdvancedHeroCarousel.World unit :=
  match c with
  | Next => AdvancedHeroCarousel.nextSlide
  | Previous => AdvancedHeroCarousel.prevSlide
  end.

(** One [nextSlide] or [prevSlide] of either carousel, seen on the cursor
    alone. *)
Definition cursor_step (N : Z) (c : nav) (cur : Z) : Z :=
  match c with
  | Next => Z.rem (cur + 1) N
  | Previous => Z.rem (cur - 1 + N) N
  end.

(** The five-slide scenario: three [next] calls, then five [previous]. *)
Definition three_next_five_previous : list nav :=
  [Next; Next; Next; Previous; Previous; Previous; Previous; Previous].

End Calls.

(** ** Auto-play call sequences *)

Module AutoPlay.
Import Calls.

(** The handle stored in [autoPlayInterval], as a set of live handles. *)
Definition handle_set (h : option nat) : gset nat :=
  match h with
  | Some (S n) => {[S n]}
  | _ => ∅
  end.

(** *** Story carousel *)

Inductive story_call :=
| SStart
| SStop
| SToggle
| SPauseOnInteraction
| SRestartAfterIdle
| SNav (c : nav)
| SGoTo (index : Z)
| SSwipe (startX endX : Q)
| STick.

Definition story_handler (c : story_call) : M StoryCarousel.World unit :=
  match c with
  | SStart => StoryCarousel.startAutoPlay
  | SStop => StoryCarousel.stopAutoPlay
  | SToggle => StoryCarousel.toggleAutoPlay
  | SPauseOnInteraction => StoryCarousel.pauseOnInteraction
  | SRestartAfterIdle => StoryCarousel.restartAfterIdle
  | SNav c => story_nav c
  | SGoTo index => StoryCarousel.goToSlide index
  | SSwipe startX endX => StoryCarousel.handleSwipe startX endX
  | STick => StoryCarousel.tick
  end.

Definition story_live (w : StoryCarousel.World) : gset nat :=
  Timers.live (StoryCarousel.timers w).

(** A sequence in which [startAutoPlay] is called directly only while no
    interval is scheduled. *)
Fixpoint story_guarded (w : StoryCarousel.World) (cs : list story_call) : Prop :=
  match cs with
  | [] => True
  | c :: cs =>
      (c = SStart → story_live w = ∅) ∧ story_guarded (exec (story_handler c) w) cs
  end.

(** [updateAutoPlayButton] gets through when the button is there and has
    an [<i>] inside. *)
Definition story_button_usable (w : StoryCarousel.World) : bool :=
  match StoryCarousel.autoPlayToggle w with
  | Some button => bool_decide (is_Some (StoryCarousel.btn_icon button))
  | None => false
  end.

Definition story_inv (w : StoryCarousel.World) : Prop :=
  0 < Timers.next_id (StoryCarousel.timers w) ∧
  story_live w ⊆ handle_set (StoryCarousel.autoPlayInterval w) ∧
  (story_button_usable w = true → StoryCarousel.isAutoPlaying w = false →
   story_live w = ∅).

(** The fields the auto-play methods read and write. *)
Definition story_same_autoplay (w w' : StoryCarousel.World) : Prop :=
  StoryCarousel.timers w' = StoryCarousel.timers w ∧
  StoryCarousel.autoPlayInterval w' = StoryCarousel.autoPlayInterval w ∧
  StoryCarousel.isAutoPlaying w' = StoryCarousel.isAutoPlaying w ∧
  StoryCarousel.autoPlayToggle w' = StoryCarousel.autoPlayToggle w.

(** *** Hero carousel *)

Inductive hero_call :=
| HStart
| HPause
| HResume
| HReset
| HToggle
| HNav (c : nav)
| HGoTo (index : Z)
| HSwipe (startX endX : Q)
| HTick.

Definition hero_handler (c : hero_call) : M AdvancedHeroCarousel.World unit :=
  match c with
  | HStart => AdvancedHeroCarousel.startAutoPlay
  | HPause => AdvancedHeroCarousel.pauseAutoPlay
  | HResume => AdvancedHeroCarousel.resumeAutoPlay
  | HReset => AdvancedHeroCarousel.resetAutoPlay
  | HToggle => AdvancedHeroCarousel.toggleAutoPlay
  | HNav c => hero_nav c
  | HGoTo index => AdvancedHeroCarousel.goToSlide index
  | HSwipe startX endX => AdvancedHeroCarousel.handleSwipe startX endX
  | HTick => AdvancedHeroCarousel.tick
  end.

Definition hero_live (w : AdvancedHeroCarousel.World) : gset nat :=
  Timers.live (AdvancedHeroCarousel.timers w).

(** A sequence in which [startAutoPlay] and [resumeAutoPlay] are called
    directly only while no interval is scheduled. *)
Fixpoint hero_guarded (w : AdvancedHeroCarousel.World) (cs : list hero_call) : Prop :=
  match cs with
  | [] => True
  | c :: cs =>
      (c = HStart ∨ c = HResume → hero_live w = ∅) ∧
      hero_guarded (exec (hero_handler c) w) cs
  end.

Definition hero_inv (w : AdvancedHeroCarousel.World) : Prop :=
  0 < Timers.next_id (AdvancedHeroCarousel.timers w) ∧
  hero_live w ⊆ handle_set (AdvancedHeroCarousel.autoPlayInterval w) ∧
  (AdvancedHeroCarousel.isAutoPlaying w = false → hero_live w = ∅).

Definition hero_same_autoplay (w w' : AdvancedHeroCarousel.World) : Prop :=
  AdvancedHeroCarousel.timers w' = AdvancedHeroCarousel.timers w ∧
  AdvancedHeroCarousel.autoPlayInterval w' = AdvancedHeroCarousel.autoPlayInterval w ∧
  AdvancedHeroCarousel.isAutoPlaying w' = AdvancedHeroCarousel.isAutoPlaying w.

End AutoPlay.

(** ** Concrete pages *)

Module Examples.
Import DOM.

Definition play_button : StoryCarousel.Button :=
  {| StoryCarousel.btn_classes := ∅;
     StoryCarousel.btn_icon := Some "fas fa-pause";
     StoryCarousel.btn_html := "" |}.

(** A story page with [n] slides; [progress] says whether it has
    [#storyProgress].  Everything else is there. *)
Definition story_page (n : nat) (progress : bool) : StoryCarousel.Page :=
  {| StoryCarousel.slides := n;
     StoryCarousel.has_storyIndicators := true;
     StoryCarousel.has_prevBtn := true;
     StoryCarousel.has_nextBtn := true;
     StoryCarousel.has_carousel := true;
     StoryCarousel.page_storySlides := Some StoryCarousel.NoTransform;
     StoryCarousel.page_storyProgress := if progress then Some NoWidth else None;
     StoryCarousel.page_autoPlayToggle := Some play_button;
     StoryCarousel.page_analytics := Some [] |}.

Definition story5 : StoryCarousel.World :=
  StoryCarousel.new (story_page 5 true).

Definition story5_without_progress : StoryCarousel.World :=
  StoryCarousel.new (story_page 5 false).

Definition blank_item : AdvancedHeroCarousel.Item :=
  {| AdvancedHeroCarousel.item_classes := {["carousel-item"]};
     AdvancedHeroCarousel.left := "";
     AdvancedHeroCarousel.transform := "";
     AdvancedHeroCarousel.zIndex := "" |}.

(** A hero page with [n] items and dots; [progress] says whether it has
    [#progressBar]. *)
Definition hero_page (n : nat) (progress : bool) : AdvancedHeroCarousel.World :=
  AdvancedHeroCarousel.new (replicate n blank_item) (replicate n {["dot"]})
    (if progress then Some NoWidth else None).

Definition hero5 : AdvancedHeroCarousel.World := hero_page 5 true.

(** A box of height [h] whose top edge is at [t]. *)
Definition box (t h : Z) : DOMRect :=
  {| top := inject_Z t; bottom := inject_Z (t + h); height := inject_Z h |}.

(** A page with one text line (node 0, also an element reveal), one more
    element reveal (node 1), one character element (node 2, spans 20 and
    21), one [.scroll-reveal] element (node 3) and the story section (node
    4) with one slide (node 5) that holds the text line; the window is 800
    pixels high when the systems are constructed. *)
Definition reveal_page : Page.State :=
  {| Page.doc :=
       {| classes := ∅;
          char_spans := λ e, if (e =? 2)%nat then [20; 21]%nat else [];
          text_lines := λ e, if (e =? 5)%nat then [0]%nat else [];
          scrollProgress := Some NoWidth;
          pending := [];
          analytics := Some [] |};
     Page.progressiveReveal :=
       {| ProgressiveScrollReveal.elementsToReveal := [0; 1]%nat;
          ProgressiveScrollReveal.charElements := [2]%nat;
          ProgressiveScrollReveal.textLines := [0]%nat |};
     Page.smoothAnimations :=
       {| SmoothScrollAnimations.sections :=
            [{| SmoothScrollAnimations.node := 4%nat;
                SmoothScrollAnimations.is_story := true;
                SmoothScrollAnimations.slides := [5]%nat |}] |};
     Page.scrollReveal :=
       {| ScrollReveal3D.elements := [3]%nat;
          ScrollReveal3D.windowHeight := inject_Z 800 |} |}.

(** A layout: window height, scroll offset, document height, the box of
    node [n], and one box for every other node. *)
Definition layout (windowHeight scrolled docHeight : Z) (n : nat) (r other : DOMRect)
    : Layout :=
  {| innerHeight := inject_Z windowHeight;
     pageYOffset := inject_Z scrolled;
     scrollHeight := inject_Z docHeight;
     rect := λ m, if (m =? n)%nat then r else other |}.

Definition far_below : DOMRect := box 5000 100.

(** The text line shows 30 of its 200 pixels at the bottom of a window
    710 pixels high: a ratio of 0.15. *)
Definition line_partly_visible : Layout :=
  layout 710 0 6000 0 (box 680 200) far_below.

(** The same line scrolled far above the window. *)
Definition line_out_of_view : Layout :=
  layout 710 5680 6000 0 (box (-5000) 200) far_below.

(** A [.scroll-reveal] element 2000 pixels high that fills the
    800-pixel window, and a small one that lies just above it. *)
Definition tall_element_fills_window : Layout :=
  layout 800 0 6000 3 (box 0 2000) far_below.

Definition small_element_above_window : Layout :=
  layout 800 0 6000 3 (box (-50) 40) far_below.

(** The story section fills the 800-pixel window. *)
Definition story_section_in_view : Layout :=
  layout 800 0 6000 4 (box 0 800) far_below.

(** A page whose content fits in the window, so that the document is as
    high as the window and cannot scroll; a long page pulled 30 pixels
    past its top edge; the same page scrolled 10 pixels and a quarter
    down. *)
Definition page_fits_window : Layout := layout 600 0 600 0 far_below far_below.
Definition pulled_past_top : Layout := layout 600 (-30) 2000 0 far_below far_below.
Definition scrolled_ten_pixels : Layout := layout 600 10 2000 0 far_below far_below.
Definition quarter_scrolled : Layout := layout 600 350 2000 0 far_below far_below.

(** A rejection whose code is in none of the tables, as the provider
    reports a network failure. *)
Definition network_failure : firebaseAuth.AuthError :=
  {| firebaseAuth.code := Some "auth/network-request-failed";
     firebaseAuth.message := Some "Firebase: Error (auth/network-request-failed)." |}.

(** Stand-ins for the two host functions that know one input each: the
    base64 text [eyJzdWIiOjQyfQ] of the JSON text [{"sub":42}], and that
    JSON text. *)
Definition quote : string := String (ascii_of_nat 34) EmptyString.

Definition payload_text : string :=
  String.append "{" (String.append quote (String.append "sub"
    (String.append quote ":42}"))).

Definition atob_sample (s : string) : option string :=
  if String.eqb s "eyJzdWIiOjQyfQ" then Some payload_text else None.

Definition JSON_parse_sample (s : string) : option GameAPI.value :=
  if String.eqb s payload_text
  then Some (GameAPI.VObject [("sub", GameAPI.VNumber (inject_Z 42))])
  else None.

Definition sample_token : string := "eyJhbGciOiJIUzI1NiJ9.eyJzdWIiOjQyfQ.c2ln".

(** Two call sequences in which every direct start finds no interval
    scheduled. *)
Definition story_guarded_calls : list AutoPlay.story_call :=
  [AutoPlay.SToggle; AutoPlay.SToggle; AutoPlay.SNav Calls.Next;
   AutoPlay.SPauseOnInteraction; AutoPlay.SRestartAfterIdle;
   AutoPlay.SSwipe (inject_Z 100) (inject_Z 0); AutoPlay.SStop;
   AutoPlay.SStart; AutoPlay.SToggle].

Definition hero_guarded_calls : list AutoPlay.hero_call :=
  [AutoPlay.HToggle; AutoPlay.HPause; AutoPlay.HResume;
   AutoPlay.HSwipe (inject_Z 100) (inject_Z 0); AutoPlay.HReset;
   AutoPlay.HNav Calls.Previous; AutoPlay.HToggle; AutoPlay.HStart;
   AutoPlay.HToggle].

End Examples.

(** ** What a rendered carousel looks like *)

Module Rendered.
Import DOM.

(** The item and the dot at the cursor, and no other, carry [active]. *)
Definition hero_marked (w : AdvancedHeroCarousel.World) : Prop :=
  (∀ i item, AdvancedHeroCarousel.items w !! i = Some item →
     "active" ∈ AdvancedHeroCarousel.item_classes item ↔
     Z.of_nat i = AdvancedHeroCarousel.currentIndex w) ∧
  (∀ i (dot : classList), AdvancedHeroCarousel.dots w !! i = Some dot →
     "active" ∈ dot ↔ Z.of_nat i = AdvancedHeroCarousel.currentIndex w).

Definition hero_rendered (n : nat) (w : AdvancedHeroCarousel.World) : Prop :=
  length (AdvancedHeroCarousel.items w) = n ∧
  AdvancedHeroCarousel.totalItems w = Z.of_nat n ∧
  (0 ≤ AdvancedHeroCarousel.currentIndex w < Z.of_nat n)%Z ∧
  hero_marked w.

(** The fields the render step and the navigation methods read and write. *)
Definition hero_same_render (w w' : AdvancedHeroCarousel.World) : Prop :=
  AdvancedHeroCarousel.currentIndex w' = AdvancedHeroCarousel.currentIndex w ∧
  AdvancedHeroCarousel.totalItems w' = AdvancedHeroCarousel.totalItems w ∧
  AdvancedHeroCarousel.items w' = AdvancedHeroCarousel.items w ∧
  AdvancedHeroCarousel.dots w' = AdvancedHeroCarousel.dots w ∧
  AdvancedHeroCarousel.progressBar w' = AdvancedHeroCarousel.progressBar w.

(** The story page has both elements the render step writes to. *)
Definition story_renderable (w : StoryCarousel.World) : Prop :=
  is_Some (StoryCarousel.storySlides w) ∧ is_Some (StoryCarousel.storyProgress w).

(** The indicator at the cursor, and no other, carries [active]. *)
Definition story_marked (w : StoryCarousel.World) : Prop :=
  ∀ i (indicator : classList), StoryCarousel.indicators w !! i = Some indicator →
    "active" ∈ indicator ↔ Z.of_nat i = StoryCarousel.currentSlide w.

(** The percentage a progress bar shows on slide [c] of [n]. *)
Definition progress_of (c n : Z) : jsnum :=
  mul_pos (div (inject_Z (c + 1)) (inject_Z n)) (inject_Z 100).

End Rendered.

(** ** Auto-play: flag, timer and button *)

Module AutoPlayState.
Import DOM AutoPlay.

(** The page has every element the story carousel looks up, and the
    auto-play button has its icon. *)
Definition page_complete (pg : StoryCarousel.Page) : bool :=
  StoryCarousel.has_storyIndicators pg && StoryCarousel.has_prevBtn pg &&
  StoryCarousel.has_nextBtn pg && StoryCarousel.has_carousel pg &&
  bool_decide (is_Some (StoryCarousel.page_storySlides pg)) &&
  bool_decide (is_Some (StoryCarousel.page_storyProgress pg)) &&
  match StoryCarousel.page_autoPlayToggle pg with
  | Some button => bool_decide (is_Some (StoryCarousel.btn_icon button))
  | None => false
  end.

(** While auto-play is on, exactly the stored interval is scheduled and the
    button is active and shows the pause icon; while it is off, nothing is
    scheduled and the button is inactive and shows the play icon. *)
Definition story_consistent (w : StoryCarousel.World) : Prop :=
  0 < Timers.next_id (StoryCarousel.timers w) ∧
  ∃ button, StoryCarousel.autoPlayToggle w = Some button ∧
    if StoryCarousel.isAutoPlaying w then
      ((∃ id, StoryCarousel.autoPlayInterval w = Some (S id) ∧ story_live w = {[S id]}) ∧
       ("active" ∈ StoryCarousel.btn_classes button) ∧
       StoryCarousel.btn_icon button = Some "fas fa-pause")
    else
      (story_live w = ∅ ∧
       ("active" ∉ StoryCarousel.btn_classes button) ∧
       StoryCarousel.btn_icon button = Some "fas fa-play").

(** Every scheduled handle, and the stored one, was handed out already. *)
Definition hero_handles_fresh (w : AdvancedHeroCarousel.World) : Prop :=
  ∀ id, id ∈ hero_live w → id < Timers.next_id (AdvancedHeroCarousel.timers w).

Definition is_toggle (c : hero_call) : bool :=
  match c with
  | HToggle => true
  | _ => false
  end.

(** Auto-play is off, no handle is stored and nothing is scheduled. *)
Definition hero_idle (w : AdvancedHeroCarousel.World) : Prop :=
  AdvancedHeroCarousel.isAutoPlaying w = false ∧
  AdvancedHeroCarousel.autoPlayInterval w = None ∧
  hero_live w = ∅.

(** One auto-play period: every scheduled interval fires once. *)
Definition story_period (w : StoryCarousel.World) : StoryCarousel.World :=
  Nat.iter (size (story_live w)) (exec StoryCarousel.tick) w.

End AutoPlayState.

(** ** What the scroll systems report *)

Module Reported.
Import DOM.

(** How many [scroll_reveal] events for [element] the analytics object
    has recorded; none when the page has no analytics object. *)
Definition reports (element : nat) (d : Doc) : nat :=
  match analytics d with
  | Some events =>
      length (filter (λ ev : string * nat, ev = ("scroll_reveal", element)) events)
  | None => 0
  end.

(** A recorded reveal is a reveal that happened, and it is recorded once. *)
Definition reported_once (element : nat) (d : Doc) : Prop :=
  reports element d = 0 ∨
  (reports element d = 1 ∧ "revealed" ∈ classes d !!! element).

(** An element placed so that [ScrollReveal3D] reveals node 3 of the
    sample page. *)
Definition scroll_reveal_in_view : Layout :=
  Examples.layout 800 0 6000 3 (Examples.box 100 200) Examples.far_below.

End Reported.

(** ** Which slides the section animation reaches *)

Module Animated.
Import DOM SmoothScrollAnimations.

(** A section with only the first seven of its story slides. *)
Definition first_seven (s : SectionElement) : SectionElement :=
  {| node := node s; is_story := is_story s; slides := take 7 (slides s) |}.

Definition first_seven_of_each (self : t) : t :=
  {| sections := map first_seven (sections self) |}.

End Animated.

(** ** One pass of the scroll systems *)

Module Pass.
Import DOM.

(** What a pass writes besides the waiting timeouts. *)
Definition same_marks (d d' : Doc) : Prop :=
  classes d' = classes d ∧ char_spans d' = char_spans d ∧
  analytics d' = analytics d ∧ scrollProgress d' = scrollProgress d.

(** [sectionProgress] in [updateAnimations]. *)
Definition sectionProgress (lay : Layout)
    (section : SmoothScrollAnimations.SectionElement) : jsnum :=
  let scrollY := pageYOffset lay in
  let windowHeight := innerHeight lay in
  let r := rect lay (SmoothScrollAnimations.node section) in
  let sectionTop := (top r + scrollY)%Q in
  let sectionHeight := height r in
  clamp01 (div (scrollY + windowHeight - sectionTop)%Q (sectionHeight + windowHeight)%Q).

(** The four calls of [updateScrollAnimations], which are also what the
    scroll listeners of the three systems run one after the other. *)
Definition pass (st : Page.State) (lay : Layout) (d : Doc) : Doc :=
  let d := ProgressiveScrollReveal.updateScrollProgress lay d in
  let d := ProgressiveScrollReveal.checkElements (Page.progressiveReveal st) lay d in
  let d := SmoothScrollAnimations.updateAnimations (Page.smoothAnimations st) lay d in
  ScrollReveal3D.checkElements (Page.scrollReveal st) lay d.

(** Every mark a pass at layout [lay] would set is set already. *)
Definition settled (st : Page.State) (lay : Layout) (d : Doc) : Prop :=
  (∀ n, n ∈ ProgressiveScrollReveal.elementsToReveal (Page.progressiveReveal st) →
        ProgressiveScrollReveal.isInViewport lay n (1 # 10) = true →
        "in-view" ∈ classes d !!! n) ∧
  (∀ e n, e ∈ ProgressiveScrollReveal.charElements (Page.progressiveReveal st) →
          ProgressiveScrollReveal.isInViewport lay e (2 # 10) = true →
          n ∈ char_spans d e → "revealed" ∈ classes d !!! n) ∧
  (∀ n, n ∈ ProgressiveScrollReveal.textLines (Page.progressiveReveal st) →
        ProgressiveScrollReveal.isInViewport lay n (1 # 10) = true →
        "revealed" ∈ classes d !!! n) ∧
  (∀ sec index slide n,
     sec ∈ SmoothScrollAnimations.sections (Page.smoothAnimations st) →
     SmoothScrollAnimations.is_story sec = true →
     (index, slide) ∈ zip (seq 0 (length (SmoothScrollAnimations.slides sec)))
                          (SmoothScrollAnimations.slides sec) →
     gt_fin (SmoothScrollAnimations.slideProgress (sectionProgress lay sec) index)
            (3 # 10) = true →
     n ∈ char_spans d slide → "revealed" ∈ classes d !!! n) ∧
  (∀ e, e ∈ ScrollReveal3D.elements (Page.scrollReveal st) →
        ScrollReveal3D.isInViewport (Page.scrollReveal st) (rect lay e) = true →
        "revealed" ∈ classes d !!! e).

End Pass.

(** ** Newsletter sign-up ([class Newsletter]) *)

Module Newsletter.

(** [modal.style.display] *)
Inductive Display := Unset | Block | NoDisplay.

(** What [form.innerHTML] holds: the markup with the e-mail field (the
    page's own, or the one [resetForm] writes), or one of the two
    messages, neither of which has an [input]. *)
Inductive FormContent := EmailField | SuccessMessage | ErrorMessage.

(** The object with the two elements it looked up ([None] when the page
    has no such element), the number of listeners on the form's [submit]
    event, the calls of [handleSubmit] that wait for their promise, the
    timeouts of [showSuccessMessage] that have not fired, and the names
    passed to [analytics.trackEvent]. *)
Record World := {
  modal : option Display;
  form : option FormContent;
  submit_listeners : nat;
  awaiting : nat;
  closing : nat;
  events : list string
}.

Definition set_modal (v : option Display) (w : World) : World :=
  {| modal := v; form := form w; submit_listeners := submit_listeners w;
     awaiting := awaiting w; closing := closing w; events := events w |}.
Definition set_form (v : option FormContent) (w : World) : World :=
  {| modal := modal w; form := v; submit_listeners := submit_listeners w;
     awaiting := awaiting w; closing := closing w; events := events w |}.
Definition set_submit_listeners (v : nat) (w : World) : World :=
  {| modal := modal w; form := form w; submit_listeners := v;
     awaiting := awaiting w; closing := closing w; events := events w |}.
Definition set_awaiting (v : nat) (w : World) : World :=
  {| modal := modal w; form := form w; submit_listeners := submit_listeners w;
     awaiting := v; closing := closing w; events := events w |}.
Definition set_closing (v : nat) (w : World) : World :=
  {| modal := modal w; form := form w; submit_listeners := submit_listeners w;
     awaiting := awaiting w; closing := v; events := events w |}.
Definition set_events (v : list string) (w : World) : World :=
  {| modal := modal w; form := form w; submit_listeners := submit_listeners w;
     awaiting := awaiting w; closing := closing w; events := v |}.

Definition trackEvent (name : string) : M World unit :=
  modify (λ w, set_events (events w ++ [name])%list w).

Definition openModal : M World unit :=
  let* w := get in
  match modal w with
  | None => throw (TypeError "this.modal is null")
  | Some _ =>
      modify (set_modal (Some Block)) ;;;
      trackEvent "newsletter_modal_open"
  end.

Definition closeModal : M World unit :=
  let* w := get in
  match modal w with
  | None => throw (TypeError "this.modal is null")
  | Some _ =>
      modify (set_modal (Some NoDisplay)) ;;;
      trackEvent "newsletter_modal_close"
  end.

(** [resetForm] writes the field back and adds one more [submit]
    listener to the form, which still has the ones it had. *)
Definition resetForm : M World unit :=
  let* w := get in
  match form w with
  | None => throw (TypeError "this.form is null")
  | Some _ =>
      modify (set_form (Some EmailField)) ;;;
      modify (λ w, set_submit_listeners (S (submit_listeners w)) w)
  end.

(** The callback of the 3000 ms timeout. *)
Definition success_timeout : M World unit :=
  closeModal ;;;
  resetForm.

Definition showSuccessMessage : M World unit :=
  let* w := get in
  match form w with
  | None => throw (TypeError "this.form is null")
  | Some _ =>
      modify (set_form (Some SuccessMessage)) ;;;
      modify (λ w, set_closing (S (closing w)) w)
  end.

Definition showErrorMessage : M World unit :=
  let* w := get in
  match form w with
  | None => throw (TypeError "this.form is null")
  | Some _ => modify (set_form (Some ErrorMessage))
  end.

(** [handleSubmit] up to its [await]: the field is read before the [try],
    so without it the call ends there (as a rejected promise). *)
Definition handleSubmit_begin : M World unit :=
  let* w := get in
  match form w with
  | Some EmailField =>
      trackEvent "newsletter_signup_attempt" ;;;
      modify (λ w, set_awaiting (S (awaiting w)) w)
  | _ => throw (TypeError "cannot read properties of null (reading 'value')")
  end.

(** [handleSubmit] from its [await] on; the awaited promise only ever
    resolves, and the [catch] takes over when [showSuccessMessage]
    throws. *)
Definition handleSubmit_resume : M World unit :=
  λ w, match (showSuccessMessage ;;; trackEvent "newsletter_signup_success") w with
       | (Normal tt, w') => (Normal tt, w')
       | (Throw _, w') =>
           (showErrorMessage ;;; trackEvent "newsletter_signup_error") w'
       end.

(** The page as the constructor finds it. *)
Record Page := { page_modal : option Display; page_form : option FormContent }.

(** [new Newsletter()]: [setupEventListeners] adds the first [submit]
    listener when the form is there. *)
Definition new (pg : Page) : World :=
  {| modal := page_modal pg; form := page_form pg;
     submit_listeners := match page_form pg with Some _ => 1 | None => 0 end;
     awaiting := 0; closing := 0; events := [] |}.

(** *** What the event loop does with one submit *)

(** The [submit] event runs every listener the form has. *)
Definition dispatch_submit (w : World) : World :=
  Nat.iter (submit_listeners w) (exec handleSubmit_begin) w.

(** A second later the waiting calls continue, one after the other. *)
Definition promises_resolve (w : World) : World :=
  Nat.iter (awaiting w)
           (λ w, exec handleSubmit_resume (set_awaiting (pred (awaiting w)) w)) w.

(** Three seconds after that their timeouts fire. *)
Definition timeouts_fire (w : World) : World :=
  Nat.iter (closing w)
           (λ w, exec success_timeout (set_closing (pred (closing w)) w)) w.

Definition submit_round (w : World) : World :=
  timeouts_fire (promises_resolve (dispatch_submit w)).

(** The form is ready for a submit and nothing is under way. *)
Definition ready (w : World) : Prop :=
  is_Some (modal w) ∧ form w = Some EmailField ∧ awaiting w = 0 ∧ closing w = 0.

(** A page with the modal and the form with its e-mail field. *)
Definition sample_page : Page :=
  {| page_modal := Some Unset; page_form := Some EmailField |}.

End Newsletter.

(** ** Analytics ([class GameAnalytics]) *)

Module GameAnalytics.
Import DOM.

(** *** [throttle(func, wait)] *)

(** The closure [executedFunction] with its variable [timeout], and of
    the page's timeouts the ones this closure has set that have neither
    fired nor been cleared, oldest first, each with the time it is due
    (all have the same delay, so the oldest is due first).  [now] is the
    clock in milliseconds and [ran] lists the times at which [func] ran. *)
Record Throttled := {
  now : Z;
  timeout : option nat;
  scheduled : list (nat * Z);
  next_timeout : nat;
  ran : list Z
}.

Definition clearTimeout (id : option nat) (w : Throttled) : Throttled :=
  match id with
  | Some id =>
      {| now := now w; timeout := timeout w;
         scheduled := filter (λ entry, entry.1 ≠ id) (scheduled w);
         next_timeout := next_timeout w; ran := ran w |}
  | None => w
  end.

Definition setTimeout (delay : Z) (w : Throttled) : nat * Throttled :=
  (next_timeout w,
   {| now := now w; timeout := timeout w;
      scheduled := (scheduled w ++ [(next_timeout w, now w + delay)%Z])%list;
      next_timeout := S (next_timeout w); ran := ran w |}).

Definition set_timeout (v : option nat) (w : Throttled) : Throttled :=
  {| now := now w; timeout := v; scheduled := scheduled w;
     next_timeout := next_timeout w; ran := ran w |}.

(** The wrapped function itself only notes when it ran. *)
Definition func (w : Throttled) : Throttled :=
  {| now := now w; timeout := timeout w; scheduled := scheduled w;
     next_timeout := next_timeout w; ran := (ran w ++ [now w])%list |}.

Definition later (w : Throttled) : Throttled :=
  func (clearTimeout (timeout w) w).

Definition executedFunction (wait : Z) (w : Throttled) : Throttled :=
  let w := clearTimeout (timeout w) w in
  let '(id, w) := setTimeout wait w in
  set_timeout (Some id) w.

(** [throttle(func, wait)] called at time [t]. *)
Definition throttle (t : Z) : Throttled :=
  {| now := t; timeout := None; scheduled := []; next_timeout := 1; ran := [] |}.

(** The event loop up to time [t]: timeouts that are due fire, oldest
    first, each at the time it is due.  A callback schedules nothing, so
    as many rounds as there are timeouts suffice. *)
Fixpoint fire_due (rounds : nat) (t : Z) (w : Throttled) : Throttled :=
  match rounds with
  | O => w
  | S rounds =>
      match scheduled w with
      | (id, due) :: rest =>
          if (due <=? t)%Z then
            fire_due rounds t
              (later {| now := Z.max (now w) due; timeout := timeout w; scheduled := rest;
                        next_timeout := next_timeout w; ran := ran w |})
          else w
      | [] => w
      end
  end.

Definition advance (t : Z) (w : Throttled) : Throttled :=
  let w := fire_due (length (scheduled w)) t w in
  {| now := Z.max (now w) t; timeout := timeout w; scheduled := scheduled w;
     next_timeout := next_timeout w; ran := ran w |}.

(** An event at time [t] calls the throttled function. *)
Definition call (wait t : Z) (w : Throttled) : Throttled :=
  executedFunction wait (advance t w).

Definition calls (wait : Z) (w : Throttled) (ts : list Z) : Throttled :=
  foldl (λ w t, call wait t w) w ts.

(** The times of a burst of events that starts at [t] and goes on with
    the given gaps. *)
Fixpoint burst (t : Z) (gaps : list Z) : list Z :=
  match gaps with
  | [] => [t]
  | gap :: gaps => t :: burst (t + gap) gaps
  end.

Definition burst_end (t : Z) (gaps : list Z) : Z := foldl Z.add t gaps.

(** One timeout is waiting, the one set by a call at time [t], and [func]
    has not run; nothing is waiting and [func] has not run. *)
Definition armed (wait t : Z) (w : Throttled) : Prop :=
  now w = t ∧ ran w = [] ∧
  ∃ id, timeout w = Some id ∧ scheduled w = [(id, t + wait)%Z].

Definition idle (t : Z) (w : Throttled) : Prop :=
  (now w ≤ t)%Z ∧ ran w = [] ∧ timeout w = None ∧ scheduled w = [].

(** *** Scroll depth ([setupScrollTracking]) *)

(** [Math.round]: the nearest integer, halves upwards. *)
Definition round (x : jsnum) : jsnum :=
  match x with
  | Fin q => Fin (inject_Z (Qfloor (q + (1 # 2))))
  | other => other
  end.

(** [x >= p] for a finite [p]. *)
Definition ge_fin (x : jsnum) (p : Q) : bool :=
  match x with
  | Fin q => Qle_bool p q
  | PInf => true
  | NInf | NaN => false
  end.

Definition scrollPercentages : list Z := [25; 50; 75; 100]%Z.

(** The properties of a [scroll_depth] event. *)
Record ScrollDepth := { percentage : Z; scrollTop : Q; docHeight : Q }.

(** The set [trackedPercentages] of the closure and the [scroll_depth]
    events handed to [trackEvent], oldest first. *)
Record ScrollTracking := {
  trackedPercentages : gset Z;
  scroll_depth : list ScrollDepth
}.

Definition setupScrollTracking : ScrollTracking :=
  {| trackedPercentages := ∅; scroll_depth := [] |}.

Definition scrollPercent (lay : Layout) : jsnum :=
  let scrollTop := pageYOffset lay in
  let docHeight := (scrollHeight lay - innerHeight lay)%Q in
  round (mul_pos (div scrollTop docHeight) (inject_Z 100)).

(** The callback of [scrollPercentages.forEach]. *)
Definition track_percentage (scrollPercent : jsnum) (scrollTop docHeight : Q)
    (w : ScrollTracking) (percentage : Z) : ScrollTracking :=
  if ge_fin scrollPercent (inject_Z percentage) &&
     negb (bool_decide (percentage ∈ trackedPercentages w))
  then {| trackedPercentages := {[percentage]} ∪ trackedPercentages w;
          scroll_depth :=
            (scroll_depth w ++
             [{| percentage := percentage; scrollTop := scrollTop;
                 docHeight := docHeight |}])%list |}
  else w.

Definition trackScroll (lay : Layout) (w : ScrollTracking) : ScrollTracking :=
  let scrollTop := pageYOffset lay in
  let docHeight := (scrollHeight lay - innerHeight lay)%Q in
  let scrollPercent := round (mul_pos (div scrollTop docHeight) (inject_Z 100)) in
  foldl (track_percentage scrollPercent scrollTop docHeight) w scrollPercentages.

(** The tracker after the runs of [trackScroll] at the given layouts. *)
Definition tracked_after (lays : list Layout) : ScrollTracking :=
  foldl (λ w lay, trackScroll lay w) setupScrollTracking lays.

(** The milestones among 25, 50, 75 and 100 that are switched on. *)
Definition milestones (m25 m50 m75 m100 : bool) : list Z :=
  ((if m25 then [25] else []) ++ (if m50 then [50] else []) ++
   (if m75 then [75] else []) ++ (if m100 then [100] else []))%Z%list.

(** The milestones a number has reached are the first few. *)
Definition first_few (m25 m50 m75 m100 : bool) : Prop :=
  (m50 = true → m25 = true) ∧ (m75 = true → m50 = true) ∧ (m100 = true → m75 = true).

(** The tracker has reported exactly the milestones switched on, in
    ascending order, and has them in its set. *)
Definition depth_inv (m25 m50 m75 m100 : bool) (w : ScrollTracking) : Prop :=
  first_few m25 m50 m75 m100 ∧
  map percentage (scroll_depth w) = milestones m25 m50 m75 m100 ∧
  trackedPercentages w = list_to_set (milestones m25 m50 m75 m100).

(** Some run of [trackScroll] among [lays] saw the page scrolled to
    [percentage] or further. *)
Definition reached (lays : list Layout) (percentage : Z) : bool :=
  existsb (λ lay, ge_fin (scrollPercent lay) (inject_Z percentage)) lays.

(** *** User id ([getOrCreateUserId]) *)

(** [localStorage] *)
Abbreviation Storage := (gmap string string).

(** [stamp] stands for the digits of [Date.now()], the underscore and the
    random suffix. *)
Definition getOrCreateUserId (stamp : string) (localStorage : Storage) : string * Storage :=
  match localStorage !! "game_user_id" with
  | Some (String c rest) => (String c rest, localStorage)
  | _ =>
      let userId := String.append "user_" stamp in
      (userId, <["game_user_id" := userId]> localStorage)
  end.

End GameAnalytics.

(** ** The API client's token and request options ([class GameAPI]) *)

Module GameAPIClient.
Import GameAPI.

(** [localStorage] *)
Abbreviation Storage := (gmap string string).

(** The string a value is stored and interpolated as; [other] is the
    conversion of numbers, arrays, objects and functions. *)
Definition to_string (other : value → string) (v : value) : string :=
  match v with
  | VString s => s
  | VNull => "null"
  | VUndefined => "undefined"
  | VBool true => "true"
  | VBool false => "false"
  | v => other v
  end.

Record Client := { token : value; localStorage : Storage }.

(** [new GameAPI()]: [getItem] gives [null] for a missing key. *)
Definition new (storage : Storage) : Client :=
  {| token := match storage !! "access_token" with
              | Some s => VString s
              | None => VNull
              end;
     localStorage := storage |}.

Definition setToken (other : value → string) (t : value) (c : Client) : Client :=
  {| token := t;
     localStorage := <["access_token" := to_string other t]> (localStorage c) |}.

Definition clearToken (c : Client) : Client :=
  {| token := VNull; localStorage := delete "access_token" (localStorage c) |}.

Definition isAuthenticated (c : Client) : bool := truthy (token c).

(** [login] once the request has returned; [access_token] is that
    property of the response ([undefined] when it has none). *)
Definition login (other : value → string) (access_token : value) (c : Client) : Client :=
  if truthy access_token then setToken other access_token c else c.

Definition logout (c : Client) : Client := clearToken c.

Inductive call :=
| SetToken (t : value)
| ClearToken
| Login (access_token : value)
| Logout.

Definition handler (other : value → string) (k : call) (c : Client) : Client :=
  match k with
  | SetToken t => setToken other t c
  | ClearToken => clearToken c
  | Login access_token => login other access_token c
  | Logout => logout c
  end.

Definition is_string (v : value) : bool :=
  match v with
  | VString _ => true
  | _ => false
  end.

(** The token a call stores, if it stores one, is a string. *)
Definition stores_a_string (k : call) : bool :=
  match k with
  | SetToken t => is_string t
  | Login access_token => negb (truthy access_token) || is_string access_token
  | ClearToken | Logout => true
  end.

(** *** The options of [request] *)

Abbreviation Headers := (gmap string string).

(** An options or config object with the three properties the client
    uses.  A property is [None] when the object does not have it; the
    [headers] property may also hold [null] or [undefined] ([Some None]). *)
Record Options := {
  method : option string;
  body : option string;
  headers : option (option Headers)
}.

(** [{...a, ...b}]: the properties of [b] replace those of [a]. *)
Definition spread (a b : Options) : Options :=
  {| method := match method b with Some v => Some v | None => method a end;
     body := match body b with Some v => Some v | None => body a end;
     headers := match headers b with Some v => Some v | None => headers a end |}.

(** [{'Content-Type': 'application/json', ...options.headers}]: spreading
    a missing, [null] or [undefined] value adds nothing. *)
Definition default_headers (options : Options) : Headers :=
  match headers options with
  | Some (Some given) => given ∪ {["Content-Type" := "application/json"]}
  | _ => {["Content-Type" := "application/json"]}
  end.

(** The [config] handed to [fetch]; setting a property on [null] or
    [undefined] throws. *)
Definition request_config (other : value → string) (c : Client) (options : Options)
    : completion Options :=
  let config :=
    spread {| method := None; body := None;
              headers := Some (Some (default_headers options)) |}
           options in
  if truthy (token c) then
    match headers config with
    | Some (Some h) =>
        Normal {| method := method config; body := body config;
                  headers :=
                    Some (Some (<["Authorization" :=
                                    String.append "Bearer " (to_string other (token c))]> h)) |}
    | _ => Throw (TypeError "cannot set properties of undefined")
    end
  else Normal config.

(** The options the client's own methods pass: a method and a body, or
    nothing at all. *)
Definition post (text : string) : Options :=
  {| method := Some "POST"; body := Some text; headers := None |}.
Definition put (text : string) : Options :=
  {| method := Some "PUT"; body := Some text; headers := None |}.
Definition no_options : Options :=
  {| method := None; body := None; headers := None |}.

(** A stand-in for the conversion of the other values. *)
Definition other_sample (v : value) : string := "[object Object]".

End GameAPIClient.

(** ** The user documents ([saveUserData], [checkUsernameExists]) *)

Module firebaseStore.

(** A field of a user document: a string or [null]. *)
Inductive field :=
| FString (s : string)
| FNull.

#[global] Instance field_eq_dec : EqDecision field.
Proof. solve_decision. Defined.

(** A document, and the [users] collection by document id. *)
Abbreviation document := (gmap string field).
Abbreviation collection := (gmap string document).

(** The signed-in user as far as [saveUserData] reads it. *)
Record User := { uid : string; email : field; displayName : field }.

(** [a || b] where [b] is a string: a missing property, [null] and the
    empty string are falsy. *)
Definition or_else (a : option field) (b : string) : string :=
  match a with
  | Some (FString (String c rest)) => String c rest
  | _ => b
  end.

(** [written] says whether [setDoc] resolved (a rejection is caught and
    logged); [createdAt] and [lastLogin] are the two clock readings.
    [additionalData] is spread last, and [setDoc] with [merge] writes the
    fields of [userData] over those of the stored document. *)
Definition saveUserData (written : bool) (createdAt lastLogin : string)
    (user : User) (additionalData : document) (users : collection) : collection :=
  let userData : document :=
    additionalData ∪
    <["uid" := FString (uid user)]>
    (<["email" := email user]>
    (<["displayName" :=
         FString (or_else (Some (displayName user))
                    (or_else (additionalData !! "fullname") ""))]>
    (<["username" := FString (or_else (additionalData !! "username") "")]>
    (<["createdAt" := FString createdAt]>
    (<["lastLogin" := FString lastLogin]>
    (<["provider" := FString (or_else (additionalData !! "provider") "email")]> ∅)))))) in
  if written then <[uid user := userData ∪ default ∅ (users !! uid user)]> users
  else users.

(** [answered] says whether [getDocs] resolved; when it rejects the
    function answers [false]. *)
Definition checkUsernameExists (answered : bool) (username : string)
    (users : collection) : bool :=
  if answered then
    bool_decide (map_Exists (λ _ (d : document),
                               d !! "username" = Some (FString username)) users)
  else false.

(** What [register], [login] and [loginWithGoogle] pass as
    [additionalData]. *)
Definition register_data (fullname username : string) : document :=
  <["fullname" := FString fullname]>
  (<["username" := FString username]>
  (<["provider" := FString "email"]> ∅)).

Definition login_data (lastLogin : string) : document :=
  <["lastLogin" := FString lastLogin]> ∅.

Definition google_data (lastLogin : string) : document :=
  <["provider" := FString "google"]> (<["lastLogin" := FString lastLogin]> ∅).

(** A user and two clock readings for the examples. *)
Definition sample_user : User :=
  {| uid := "u1"; email := FString "lan@example.com"; displayName := FString "Lan" |}.

End firebaseStore.

(** ** The payment dialog ([class PaymentSystem]) *)

Module PaymentSystem.

Record Package := { name : string; price : string; icon : string }.

(** The object [packages] of [openPaymentModal], in the order written. *)
Definition packages : list (string * Package) :=
  [("phổ biến", {| name := "Gói Cơ Bản"; price := "50,000"; icon := "fas fa-coins" |});
   ("khuyến mãi", {| name := "Gói Cao Cấp"; price := "150,000"; icon := "fas fa-gem" |});
   ("vip", {| name := "Gói Tối Thượng"; price := "500,000"; icon := "fas fa-crown" |})].

Fixpoint own_property (key : string) (props : list (string * Package)) : option Package :=
  match props with
  | [] => None
  | (k, p) :: rest => if String.eqb k key then Some p else own_property key rest
  end.

(** The property names every object inherits. *)
Definition inherited : list string :=
  ["constructor"; "__proto__"; "hasOwnProperty"; "isPrototypeOf";
   "propertyIsEnumerable"; "toLocaleString"; "toString"; "valueOf";
   "__defineGetter__"; "__defineSetter__"; "__lookupGetter__"; "__lookupSetter__"].

(** [packages[packageType]]: one of the three packages, an inherited
    member (truthy, and not a package), or [undefined]. *)
Inductive member :=
| Own (p : Package)
| Inherited
| Undefined.

Definition packages_get (packageType : string) : member :=
  match own_property packageType packages with
  | Some p => Own p
  | None => if bool_decide (packageType ∈ inherited) then Inherited else Undefined
  end.

(** The parts of the page the dialog writes: the three texts of
    [#paymentModal], its [display], and the [payment_modal_open] events
    with their [package] and [price]. *)
Record Modal := {
  packageName : string;
  packagePrice : string;
  packageIcon : string;
  display : string;
  opened : list (string * string)
}.

(** [openPaymentModal]; [None] when the key names an inherited member,
    whose display is not followed here. *)
Definition openPaymentModal (packageType : string) (m : Modal) : option Modal :=
  let pkg :=
    match packages_get packageType with
    | Own p => Some p
    | Undefined => own_property "phổ biến" packages
    | Inherited => None
    end in
  match pkg with
  | Some pkg =>
      Some {| packageName := name pkg; packagePrice := price pkg;
              packageIcon := icon pkg; display := "block";
              opened := (opened m ++ [(packageType, price pkg)])%list |}
  | None => None
  end.

(** A [.payment-card]: whether it has the class [featured], and the
    lower-cased text of its [.payment-badge] ([None] without one). *)
Record Card := { featured : bool; badge : option string }.

(** The click listener of [setupPaymentButtons] on a button of [card]. *)
Definition click (card : Card) (m : Modal) : completion (option Modal) :=
  if featured card then Normal (openPaymentModal "premium" m)
  else match badge card with
       | Some text => Normal (openPaymentModal text m)
       | None => Throw (TypeError "cannot read properties of null (reading 'textContent')")
       end.

(** The dialog as [createPaymentModal] inserts it. *)
Definition createPaymentModal : Modal :=
  {| packageName := "Gói Cơ Bản"; packagePrice := "50,000";
     packageIcon := "fas fa-coins"; display := ""; opened := [] |}.

End PaymentSystem.

(** ** The guide's tabs ([class GameplayGuide]) *)

Module GameplayGuide.
Import DOM.

(** The buttons and panels captured by [setupTabs], the [data-tab]
    attribute of each node, the elements of the document by id, the class
    lists, and the tabs reported by [tab_switch] events. *)
Record World := {
  tabButtons : list nat;
  tabPanels : list nat;
  data_tab : nat → option string;
  by_id : gmap string nat;
  classes : nodes;
  switched : list (option string)
}.

Definition set_classes (v : nodes) (w : World) : World :=
  {| tabButtons := tabButtons w; tabPanels := tabPanels w; data_tab := data_tab w;
     by_id := by_id w; classes := v; switched := switched w |}.

Definition remove_class (c : string) (n : nat) (d : nodes) : nodes :=
  <[n := remove c (d !!! n)]> d.

Definition remove_all (c : string) (ns : list nat) (d : nodes) : nodes :=
  foldl (λ d n, remove_class c n d) d ns.

(** [getElementById] is handed the attribute as a string; a missing
    attribute ([null]) looks for the id "null". *)
Definition id_of (attribute : option string) : string := default "null" attribute.

(** The click listener of a tab button. *)
Definition click (button : nat) : M World unit :=
  let* w := get in
  let targetTab := data_tab w button in
  modify (λ w, set_classes (remove_all "active" (tabButtons w) (classes w)) w) ;;;
  modify (λ w, set_classes (remove_all "active" (tabPanels w) (classes w)) w) ;;;
  modify (λ w, set_classes (add_class "active" button (classes w)) w) ;;;
  match by_id w !! id_of targetTab with
  | None => throw (TypeError "cannot read properties of null (reading 'classList')")
  | Some element =>
      modify (λ w, set_classes (add_class "active" element (classes w)) w) ;;;
      modify (λ w, {| tabButtons := tabButtons w; tabPanels := tabPanels w;
                      data_tab := data_tab w; by_id := by_id w; classes := classes w;
                      switched := (switched w ++ [targetTab])%list |})
  end.

(** A guide with two tabs (buttons 0 and 1, panels 10 and 11) and a third
    button (2) whose panel is missing from the page. *)
Definition sample : World :=
  {| tabButtons := [0; 1; 2]%nat; tabPanels := [10; 11]%nat;
     data_tab := λ n, match n with
                      | 0%nat => Some "basics"
                      | 1%nat => Some "crops"
                      | 2%nat => Some "market"
                      | _ => None
                      end;
     by_id := {["basics" := 10%nat; "crops" := 11%nat]};
     classes := {[0%nat := {["tab-btn"; "active"]}; 10%nat := {["tab-panel"; "active"]}]};
     switched := [] |}.

End GameplayGuide.

(** ** Story section effects ([class StoryScrollEffects]) *)

Module StoryScrollEffects.
Import DOM.

(** The numbers written into a slide's [style.transform] and
    [style.opacity]. *)
Record Style := { translateY : Q; rotateX : Q; scale : Q; opacity : Q }.

(** [1 - x] *)
Definition one_minus (x : jsnum) : jsnum :=
  match x with
  | Fin q => Fin (1 - q)
  | PInf => NInf
  | NInf => PInf
  | NaN => NaN
  end.

(** [x < t] for a finite [t]. *)
Definition lt_fin (x : jsnum) (t : Q) : bool :=
  match x with
  | Fin q => negb (Qle_bool t q)
  | NInf => true
  | PInf | NaN => false
  end.

Definition scrollProgress (lay : Layout) (storySection : nat) : jsnum :=
  let r := rect lay storySection in
  let windowHeight := innerHeight lay in
  one_minus (div (top r) windowHeight).

(** The callback of [storySlides.forEach] for a finite [scrollProgress]:
    the style it writes, or [None] when it leaves the slide alone. *)
Definition slide_style (scrollProgress : Q) (index : nat) : option Style :=
  let slideProgress :=
    Qmax 0 (scrollProgress - inject_Z (Z.of_nat index) * (1 # 10)) in
  let transform := Qmin (slideProgress * 100) 100 in
  if Qgt_bool slideProgress 0 then
    Some {| translateY := Qmax 0 (50 - transform);
            rotateX := Qmax 0 (5 - slideProgress * 5);
            scale := Qmin 1 ((9 # 10) + slideProgress * (1 # 10));
            opacity := Qmin 1 (slideProgress * 2) |}
  else None.

(** [updateStoryEffects] on the styles of the story slides, in document
    order; a slide that is not written keeps the style it has. *)
Definition updateStoryEffects (lay : Layout) (storySection : nat)
    (storySlides : list (option Style)) : list (option Style) :=
  let scrollProgress := scrollProgress lay storySection in
  if gt_fin scrollProgress 0 && lt_fin scrollProgress (15 # 10) then
    match scrollProgress with
    | Fin progress =>
        imap (λ index old,
                match slide_style progress index with
                | Some style => Some style
                | None => old
                end)
             storySlides
    | _ => storySlides
    end
  else storySlides.

(** The ranges the written numbers stay in. *)
Definition in_range (s : Style) : Prop :=
  (0 <= translateY s)%Q ∧ (translateY s < 50)%Q ∧
  (0 <= rotateX s)%Q ∧ (rotateX s < 5)%Q ∧
  ((9 # 10) < scale s)%Q ∧ (scale s <= 1)%Q ∧
  (0 < opacity s)%Q ∧ (opacity s <= 1)%Q.

(** The style of a slide that has fully arrived. *)
Definition arrived (s : Style) : Prop :=
  (translateY s == 0)%Q ∧ (rotateX s == 0)%Q ∧ (scale s == 1)%Q ∧ (opacity s == 1)%Q.

End StoryScrollEffects.

(** ** The throttled pass ([updateScrollAnimations] and its listener) *)

Module ScrollThrottle.

(** The variable [ticking] of the closure, the animation frames that
    have been requested and have not run yet, and how many frames were
    requested and how many passes ran to their end. *)
Record World := {
  ticking : bool;
  waiting_frames : nat;
  requested : nat;
  completed : nat
}.

Definition initial : World :=
  {| ticking := false; waiting_frames := 0; requested := 0; completed := 0 |}.

(** The scroll listener. *)
Definition on_scroll (w : World) : World :=
  if ticking w then w
  else {| ticking := true; waiting_frames := S (waiting_frames w);
          requested := S (requested w); completed := completed w |}.

(** [updateScrollAnimations]: the calls into the first three systems
    return; [storyEffects.updateStoryEffects()] reads
    [this.storySection], which is [null] on a page without [#story];
    only then is [ticking] reset. *)
Definition updateScrollAnimations (has_story : bool) : M World unit :=
  (if has_story then ret tt
   else throw (TypeError "cannot read properties of null (reading 'getBoundingClientRect')")) ;;;
  modify (λ w, {| ticking := false; waiting_frames := waiting_frames w;
                  requested := requested w; completed := S (completed w) |}).

(** A requested frame runs its callback. *)
Definition on_frame (has_story : bool) (w : World) : World :=
  match waiting_frames w with
  | O => w
  | S n =>
      exec (updateScrollAnimations has_story)
           {| ticking := ticking w; waiting_frames := n;
              requested := requested w; completed := completed w |}
  end.

Inductive event := Scroll | Frame.

Definition step (has_story : bool) (w : World) (ev : event) : World :=
  match ev with
  | Scroll => on_scroll w
  | Frame => on_frame has_story w
  end.

Definition run (has_story : bool) (evs : list event) : World :=
  foldl (step has_story) initial evs.

End ScrollThrottle.

(** ** Start-up (the [DOMContentLoaded] listener) *)

Module Startup.

(** The page: whether it has [.hamburger], which [Navigation] needs, and
    what the story carousel finds. *)
Record Page := { has_hamburger : bool; story : StoryCarousel.Page }.

(** The properties of [window] the listener has assigned, and whether it
    has set the timeout for the hero carousel. *)
Record Window := {
  analytics : bool;
  navigation : bool;
  newsletter : bool;
  storyCarousel : bool;
  hero_timeout : bool;
  gameplayGuide : bool;
  paymentSystem : bool;
  animations : bool
}.

Definition nothing : Window :=
  {| analytics := false; navigation := false; newsletter := false;
     storyCarousel := false; hero_timeout := false; gameplayGuide := false;
     paymentSystem := false; animations := false |}.

(** The story carousel as its constructor leaves it before [init]. *)
Definition story_world (pg : StoryCarousel.Page) : StoryCarousel.World :=
  {| StoryCarousel.currentSlide := 0;
     StoryCarousel.totalSlides := Z.of_nat (StoryCarousel.slides pg);
     StoryCarousel.autoPlayInterval := None;
     StoryCarousel.isAutoPlaying := false;
     StoryCarousel.storySlides := StoryCarousel.page_storySlides pg;
     StoryCarousel.storyProgress := StoryCarousel.page_storyProgress pg;
     StoryCarousel.indicators := [];
     StoryCarousel.autoPlayToggle := StoryCarousel.page_autoPlayToggle pg;
     StoryCarousel.timers := Timers.empty;
     StoryCarousel.analytics := StoryCarousel.page_analytics pg |}.

(** [new StoryCarousel()] returns. *)
Definition story_constructs (pg : StoryCarousel.Page) : bool :=
  completes (StoryCarousel.init pg) (story_world pg).

(** [new Navigation()]: [setupMobileMenu] adds a listener to
    [this.hamburger]. *)
Definition new_Navigation (pg : Page) : M Window unit :=
  if has_hamburger pg then ret tt
  else throw (TypeError "cannot read properties of null (reading 'addEventListener')").

Definition new_StoryCarousel (pg : Page) : M Window unit :=
  if story_constructs (story pg) then ret tt
  else throw (TypeError "new StoryCarousel()").

(** The listener; the constructors of the other components do not
    depend on the page. *)
Definition on_DOMContentLoaded (pg : Page) : M Window unit :=
  modify (λ w, {| analytics := true; navigation := navigation w;
                  newsletter := newsletter w; storyCarousel := storyCarousel w;
                  hero_timeout := hero_timeout w; gameplayGuide := gameplayGuide w;
                  paymentSystem := paymentSystem w; animations := animations w |}) ;;;
  new_Navigation pg ;;;
  modify (λ w, {| analytics := analytics w; navigation := true;
                  newsletter := newsletter w; storyCarousel := storyCarousel w;
                  hero_timeout := hero_timeout w; gameplayGuide := gameplayGuide w;
                  paymentSystem := paymentSystem w; animations := animations w |}) ;;;
  modify (λ w, {| analytics := analytics w; navigation := navigation w;
                  newsletter := true; storyCarousel := storyCarousel w;
                  hero_timeout := hero_timeout w; gameplayGuide := gameplayGuide w;
                  paymentSystem := paymentSystem w; animations := animations w |}) ;;;
  new_StoryCarousel pg ;;;
  modify (λ w, {| analytics := analytics w; navigation := navigation w;
                  newsletter := newsletter w; storyCarousel := true;
                  hero_timeout := hero_timeout w; gameplayGuide := gameplayGuide w;
                  paymentSystem := paymentSystem w; animations := animations w |}) ;;;
  modify (λ w, {| analytics := analytics w; navigation := navigation w;
                  newsletter := newsletter w; storyCarousel := storyCarousel w;
                  hero_timeout := true; gameplayGuide := gameplayGuide w;
                  paymentSystem := paymentSystem w; animations := animations w |}) ;;;
  modify (λ w, {| analytics := analytics w; navigation := navigation w;
                  newsletter := newsletter w; storyCarousel := storyCarousel w;
                  hero_timeout := hero_timeout w; gameplayGuide := true;
                  paymentSystem := paymentSystem w; animations := animations w |}) ;;;
  modify (λ w, {| analytics := analytics w; navigation := navigation w;
                  newsletter := newsletter w; storyCarousel := storyCarousel w;
                  hero_timeout := hero_timeout w; gameplayGuide := gameplayGuide w;
                  paymentSystem := true; animations := animations w |}) ;;;
  modify (λ w, {| analytics := analytics w; navigation := navigation w;
                  newsletter := newsletter w; storyCarousel := storyCarousel w;
                  hero_timeout := hero_timeout w; gameplayGuide := gameplayGuide w;
                  paymentSystem := paymentSystem w; animations := true |}).

Definition started (pg : Page) : Window := exec (on_DOMContentLoaded pg) nothing.

End Startup.

(** * Properties *)

(** ** Cursor arithmetic *)

Section Cursor.
Import Calls.
Local Open Scope Z_scope.

Lemma story_updateSlide_frame w :
  let w' := exec StoryCarousel.updateSlide w in
  StoryCarousel.currentSlide w' = StoryCarousel.currentSlide w ∧
  StoryCarousel.totalSlides w' = StoryCarousel.totalSlides w ∧
  StoryCarousel.autoPlayInterval w' = StoryCarousel.autoPlayInterval w ∧
  StoryCarousel.isAutoPlaying w' = StoryCarousel.isAutoPlaying w ∧
  StoryCarousel.autoPlayToggle w' = StoryCarousel.autoPlayToggle w ∧
  StoryCarousel.timers w' = StoryCarousel.timers w.
Proof.
  unfold exec, StoryCarousel.updateSlide, StoryCarousel.trackEvent,
    bind, get, modify, throw.
  destruct w as [c n h f ss sp ind btn tm an]; cbn.
  destruct ss, sp, an; cbn; auto 10.
Qed.

Lemma story_nextSlide_unfold w :
  StoryCarousel.nextSlide w =
  StoryCarousel.updateSlide
    (StoryCarousel.set_currentSlide
       (Z.rem (StoryCarousel.currentSlide w + 1) (StoryCarousel.totalSlides w)) w).
Proof. reflexivity. Qed.

Lemma story_prevSlide_unfold w :
  StoryCarousel.prevSlide w =
  StoryCarousel.updateSlide
    (StoryCarousel.set_currentSlide
       (Z.rem (StoryCarousel.currentSlide w - 1 + StoryCarousel.totalSlides w)
              (StoryCarousel.totalSlides w)) w).
Proof. reflexivity. Qed.

Lemma story_nav_cursor c w :
  let w' := exec (story_nav c) w in
  StoryCarousel.totalSlides w' = StoryCarousel.totalSlides w ∧
  StoryCarousel.currentSlide w' =
    match c with
    | Next => Z.rem (StoryCarousel.currentSlide w + 1) (StoryCarousel.totalSlides w)
    | Previous =>
        Z.rem (StoryCarousel.currentSlide w - 1 + StoryCarousel.totalSlides w)
              (StoryCarousel.totalSlides w)
    end.
Proof.
  destruct c; unfold exec, story_nav;
    [rewrite story_nextSlide_unfold | rewrite story_prevSlide_unfold];
    match goal with
    | |- context [StoryCarousel.updateSlide ?x] =>
        destruct (story_updateSlide_frame x) as (Hc & Hn & _)
    end;
    unfold exec in Hc, Hn; rewrite Hc, Hn; split; reflexivity.
Qed.

Lemma hero_updateCarousel_frame w :
  let w' := exec AdvancedHeroCarousel.updateCarousel w in
  AdvancedHeroCarousel.currentIndex w' = AdvancedHeroCarousel.currentIndex w ∧
  AdvancedHeroCarousel.totalItems w' = AdvancedHeroCarousel.totalItems w ∧
  AdvancedHeroCarousel.autoPlayInterval w' = AdvancedHeroCarousel.autoPlayInterval w ∧
  AdvancedHeroCarousel.isAutoPlaying w' = AdvancedHeroCarousel.isAutoPlaying w ∧
  AdvancedHeroCarousel.timers w' = AdvancedHeroCarousel.timers w.
Proof.
  unfold exec, AdvancedHeroCarousel.updateCarousel, bind, get, modify, ret.
  destruct w as [c n h f its ds pb tm]; cbn.
  destruct pb; cbn; auto 10.
Qed.

Lemma hero_updateCarousel_completes w :
  ∃ w', AdvancedHeroCarousel.updateCarousel w = (Normal tt, w').
Proof.
  unfold AdvancedHeroCarousel.updateCarousel, bind, get, modify, ret.
  destruct w as [c n h f its ds pb tm]; cbn.
  destruct pb; cbn; eauto.
Qed.

Lemma hero_nextSlide_unfold w :
  AdvancedHeroCarousel.nextSlide w =
  AdvancedHeroCarousel.updateCarousel
    (AdvancedHeroCarousel.set_currentIndex
       (Z.rem (AdvancedHeroCarousel.currentIndex w + 1)
              (AdvancedHeroCarousel.totalItems w)) w).
Proof. reflexivity. Qed.

Lemma hero_prevSlide_unfold w :
  AdvancedHeroCarousel.prevSlide w =
  AdvancedHeroCarousel.updateCarousel
    (AdvancedHeroCarousel.set_currentIndex
       (Z.rem (AdvancedHeroCarousel.currentIndex w - 1 + AdvancedHeroCarousel.totalItems w)
              (AdvancedHeroCarousel.totalItems w)) w).
Proof. reflexivity. Qed.

Lemma hero_nav_cursor c w :
  let w' := exec (hero_nav c) w in
  AdvancedHeroCarousel.totalItems w' = AdvancedHeroCarousel.totalItems w ∧
  AdvancedHeroCarousel.currentIndex w' =
    match c with
    | Next => Z.rem (AdvancedHeroCarousel.currentIndex w + 1)
                    (AdvancedHeroCarousel.totalItems w)
    | Previous =>
        Z.rem (AdvancedHeroCarousel.currentIndex w - 1 + AdvancedHeroCarousel.totalItems w)
              (AdvancedHeroCarousel.totalItems w)
    end.
Proof.
  destruct c; unfold exec, hero_nav;
    [rewrite hero_nextSlide_unfold | rewrite hero_prevSlide_unfold];
    match goal with
    | |- context [AdvancedHeroCarousel.updateCarousel ?x] =>
        destruct (hero_updateCarousel_frame x) as (Hc & Hn & _)
    end;
    unfold exec in Hc, Hn; rewrite Hc, Hn; split; reflexivity.
Qed.

Lemma cursor_step_mod N c cur :
  1 ≤ N → 0 ≤ cur < N →
  cursor_step N c cur = (cur + next_count [c] - previous_count [c]) mod N ∧
  0 ≤ cursor_step N c cur < N.
Proof.
  intros HN Hc. destruct c; cbn [cursor_step next_count previous_count].
  - rewrite Z.rem_mod_nonneg by lia. split.
    + f_equal. lia.
    + apply Z.mod_pos_bound. lia.
  - rewrite Z.rem_mod_nonneg by lia. split.
    + replace (cur + 0 - (1 + 0)) with (cur - 1) by lia.
      rewrite <- (Z_mod_plus_full (cur - 1) 1 N). f_equal. lia.
    + apply Z.mod_pos_bound. lia.
Qed.

Section Generic.
Context {W : Type} (handler : nav → M W unit) (cursor total : W → Z).
Hypothesis handler_spec : ∀ c w,
  total (exec (handler c) w) = total w ∧
  cursor (exec (handler c) w) = cursor_step (total w) c (cursor w).

Lemma run_cursor cs : ∀ w,
  1 ≤ total w → 0 ≤ cursor w < total w →
  total (run handler w cs) = total w ∧
  cursor (run handler w cs) =
    (cursor w + next_count cs - previous_count cs) mod total w ∧
  Forall (λ w', 0 ≤ cursor w' < total w) (trace handler w cs).
Proof.
  induction cs as [|c cs IH]; intros w HN Hc.
  - cbn. repeat split; try lia; [|constructor].
    rewrite Z.mod_small; lia.
  - destruct (handler_spec c w) as [Ht Hs].
    destruct (cursor_step_mod (total w) c (cursor w) HN Hc) as [Hm Hb].
    rewrite <- Hs in Hm, Hb.
    destruct (IH (exec (handler c) w)) as (IHt & IHc & IHf);
      [rewrite Ht; lia | rewrite Ht; lia |].
    cbn [run foldl trace]. fold (run handler (exec (handler c) w) cs).
    rewrite Ht in IHt, IHc, IHf. repeat split.
    + exact IHt.
    + rewrite IHc, Hm.
      rewrite <- Z.add_sub_assoc, Zplus_mod_idemp_l.
      f_equal. destruct c; cbn [next_count previous_count]; lia.
    + constructor; [exact Hb | exact IHf].
Qed.
End Generic.

(** C1.  On either carousel with [N >= 1] slides and the cursor at [c0] in
    [[0, N)], any finite sequence of [nextSlide] and [prevSlide] calls
    leaves the cursor at [(c0 + nexts - previouses) mod N], and the cursor
    is in [[0, N)] after every call of the sequence. *)
Theorem cursor_after_next_previous_calls
    (N c0 : Z) (cs : list nav)
    (story : StoryCarousel.World) (hero : AdvancedHeroCarousel.World) :
  1 ≤ N → 0 ≤ c0 < N →
  StoryCarousel.totalSlides story = N → StoryCarousel.currentSlide story = c0 →
  AdvancedHeroCarousel.totalItems hero = N →
  AdvancedHeroCarousel.currentIndex hero = c0 →
  (StoryCarousel.currentSlide (run story_nav story cs) =
     (c0 + next_count cs - previous_count cs) mod N ∧
   Forall (λ w, 0 ≤ StoryCarousel.currentSlide w < N) (trace story_nav story cs)) ∧
  (AdvancedHeroCarousel.currentIndex (run hero_nav hero cs) =
     (c0 + next_count cs - previous_count cs) mod N ∧
   Forall (λ w, 0 ≤ AdvancedHeroCarousel.currentIndex w < N) (trace hero_nav hero cs)).
Proof.
  intros HN Hc HsN Hsc HhN Hhc. subst N. split.
  - destruct (run_cursor story_nav StoryCarousel.currentSlide
                StoryCarousel.totalSlides story_nav_cursor cs story)
      as (_ & Hfin & Hall); [lia | lia |].
    rewrite Hsc in Hfin. split; assumption.
  - destruct (run_cursor hero_nav AdvancedHeroCarousel.currentIndex
                AdvancedHeroCarousel.totalItems hero_nav_cursor cs hero)
      as (_ & Hfin & Hall); [lia | lia |].
    rewrite Hhc, HhN in Hfin. rewrite HhN in Hall. split; assumption.
Qed.

End Cursor.

Section CursorScenario.
Import Calls Examples.
Local Open Scope Z_scope.

(** The scenario of the specification: five slides, from slide 0, three
    [next] then five [previous] calls end on slide 3. *)
Lemma cursor_five_slide_scenario :
  StoryCarousel.currentSlide (run story_nav story5 three_next_five_previous) = 3 ∧
  AdvancedHeroCarousel.currentIndex (run hero_nav hero5 three_next_five_previous) = 3.
Proof.
  destruct (cursor_after_next_previous_calls 5 0 three_next_five_previous
              story5 hero5) as [[Hs _] [Hh _]];
    [lia | lia | reflexivity | reflexivity | reflexivity | reflexivity |].
  split; [rewrite Hs | rewrite Hh]; reflexivity.
Defined.

(** The wrap-around scenario: three slides, cursor at 2, [next] gives 0. *)
Example story_wraps_at_the_end w :
  StoryCarousel.totalSlides w = 3 → StoryCarousel.currentSlide w = 2 →
  StoryCarousel.currentSlide (exec StoryCarousel.nextSlide w) = 0.
Proof.
  intros HN Hc. destruct (story_nav_cursor Next w) as [_ H].
  cbn [story_nav] in H. rewrite H, HN, Hc. reflexivity.
Qed.

End CursorScenario.

(** ** [goToSlide] *)

Section GoTo.
Import Examples.
Local Open Scope Z_scope.

(** The hero carousel ignores an index outside [[0, N)]: nothing is
    thrown and the world, cursor included, is what it was. *)
Lemma hero_goToSlide_out_of_range index w :
  index < 0 ∨ AdvancedHeroCarousel.totalItems w ≤ index →
  AdvancedHeroCarousel.goToSlide index w = (Normal tt, w).
Proof.
  intros H. unfold AdvancedHeroCarousel.goToSlide, bind, get.
  destruct (index >=? 0) eqn:E1, (index <? AdvancedHeroCarousel.totalItems w) eqn:E2;
    cbn; try reflexivity; lia.
Qed.

Lemma hero_goToSlide_in_range index w :
  0 ≤ index < AdvancedHeroCarousel.totalItems w →
  AdvancedHeroCarousel.currentIndex (exec (AdvancedHeroCarousel.goToSlide index) w) = index.
Proof.
  intros H. unfold exec, AdvancedHeroCarousel.goToSlide, bind, get, modify.
  destruct (index >=? 0) eqn:E1, (index <? AdvancedHeroCarousel.totalItems w) eqn:E2;
    try lia. cbn [andb].
  match goal with
  | |- context [AdvancedHeroCarousel.updateCarousel ?x] =>
      destruct (hero_updateCarousel_frame x) as (Hc & _)
  end.
  unfold exec in Hc. rewrite Hc. reflexivity.
Qed.

(** The story carousel has no such test: whatever the index, it becomes
    the cursor. *)
Lemma story_goToSlide_sets_cursor index w :
  StoryCarousel.currentSlide (exec (StoryCarousel.goToSlide index) w) = index.
Proof.
  unfold exec, StoryCarousel.goToSlide, bind, modify.
  destruct (story_updateSlide_frame (StoryCarousel.set_currentSlide index w))
    as (Hc & _).
  unfold exec in Hc.
  destruct (StoryCarousel.updateSlide (StoryCarousel.set_currentSlide index w))
    as [[[]|e] w']; cbn in *; [|exact Hc].
  unfold StoryCarousel.trackEvent, modify; cbn.
  destruct (StoryCarousel.analytics w'); cbn; exact Hc.
Qed.

(** C2.  On the five-slide story carousel with the cursor at 0,
    [goToSlide(7)] returns normally and moves the cursor to 7, outside
    [[0, 5)]; the same call on the five-item hero carousel changes
    nothing. *)
Theorem story_goToSlide_accepts_out_of_range_index :
  StoryCarousel.totalSlides story5 = 5 ∧
  StoryCarousel.currentSlide story5 = 0 ∧
  completes (StoryCarousel.goToSlide 7) story5 = true ∧
  StoryCarousel.currentSlide (exec (StoryCarousel.goToSlide 7) story5) = 7 ∧
  StoryCarousel.storySlides (exec (StoryCarousel.goToSlide 7) story5) =
    Some (StoryCarousel.TranslateXNegPct 700) ∧
  AdvancedHeroCarousel.goToSlide 7 hero5 = (Normal tt, hero5).
Proof. repeat split; vm_compute; reflexivity. Qed.

End GoTo.

(** ** The render step and missing elements *)

Section Render.
Import Examples.
Local Open Scope Z_scope.

(** The hero render tests [this.progressBar] before writing to it, and an
    empty dot list is simply not iterated: it always returns. *)
Lemma hero_updateCarousel_never_throws w :
  completes AdvancedHeroCarousel.updateCarousel w = true.
Proof.
  unfold completes. destruct (hero_updateCarousel_completes w) as [w' ->].
  reflexivity.
Qed.

(** The story render dereferences [#storyProgress] without a test. *)
Lemma story_updateSlide_needs_progress w :
  StoryCarousel.storyProgress w = None →
  completes StoryCarousel.updateSlide w = false ∧
  StoryCarousel.indicators (exec StoryCarousel.updateSlide w) =
    StoryCarousel.indicators w.
Proof.
  intros H. unfold completes, exec, StoryCarousel.updateSlide, bind, get, modify, throw.
  destruct w as [c n h f ss sp ind btn tm an]; cbn in *. subst sp.
  destruct ss; cbn; auto.
Qed.

(** C4.  On a story page without [#storyProgress], [updateSlide] throws a
    [TypeError]; a [nextSlide] there moves the cursor but leaves the
    indicator marks on the old slide.  The hero render on a page without
    [#progressBar] returns normally. *)
Theorem story_updateSlide_throws_without_progress_bar :
  StoryCarousel.storyProgress story5_without_progress = None ∧
  fst (StoryCarousel.updateSlide story5_without_progress) =
    Throw (TypeError "progressBar is null") ∧
  StoryCarousel.currentSlide (exec StoryCarousel.nextSlide story5_without_progress) = 1 ∧
  StoryCarousel.indicators (exec StoryCarousel.nextSlide story5_without_progress) =
    StoryCarousel.indicators story5_without_progress ∧
  completes AdvancedHeroCarousel.updateCarousel (hero_page 5 false) = true.
Proof. repeat split; vm_compute; reflexivity. Qed.

End Render.

(** ** Swipe gestures *)

Section Swipe.
Import Calls Examples.

Lemma Qgt_bool_true a b : (b < a)%Q → Qgt_bool a b = true.
Proof.
  intros H. unfold Qgt_bool. apply negb_true_iff.
  destruct (Qle_bool a b) eqn:E; [|reflexivity].
  apply Qle_bool_iff in E. exfalso. exact (Qlt_not_le _ _ H E).
Qed.

Lemma Qgt_bool_false a b : (a <= b)%Q → Qgt_bool a b = false.
Proof.
  intros H. unfold Qgt_bool. apply negb_false_iff. apply Qle_bool_iff. exact H.
Qed.

Lemma diff_positive (startX endX : Q) :
  (endX < startX)%Q → (inject_Z 0 < startX - endX)%Q.
Proof. intros H. apply Qlt_minus_iff in H. exact H. Qed.

Lemma diff_not_positive (startX endX : Q) :
  (startX < endX)%Q → (startX - endX <= inject_Z 0)%Q.
Proof.
  intros H. apply Qlt_le_weak.
  apply (Qplus_lt_l _ _ endX). ring_simplify. exact H.
Qed.

(** Resetting auto-play does not navigate. *)
Lemma hero_resetAutoPlay_keeps_cursor w :
  AdvancedHeroCarousel.currentIndex (exec AdvancedHeroCarousel.resetAutoPlay w) =
    AdvancedHeroCarousel.currentIndex w ∧
  AdvancedHeroCarousel.items (exec AdvancedHeroCarousel.resetAutoPlay w) =
    AdvancedHeroCarousel.items w.
Proof.
  unfold exec, AdvancedHeroCarousel.resetAutoPlay, AdvancedHeroCarousel.pauseAutoPlay,
    AdvancedHeroCarousel.resumeAutoPlay, AdvancedHeroCarousel.startAutoPlay,
    bind, get, modify, ret.
  destruct w as [c n h f its ds pb tm]; cbn.
  destruct h as [[|id]|], f; cbn; auto.
Qed.

(** One step of the cursor, in [[0, N)], as a residue. *)
Lemma cursor_step_residue N c cur :
  (0 ≤ cur < N)%Z →
  cursor_step N c cur =
    match c with Next => ((cur + 1) mod N)%Z | Previous => ((cur - 1) mod N)%Z end.
Proof.
  intros Hc. destruct c; cbn [cursor_step]; rewrite Z.rem_mod_nonneg by lia.
  - reflexivity.
  - rewrite <- (Z_mod_plus_full (cur - 1) 1 N). f_equal. lia.
Qed.

Lemma story_nav_residue c w :
  StoryCarousel.currentSlide (exec (story_nav c) w) =
    cursor_step (StoryCarousel.totalSlides w) c (StoryCarousel.currentSlide w).
Proof.
  destruct (story_nav_cursor c w) as [_ H].
  rewrite H. destruct c; reflexivity.
Qed.

(** The hero swipe: the navigation call always returns, and the reset
    that follows keeps the cursor. *)
Lemma hero_nav_then_reset c w :
  AdvancedHeroCarousel.currentIndex
    (exec (hero_nav c ;;; AdvancedHeroCarousel.resetAutoPlay) w) =
    cursor_step (AdvancedHeroCarousel.totalItems w) c (AdvancedHeroCarousel.currentIndex w).
Proof.
  destruct (hero_nav_cursor c w) as [_ Hcur].
  assert (∃ w', hero_nav c w = (Normal tt, w')) as [w' Hw'].
  { destruct c; cbn [hero_nav];
      [rewrite hero_nextSlide_unfold | rewrite hero_prevSlide_unfold];
      apply hero_updateCarousel_completes. }
  unfold exec in *. unfold bind. rewrite Hw' in *. cbn [snd] in *.
  destruct (hero_resetAutoPlay_keeps_cursor w') as [Hk _]. unfold exec in Hk.
  rewrite Hk, Hcur. destruct c; reflexivity.
Qed.

(** C8.  A swipe whose horizontal difference exceeds 50 does what one
    [nextSlide()] does when it goes left ([startX > endX]) and what one
    [prevSlide()] does when it goes right (the hero carousel then resets
    its auto-play): with the cursor at [c] in [[0, N)] it leaves the
    cursor at [(c + 1) mod N], respectively [(c - 1) mod N], one step
    away.  A difference of 50 or less does nothing at all: the world,
    cursor included, is what it was. *)
Theorem swipe_navigates_once_beyond_threshold
    (startX endX : Q)
    (story : StoryCarousel.World) (hero : AdvancedHeroCarousel.World) :
  ((inject_Z 50 < Qabs (startX - endX))%Q → (endX < startX)%Q →
     (StoryCarousel.handleSwipe startX endX story = StoryCarousel.nextSlide story ∧
      AdvancedHeroCarousel.handleSwipe startX endX hero =
        (AdvancedHeroCarousel.nextSlide ;;; AdvancedHeroCarousel.resetAutoPlay) hero) ∧
     ((0 ≤ StoryCarousel.currentSlide story < StoryCarousel.totalSlides story)%Z →
      StoryCarousel.currentSlide (exec (StoryCarousel.handleSwipe startX endX) story) =
        ((StoryCarousel.currentSlide story + 1) mod StoryCarousel.totalSlides story)%Z) ∧
     ((0 ≤ AdvancedHeroCarousel.currentIndex hero < AdvancedHeroCarousel.totalItems hero)%Z →
      AdvancedHeroCarousel.currentIndex
        (exec (AdvancedHeroCarousel.handleSwipe startX endX) hero) =
        ((AdvancedHeroCarousel.currentIndex hero + 1)
           mod AdvancedHeroCarousel.totalItems hero)%Z)) ∧
  ((inject_Z 50 < Qabs (startX - endX))%Q → (startX < endX)%Q →
     (StoryCarousel.handleSwipe startX endX story = StoryCarousel.prevSlide story ∧
      AdvancedHeroCarousel.handleSwipe startX endX hero =
        (AdvancedHeroCarousel.prevSlide ;;; AdvancedHeroCarousel.resetAutoPlay) hero) ∧
     ((0 ≤ StoryCarousel.currentSlide story < StoryCarousel.totalSlides story)%Z →
      StoryCarousel.currentSlide (exec (StoryCarousel.handleSwipe startX endX) story) =
        ((StoryCarousel.currentSlide story - 1) mod StoryCarousel.totalSlides story)%Z) ∧
     ((0 ≤ AdvancedHeroCarousel.currentIndex hero < AdvancedHeroCarousel.totalItems hero)%Z →
      AdvancedHeroCarousel.currentIndex
        (exec (AdvancedHeroCarousel.handleSwipe startX endX) hero) =
        ((AdvancedHeroCarousel.currentIndex hero - 1)
           mod AdvancedHeroCarousel.totalItems hero)%Z)) ∧
  ((Qabs (startX - endX) <= inject_Z 50)%Q →
     StoryCarousel.handleSwipe startX endX story = (Normal tt, story) ∧
     AdvancedHeroCarousel.handleSwipe startX endX hero = (Normal tt, hero)).
Proof.
  assert (∀ c : nav,
            (inject_Z 50 < Qabs (startX - endX))%Q →
            Qgt_bool (startX - endX) (inject_Z 0) =
              match c with Next => true | Previous => false end →
            StoryCarousel.handleSwipe startX endX story = story_nav c story ∧
            AdvancedHeroCarousel.handleSwipe startX endX hero =
              (hero_nav c ;;; AdvancedHeroCarousel.resetAutoPlay) hero) as Hcall.
  { intros c Hfar Hdir.
    unfold StoryCarousel.handleSwipe, AdvancedHeroCarousel.handleSwipe.
    rewrite Qgt_bool_true by exact Hfar. rewrite Hdir.
    destruct c; split; reflexivity. }
  assert (∀ c : nav,
            StoryCarousel.handleSwipe startX endX story = story_nav c story →
            AdvancedHeroCarousel.handleSwipe startX endX hero =
              (hero_nav c ;;; AdvancedHeroCarousel.resetAutoPlay) hero →
            StoryCarousel.currentSlide
              (exec (StoryCarousel.handleSwipe startX endX) story) =
              cursor_step (StoryCarousel.totalSlides story) c
                (StoryCarousel.currentSlide story) ∧
            AdvancedHeroCarousel.currentIndex
              (exec (AdvancedHeroCarousel.handleSwipe startX endX) hero) =
              cursor_step (AdvancedHeroCarousel.totalItems hero) c
                (AdvancedHeroCarousel.currentIndex hero)) as Hmove.
  { intros c Hs Hh. split.
    - unfold exec at 1. rewrite Hs. apply story_nav_residue.
    - unfold exec at 1. rewrite Hh. apply hero_nav_then_reset. }
  split; [|split].
  - intros Hfar Hleft.
    destruct (Hcall Next Hfar) as [Hs Hh];
      [apply Qgt_bool_true, diff_positive, Hleft|].
    destruct (Hmove Next Hs Hh) as [Hsc Hhc].
    split; [split; assumption|]. split; intros Hin.
    + rewrite Hsc. apply (cursor_step_residue _ Next), Hin.
    + rewrite Hhc. apply (cursor_step_residue _ Next), Hin.
  - intros Hfar Hright.
    destruct (Hcall Previous Hfar) as [Hs Hh];
      [apply Qgt_bool_false, diff_not_positive, Hright|].
    destruct (Hmove Previous Hs Hh) as [Hsc Hhc].
    split; [split; assumption|]. split; intros Hin.
    + rewrite Hsc. apply (cursor_step_residue _ Previous), Hin.
    + rewrite Hhc. apply (cursor_step_residue _ Previous), Hin.
  - intros Hnear.
    unfold StoryCarousel.handleSwipe, AdvancedHeroCarousel.handleSwipe.
    rewrite Qgt_bool_false by exact Hnear. split; reflexivity.
Qed.

(** From 100 to 49, a difference of 51 to the left, on five slides from
    slide 0: both carousels are on slide 1 afterwards. *)
Lemma swipe_left_by_51_is_one_next :
  StoryCarousel.handleSwipe (inject_Z 100) (inject_Z 49) story5 =
    StoryCarousel.nextSlide story5 ∧
  AdvancedHeroCarousel.handleSwipe (inject_Z 100) (inject_Z 49) hero5 =
    (AdvancedHeroCarousel.nextSlide ;;; AdvancedHeroCarousel.resetAutoPlay) hero5 ∧
  StoryCarousel.currentSlide
    (exec (StoryCarousel.handleSwipe (inject_Z 100) (inject_Z 49)) story5) = 1%Z ∧
  AdvancedHeroCarousel.currentIndex
    (exec (AdvancedHeroCarousel.handleSwipe (inject_Z 100) (inject_Z 49)) hero5) = 1%Z.
Proof.
  destruct (swipe_navigates_once_beyond_threshold
              (inject_Z 100) (inject_Z 49) story5 hero5) as (Hleft & _ & _).
  destruct Hleft as ([Hs Hh] & Hsc & Hhc); [reflexivity | reflexivity |].
  split; [exact Hs|]. split; [exact Hh|]. split.
  - rewrite Hsc; [reflexivity|]. vm_compute. split; [discriminate | reflexivity].
  - rewrite Hhc; [reflexivity|]. vm_compute. split; [discriminate | reflexivity].
Defined.

(** The two figures of the specification, on five slides from slide 0:
    49 pixels leave the cursor where it is, 51 pixels to the left move it
    to slide 1 and record exactly one more slide view. *)
Example swipe_49_and_51 :
  StoryCarousel.handleSwipe (inject_Z 100) (inject_Z 51) story5 = (Normal tt, story5) ∧
  AdvancedHeroCarousel.handleSwipe (inject_Z 100) (inject_Z 51) hero5 =
    (Normal tt, hero5) ∧
  StoryCarousel.currentSlide
    (exec (StoryCarousel.handleSwipe (inject_Z 100) (inject_Z 49)) story5) = 1%Z ∧
  AdvancedHeroCarousel.currentIndex
    (exec (AdvancedHeroCarousel.handleSwipe (inject_Z 100) (inject_Z 49)) hero5) = 1%Z ∧
  (length <$> StoryCarousel.analytics
     (exec (StoryCarousel.handleSwipe (inject_Z 100) (inject_Z 49)) story5)) =
    (S ∘ length <$> StoryCarousel.analytics story5).
Proof. repeat split; vm_compute; reflexivity. Qed.

End Swipe.

(** ** Auto-play timers *)

Section Frames.
Context {W : Type} (R : W → W → Prop) `{!Reflexive R} `{!Transitive R}.

Lemma frame_ret {A} (a : A) : frame R (ret a).
Proof. intros w. apply reflexivity. Qed.

Lemma frame_throw {A} e : frame R (@throw W A e).
Proof. intros w. apply reflexivity. Qed.

Lemma frame_get : frame R (@get W).
Proof. intros w. apply reflexivity. Qed.

Lemma frame_modify (f : W → W) : (∀ w, R w (f w)) → frame R (modify f).
Proof. intros H w. apply H. Qed.

Lemma frame_bind {A B} (m : M W A) (k : A → M W B) :
  frame R m → (∀ a, frame R (k a)) → frame R (bind m k).
Proof.
  intros Hm Hk w. unfold exec, bind. specialize (Hm w). unfold exec in Hm.
  destruct (m w) as [[a|e] w']; cbn in *; [|exact Hm].
  etransitivity; [exact Hm | apply Hk].
Qed.
End Frames.

Lemma exec_bind_get {W B} (k : W → M W B) w : exec (bind get k) w = exec (k w) w.
Proof. reflexivity. Qed.

Lemma exec_bind_cases {W A B} (m : M W A) (k : A → M W B) w :
  (∃ a, m w = (Normal a, exec m w) ∧ exec (bind m k) w = exec (k a) (exec m w)) ∨
  (∃ e, m w = (Throw e, exec m w) ∧ exec (bind m k) w = exec m w).
Proof.
  unfold exec, bind. destruct (m w) as [[a|e] w']; cbn; eauto.
Qed.

Ltac fr_bind := apply frame_bind; [typeclasses eauto | | ].
Ltac fr_get := apply frame_get; typeclasses eauto.
Ltac fr_ret := apply frame_ret; typeclasses eauto.
Ltac fr_throw := apply frame_throw; typeclasses eauto.
Ltac fr_modify := apply frame_modify; intros ?; repeat split.

Section AutoPlayTimers.
Import Calls AutoPlay Examples.

#[local] Instance story_same_autoplay_refl : Reflexive story_same_autoplay.
Proof. intros w. repeat split. Qed.

#[local] Instance story_same_autoplay_trans : Transitive story_same_autoplay.
Proof.
  intros a b c (H1 & H2 & H3 & H4) (G1 & G2 & G3 & G4).
  repeat split; congruence.
Qed.

#[local] Instance hero_same_autoplay_refl : Reflexive hero_same_autoplay.
Proof. intros w. repeat split. Qed.

#[local] Instance hero_same_autoplay_trans : Transitive hero_same_autoplay.
Proof.
  intros a b c (H1 & H2 & H3) (G1 & G2 & G3). repeat split; congruence.
Qed.

Lemma story_inv_same w w' : story_same_autoplay w w' → story_inv w → story_inv w'.
Proof.
  intros (H1 & H2 & H3 & H4). unfold story_inv, story_live, story_button_usable.
  rewrite H1, H2, H3, H4. auto.
Qed.

Lemma hero_inv_same w w' : hero_same_autoplay w w' → hero_inv w → hero_inv w'.
Proof.
  intros (H1 & H2 & H3). unfold hero_inv, hero_live.
  rewrite H1, H2, H3. auto.
Qed.

Lemma story_updateSlide_same : frame story_same_autoplay StoryCarousel.updateSlide.
Proof.
  intros w. destruct (story_updateSlide_frame w) as (_ & _ & H1 & H2 & H3 & H4).
  repeat split; assumption.
Qed.

Lemma story_trackEvent_same n c ps :
  frame story_same_autoplay (StoryCarousel.trackEvent n c ps).
Proof.
  intros w. unfold exec, StoryCarousel.trackEvent, modify; cbn.
  destruct (StoryCarousel.analytics w); repeat split.
Qed.

Lemma story_nav_same c : frame story_same_autoplay (story_nav c).
Proof.
  destruct c; cbn [story_nav];
    unfold StoryCarousel.nextSlide, StoryCarousel.prevSlide;
    (fr_bind; [fr_get | intros w0]);
    (fr_bind; [fr_modify | intros; apply story_updateSlide_same]).
Qed.

Lemma story_goToSlide_same index :
  frame story_same_autoplay (StoryCarousel.goToSlide index).
Proof.
  unfold StoryCarousel.goToSlide.
  fr_bind; [fr_modify | intros _].
  fr_bind; [apply story_updateSlide_same | intros _].
  apply story_trackEvent_same.
Qed.

Lemma story_handleSwipe_same startX endX :
  frame story_same_autoplay (StoryCarousel.handleSwipe startX endX).
Proof.
  unfold StoryCarousel.handleSwipe.
  destruct (Qgt_bool _ _); [|fr_ret].
  destruct (Qgt_bool _ _); [apply (story_nav_same Next) | apply (story_nav_same Previous)].
Qed.

Lemma handle_set_size h : (size (handle_set h) ≤ 1)%nat.
Proof.
  destruct h as [[|n]|]; cbn; rewrite ?size_empty, ?size_singleton; lia.
Qed.

Lemma at_most_one (live : gset nat) h : live ⊆ handle_set h → (size live ≤ 1)%nat.
Proof.
  intros H. etransitivity; [apply subseteq_size, H | apply handle_set_size].
Qed.

(** *** Story carousel *)

Lemma story_startAutoPlay_inv w :
  story_inv w → (story_button_usable w = true → story_live w = ∅) →
  story_inv (exec StoryCarousel.startAutoPlay w).
Proof.
  unfold story_inv, story_live, story_button_usable, exec,
    StoryCarousel.startAutoPlay, StoryCarousel.updateAutoPlayButton,
    StoryCarousel.set_button, bind, get, modify, throw.
  destruct w as [c n h f ss sp ind btn tm an]; cbn.
  destruct tm as [next live]; cbn.
  intros (Hn & Hsub & Hidle) Hempty.
  destruct btn as [[cl [ic|] html]|]; cbn in *.
  - rewrite Hempty by reflexivity.
    destruct next; [lia|]. cbn. repeat split; [lia | set_solver | congruence].
  - repeat split; [lia | assumption | intros H; discriminate H].
  - repeat split; [lia | assumption | intros H; discriminate H].
Qed.

Lemma story_stopAutoPlay_inv w :
  story_inv w → story_inv (exec StoryCarousel.stopAutoPlay w).
Proof.
  unfold story_inv, story_live, story_button_usable, exec,
    StoryCarousel.stopAutoPlay, StoryCarousel.updateAutoPlayButton,
    StoryCarousel.set_button, bind, get, modify, throw, ret.
  destruct w as [c n h f ss sp ind btn tm an]; cbn.
  destruct tm as [next live]; cbn.
  intros (Hn & Hsub & Hidle).
  destruct btn as [[cl [ic|] html]|]; cbn in *.
  - destruct h as [[|id]|]; cbn in *; repeat split; try lia; set_solver.
  - repeat split; [lia | assumption | intros H; discriminate H].
  - repeat split; [lia | assumption | intros H; discriminate H].
Qed.
Lemma story_inv_idle w :
  story_inv w → StoryCarousel.isAutoPlaying w = false →
  story_button_usable w = true → story_live w = ∅.
Proof. intros (_ & _ & H) Hf Hu. auto. Qed.

Lemma story_toggleAutoPlay_inv w :
  story_inv w → story_inv (exec StoryCarousel.toggleAutoPlay w).
Proof.
  intros Hinv. unfold StoryCarousel.toggleAutoPlay. rewrite exec_bind_get.
  assert (story_inv (exec (if StoryCarousel.isAutoPlaying w
                           then StoryCarousel.stopAutoPlay
                           else StoryCarousel.startAutoPlay) w)) as Hstep.
  { destruct (StoryCarousel.isAutoPlaying w) eqn:Hf.
    - apply story_stopAutoPlay_inv, Hinv.
    - apply story_startAutoPlay_inv; [exact Hinv|].
      intros Hu. apply story_inv_idle; assumption. }
  match goal with
  | |- context [exec (bind ?m ?k) w] =>
      destruct (exec_bind_cases m k w) as [(a & _ & ->) | (e & _ & ->)]
  end; [|exact Hstep].
  rewrite exec_bind_get.
  eapply story_inv_same; [apply story_trackEvent_same | exact Hstep].
Qed.

Lemma story_restartAfterIdle_inv w :
  story_inv w → story_inv (exec StoryCarousel.restartAfterIdle w).
Proof.
  intros Hinv. unfold exec, StoryCarousel.restartAfterIdle, bind, get, when.
  cbn [fst snd].
  destruct (StoryCarousel.isAutoPlaying w) eqn:Hf; cbn [negb]; [exact Hinv|].
  apply story_startAutoPlay_inv; [exact Hinv|].
  intros Hu. apply story_inv_idle; assumption.
Qed.

Lemma story_handler_inv c w :
  story_inv w → (c = SStart → story_live w = ∅) →
  story_inv (exec (story_handler c) w).
Proof.
  intros Hinv Hguard. destruct c; cbn [story_handler].
  - apply story_startAutoPlay_inv; auto.
  - apply story_stopAutoPlay_inv, Hinv.
  - apply story_toggleAutoPlay_inv, Hinv.
  - apply story_stopAutoPlay_inv, Hinv.
  - apply story_restartAfterIdle_inv, Hinv.
  - eapply story_inv_same; [apply story_nav_same | exact Hinv].
  - eapply story_inv_same; [apply story_goToSlide_same | exact Hinv].
  - eapply story_inv_same; [apply story_handleSwipe_same | exact Hinv].
  - eapply story_inv_same; [apply (story_nav_same Next) | exact Hinv].
Qed.

Lemma story_trace_inv cs : ∀ w,
  story_inv w → story_guarded w cs → Forall story_inv (trace story_handler w cs).
Proof.
  induction cs as [|c cs IH]; intros w Hinv Hg; [constructor|].
  destruct Hg as [Hc Hg]. cbn [trace].
  assert (story_inv (exec (story_handler c) w)) by (apply story_handler_inv; assumption).
  constructor; [assumption | apply IH; assumption].
Qed.

Lemma story_createIndicators_same pg :
  frame story_same_autoplay (StoryCarousel.createIndicators pg).
Proof.
  unfold StoryCarousel.createIndicators, StoryCarousel.require.
  fr_bind; [destruct (StoryCarousel.has_storyIndicators pg); [fr_ret | fr_throw] | intros _].
  fr_bind; [fr_get | intros w0]. fr_modify.
Qed.

Lemma story_require_same b what :
  frame story_same_autoplay (StoryCarousel.require b what).
Proof. unfold StoryCarousel.require. destruct b; [fr_ret | fr_throw]. Qed.

Lemma story_setupEventListeners_same pg :
  frame story_same_autoplay (StoryCarousel.setupEventListeners pg).
Proof.
  unfold StoryCarousel.setupEventListeners.
  repeat (fr_bind; [apply story_require_same | intros _]).
  apply story_require_same.
Qed.

Lemma story_new_inv pg : story_inv (StoryCarousel.new pg).
Proof.
  unfold StoryCarousel.new.
  set (w0 := {| StoryCarousel.currentSlide := 0 |}).
  assert (story_inv w0) as H0.
  { repeat split; cbn; [lia | set_solver]. }
  assert (story_live w0 = ∅) as Hlive by reflexivity.
  clearbody w0. unfold StoryCarousel.init.
  set (pre := (StoryCarousel.createIndicators pg ;;;
               StoryCarousel.setupEventListeners pg ;;;
               StoryCarousel.updateSlide)).
  assert (frame story_same_autoplay pre) as Hpre.
  { unfold pre. fr_bind; [apply story_createIndicators_same | intros _].
    fr_bind; [apply story_setupEventListeners_same | intros _].
    apply story_updateSlide_same. }
  specialize (Hpre w0).
  assert (exec (StoryCarousel.createIndicators pg ;;;
                StoryCarousel.setupEventListeners pg ;;;
                StoryCarousel.updateSlide ;;; StoryCarousel.startAutoPlay) w0 =
          exec (pre ;;; StoryCarousel.startAutoPlay) w0) as ->.
  { unfold pre, exec, bind.
    destruct (StoryCarousel.createIndicators pg w0) as [[[]|e1] w1]; [|reflexivity].
    destruct (StoryCarousel.setupEventListeners pg w1) as [[[]|e2] w2]; reflexivity. }
  destruct (exec_bind_cases pre (λ _, StoryCarousel.startAutoPlay) w0)
    as [(a & _ & ->) | (e & _ & ->)].
  - apply story_startAutoPlay_inv; [eapply story_inv_same; eassumption|].
    intros _. destruct Hpre as (Ht & _). unfold story_live in *. rewrite Ht. exact Hlive.
  - eapply story_inv_same; eassumption.
Qed.
(** *** Hero carousel *)

Lemma hero_updateCarousel_same : frame hero_same_autoplay AdvancedHeroCarousel.updateCarousel.
Proof.
  intros w. destruct (hero_updateCarousel_frame w) as (_ & _ & H1 & H2 & H3).
  repeat split; assumption.
Qed.

Lemma hero_nav_same c : frame hero_same_autoplay (hero_nav c).
Proof.
  destruct c; cbn [hero_nav];
    unfold AdvancedHeroCarousel.nextSlide, AdvancedHeroCarousel.prevSlide;
    (fr_bind; [fr_get | intros w0]);
    (fr_bind; [fr_modify | intros; apply hero_updateCarousel_same]).
Qed.

Lemma hero_goToSlide_same index :
  frame hero_same_autoplay (AdvancedHeroCarousel.goToSlide index).
Proof.
  unfold AdvancedHeroCarousel.goToSlide.
  fr_bind; [fr_get | intros w0].
  destruct (_ && _); [|fr_ret].
  fr_bind; [fr_modify | intros; apply hero_updateCarousel_same].
Qed.

Lemma hero_startAutoPlay_inv w :
  hero_inv w → (AdvancedHeroCarousel.isAutoPlaying w = true → hero_live w = ∅) →
  hero_inv (exec AdvancedHeroCarousel.startAutoPlay w).
Proof.
  unfold hero_inv, hero_live, exec, AdvancedHeroCarousel.startAutoPlay,
    bind, get, modify, ret.
  destruct w as [c n h f its ds pb [next live]]; cbn.
  intros (Hn & Hsub & Hidle) Hempty.
  destruct f; cbn; [|auto].
  rewrite Hempty by reflexivity.
  destruct next; [lia|]. cbn. repeat split; [lia | set_solver | discriminate].
Qed.

Lemma hero_pauseAutoPlay_inv w :
  hero_inv w →
  hero_inv (exec AdvancedHeroCarousel.pauseAutoPlay w) ∧
  hero_live (exec AdvancedHeroCarousel.pauseAutoPlay w) = ∅.
Proof.
  unfold hero_inv, hero_live, exec, AdvancedHeroCarousel.pauseAutoPlay,
    bind, get, modify, ret.
  destruct w as [c n h f its ds pb [next live]]; cbn.
  intros (Hn & Hsub & Hidle).
  destruct h as [[|id]|]; cbn in *; repeat split; try lia; set_solver.
Qed.

Lemma hero_resumeAutoPlay_unfold w :
  exec AdvancedHeroCarousel.resumeAutoPlay w = exec AdvancedHeroCarousel.startAutoPlay w.
Proof.
  unfold exec, AdvancedHeroCarousel.resumeAutoPlay, AdvancedHeroCarousel.startAutoPlay,
    bind, get, ret.
  cbn. destruct (AdvancedHeroCarousel.isAutoPlaying w) eqn:E; cbn; rewrite ?E; reflexivity.
Qed.

Lemma hero_pauseAutoPlay_completes w :
  AdvancedHeroCarousel.pauseAutoPlay w =
    (Normal tt, exec AdvancedHeroCarousel.pauseAutoPlay w).
Proof.
  unfold exec, AdvancedHeroCarousel.pauseAutoPlay, bind, get, modify, ret.
  cbn. destruct (AdvancedHeroCarousel.autoPlayInterval w) as [[|id]|]; reflexivity.
Qed.

Lemma hero_resetAutoPlay_inv w :
  hero_inv w → hero_inv (exec AdvancedHeroCarousel.resetAutoPlay w).
Proof.
  intros Hinv. unfold AdvancedHeroCarousel.resetAutoPlay.
  destruct (exec_bind_cases AdvancedHeroCarousel.pauseAutoPlay
              (λ _, AdvancedHeroCarousel.resumeAutoPlay) w)
    as [(a & _ & ->) | (e & He & _)].
  - destruct (hero_pauseAutoPlay_inv w Hinv) as [Hp He].
    rewrite hero_resumeAutoPlay_unfold. apply hero_startAutoPlay_inv; auto.
  - rewrite hero_pauseAutoPlay_completes in He. discriminate He.
Qed.

Lemma hero_toggleAutoPlay_inv w :
  hero_inv w → hero_inv (exec AdvancedHeroCarousel.toggleAutoPlay w).
Proof.
  unfold hero_inv, hero_live, exec, AdvancedHeroCarousel.toggleAutoPlay,
    AdvancedHeroCarousel.startAutoPlay, AdvancedHeroCarousel.pauseAutoPlay,
    bind, get, modify, ret.
  destruct w as [c n h f its ds pb [next live]]; cbn.
  intros (Hn & Hsub & Hidle).
  destruct f; cbn.
  - destruct h as [[|id]|]; cbn in *; repeat split; try lia; set_solver.
  - rewrite Hidle by reflexivity.
    destruct next; [lia|]. cbn. repeat split; [lia | set_solver | discriminate].
Qed.

Lemma hero_nav_completes c w : ∃ w', hero_nav c w = (Normal tt, w').
Proof.
  destruct c; cbn [hero_nav];
    [rewrite hero_nextSlide_unfold | rewrite hero_prevSlide_unfold];
    apply hero_updateCarousel_completes.
Qed.

Lemma hero_handleSwipe_inv startX endX w :
  hero_inv w → hero_inv (exec (AdvancedHeroCarousel.handleSwipe startX endX) w).
Proof.
  intros Hinv. unfold AdvancedHeroCarousel.handleSwipe.
  destruct (Qgt_bool _ _); [|exact Hinv].
  match goal with
  | |- context [exec (bind ?m ?k) w] =>
      assert (frame hero_same_autoplay m) as Hm
        by (destruct (Qgt_bool _ _);
            [apply (hero_nav_same Next) | apply (hero_nav_same Previous)]);
      destruct (exec_bind_cases m k w) as [(a & _ & ->) | (e & _ & ->)]
  end.
  - apply hero_resetAutoPlay_inv. eapply hero_inv_same; [apply Hm | exact Hinv].
  - eapply hero_inv_same; [apply Hm | exact Hinv].
Qed.

Lemma hero_handler_inv c w :
  hero_inv w → (c = HStart ∨ c = HResume → hero_live w = ∅) →
  hero_inv (exec (hero_handler c) w).
Proof.
  intros Hinv Hguard. destruct c; cbn [hero_handler].
  - apply hero_startAutoPlay_inv; auto.
  - apply hero_pauseAutoPlay_inv, Hinv.
  - rewrite hero_resumeAutoPlay_unfold. apply hero_startAutoPlay_inv; auto.
  - apply hero_resetAutoPlay_inv, Hinv.
  - apply hero_toggleAutoPlay_inv, Hinv.
  - eapply hero_inv_same; [apply hero_nav_same | exact Hinv].
  - eapply hero_inv_same; [apply hero_goToSlide_same | exact Hinv].
  - apply hero_handleSwipe_inv, Hinv.
  - eapply hero_inv_same; [apply (hero_nav_same Next) | exact Hinv].
Qed.

Lemma hero_trace_inv cs : ∀ w,
  hero_inv w → hero_guarded w cs → Forall hero_inv (trace hero_handler w cs).
Proof.
  induction cs as [|c cs IH]; intros w Hinv Hg; [constructor|].
  destruct Hg as [Hc Hg]. cbn [trace].
  assert (hero_inv (exec (hero_handler c) w)) by (apply hero_handler_inv; assumption).
  constructor; [assumption | apply IH; assumption].
Qed.

Lemma hero_new_inv its ds pb : hero_inv (AdvancedHeroCarousel.new its ds pb).
Proof.
  unfold AdvancedHeroCarousel.new.
  set (w0 := {| AdvancedHeroCarousel.currentIndex := 0 |}).
  assert (hero_inv w0) as H0.
  { repeat split; cbn; [lia | set_solver]. }
  clearbody w0.
  destruct (_ >? _)%Z; [|exact H0].
  eapply hero_inv_same; [apply hero_updateCarousel_same | exact H0].
Qed.

(** *** Stopping twice *)

Lemma remove_twice `{Countable A} (x : A) (X : gset A) : X ∖ {[x]} ∖ {[x]} = X ∖ {[x]}.
Proof. set_solver. Qed.

Lemma story_stopAutoPlay_idempotent w :
  StoryCarousel.stopAutoPlay (exec StoryCarousel.stopAutoPlay w) =
  StoryCarousel.stopAutoPlay w.
Proof.
  unfold exec, StoryCarousel.stopAutoPlay, StoryCarousel.updateAutoPlayButton,
    StoryCarousel.set_button, bind, get, modify, throw, ret.
  destruct w as [c n h f ss sp ind btn tm an]; cbn.
  destruct btn as [[cl [ic|] html]|]; cbn; [| |reflexivity].
  - destruct h as [[|id]|]; cbn; unfold DOM.remove; rewrite ?remove_twice; reflexivity.
  - unfold DOM.remove; rewrite remove_twice; reflexivity.
Qed.

Lemma hero_pauseAutoPlay_idempotent w :
  AdvancedHeroCarousel.pauseAutoPlay (exec AdvancedHeroCarousel.pauseAutoPlay w) =
  AdvancedHeroCarousel.pauseAutoPlay w.
Proof.
  unfold exec, AdvancedHeroCarousel.pauseAutoPlay, bind, get, modify, ret.
  destruct w as [c n h f its ds pb [next live]]; cbn.
  destruct h as [[|id]|]; cbn; [reflexivity| |reflexivity].
  unfold Timers.clearInterval; cbn. rewrite remove_twice. reflexivity.
Qed.
(** *** The claim and what holds instead *)

(** C3, as stated, fails: on the story carousel as constructed (auto-play
    running, one interval scheduled) a further [startAutoPlay()] schedules
    a second interval; on the hero carousel with auto-play switched on,
    [startAutoPlay()] does the same. *)
Lemma startAutoPlay_while_running_adds_an_interval :
  StoryCarousel.isAutoPlaying story5 = true ∧
  size (story_live story5) = 1 ∧
  size (story_live (exec StoryCarousel.startAutoPlay story5)) = 2 ∧
  AdvancedHeroCarousel.isAutoPlaying (exec AdvancedHeroCarousel.toggleAutoPlay hero5) = true ∧
  size (hero_live (exec AdvancedHeroCarousel.toggleAutoPlay hero5)) = 1 ∧
  size (hero_live (run hero_handler hero5 [HToggle; HStart])) = 2.
Proof. repeat split; vm_compute; reflexivity. Qed.

(** The hero carousel's own listeners can do the same once auto-play is
    on: the pointer enters (pause), a button is clicked while it hovers
    (next, reset), the pointer leaves (resume). *)
Example hero_hover_click_leave_adds_an_interval :
  size (hero_live (run hero_handler hero5
                     [HToggle; HPause; HNav Next; HReset; HResume])) = 2.
Proof. vm_compute. reflexivity. Qed.

(** C3, amended.  Stopping (story) and pausing (hero) are idempotent, and
    on a carousel as constructed, at most one interval is scheduled after
    every call of any sequence of stop, pause, toggle, reset, navigation,
    swipe and timer calls in which [startAutoPlay] (and the hero's
    [resumeAutoPlay]) is called directly only while no interval is
    scheduled. *)
Theorem autoplay_single_interval_when_start_is_guarded :
  (∀ w, StoryCarousel.stopAutoPlay (exec StoryCarousel.stopAutoPlay w) =
        StoryCarousel.stopAutoPlay w) ∧
  (∀ w, AdvancedHeroCarousel.pauseAutoPlay (exec AdvancedHeroCarousel.pauseAutoPlay w) =
        AdvancedHeroCarousel.pauseAutoPlay w) ∧
  (∀ pg cs,
     story_guarded (StoryCarousel.new pg) cs →
     Forall (λ w, (size (story_live w) ≤ 1)%nat)
            (StoryCarousel.new pg :: trace story_handler (StoryCarousel.new pg) cs)) ∧
  (∀ its ds pb cs,
     hero_guarded (AdvancedHeroCarousel.new its ds pb) cs →
     Forall (λ w, (size (hero_live w) ≤ 1)%nat)
            (AdvancedHeroCarousel.new its ds pb ::
             trace hero_handler (AdvancedHeroCarousel.new its ds pb) cs)).
Proof.
  split; [exact story_stopAutoPlay_idempotent|].
  split; [exact hero_pauseAutoPlay_idempotent|].
  split.
  - intros pg cs Hg.
    assert (Forall story_inv
              (StoryCarousel.new pg :: trace story_handler (StoryCarousel.new pg) cs)) as H.
    { constructor; [apply story_new_inv | apply story_trace_inv; [apply story_new_inv | exact Hg]]. }
    eapply Forall_impl; [exact H|]. intros w (_ & Hsub & _).
    eapply at_most_one, Hsub.
  - intros its ds pb cs Hg.
    assert (Forall hero_inv
              (AdvancedHeroCarousel.new its ds pb ::
               trace hero_handler (AdvancedHeroCarousel.new its ds pb) cs)) as H.
    { constructor; [apply hero_new_inv | apply hero_trace_inv; [apply hero_new_inv | exact Hg]]. }
    eapply Forall_impl; [exact H|]. intros w (_ & Hsub & _).
    eapply at_most_one, Hsub.
Qed.

(** Two guarded sequences on the five-slide pages. *)
Lemma autoplay_single_interval_scenario :
  Forall (λ w, (size (story_live w) ≤ 1)%nat)
         (story5 :: trace story_handler story5 story_guarded_calls) ∧
  Forall (λ w, (size (hero_live w) ≤ 1)%nat)
         (hero5 :: trace hero_handler hero5 hero_guarded_calls).
Proof.
  destruct autoplay_single_interval_when_start_is_guarded as (_ & _ & Hs & Hh).
  split.
  - apply (Hs (story_page 5 true) story_guarded_calls).
    cbn [story_guarded story_guarded_calls].
    repeat split; intros; try discriminate; vm_compute; reflexivity.
  - apply (Hh (replicate 5 blank_item) (replicate 5 {["dot"]}) (Some DOM.NoWidth)
              hero_guarded_calls).
    cbn [hero_guarded hero_guarded_calls].
    repeat split; intros [|]; try discriminate; vm_compute; reflexivity.
Defined.
End AutoPlayTimers.

(** ** Reveal marks *)

Section Reveal.
Import DOM Examples.

Lemma add_class_elem c n (cls : nodes) c' n' :
  c' ∈ add_class c n cls !!! n' ↔ c' ∈ cls !!! n' ∨ (c' = c ∧ n' = n).
Proof.
  unfold add_class, add. destruct (decide (n = n')) as [->|Hne].
  - rewrite lookup_total_insert_eq. set_solver.
  - rewrite lookup_total_insert_ne by exact Hne. set_solver.
Qed.

Lemma add_all_elem c ns : ∀ (cls : nodes) c' n',
  c' ∈ add_all c ns cls !!! n' ↔
  c' ∈ cls !!! n' ∨ (c' = c ∧ n' ∈ ns).
Proof.
  unfold add_all.
  induction ns as [|n ns IH]; intros cls c' n'; cbn [foldl].
  - set_solver.
  - rewrite IH, add_class_elem. set_solver.
Qed.

Lemma has_class_true c n (cls : nodes) : has_class c n cls = true ↔ c ∈ cls !!! n.
Proof. unfold has_class, contains. apply bool_decide_eq_true. Qed.

Lemma revealElement_elem element d c n :
  c ∈ classes (ScrollReveal3D.revealElement element d) !!! n ↔
  c ∈ classes d !!! n ∨ (c = "revealed" ∧ n = element).
Proof.
  unfold ScrollReveal3D.revealElement.
  destruct (has_class "revealed" element (classes d)) eqn:E; cbn [negb].
  - apply has_class_true in E. split; [auto | intros [H|[-> ->]]; auto].
  - destruct d as [cls sp tl pr pd an]; cbn. destruct an; cbn; apply add_class_elem.
Qed.

Lemma scrollReveal3D_checkElements_elem self lay d c n :
  c ∈ classes (ScrollReveal3D.checkElements self lay d) !!! n ↔
  c ∈ classes d !!! n ∨
  (c = "revealed" ∧ n ∈ ScrollReveal3D.elements self ∧
   ScrollReveal3D.isInViewport self (rect lay n) = true).
Proof.
  unfold ScrollReveal3D.checkElements.
  generalize (ScrollReveal3D.elements self) as es. intros es. revert d.
  induction es as [|e es IH]; intros d; cbn [foldl].
  - set_solver.
  - rewrite IH. destruct (ScrollReveal3D.isInViewport self (rect lay e)) eqn:E.
    + rewrite revealElement_elem. set_solver.
    + split; [set_solver|]. intros [H|(-> & Hin & Hv)]; [auto|].
      apply elem_of_cons in Hin as [->|Hin]; [congruence | auto].
Qed.
Lemma fold_add_class_elem (mark : string) (P : nat → bool) es : ∀ d c n,
  c ∈ classes (foldl (λ d e, if P e
                             then set_classes (add_class mark e (classes d)) d
                             else d) d es) !!! n ↔
  c ∈ classes d !!! n ∨ (c = mark ∧ n ∈ es ∧ P n = true).
Proof.
  induction es as [|e es IH]; intros d c n; cbn [foldl].
  - set_solver.
  - rewrite IH. destruct (P e) eqn:E.
    + cbn [classes set_classes]. rewrite add_class_elem. set_solver.
    + split; [set_solver|]. intros [H|(-> & Hin & Hv)]; [auto|].
      apply elem_of_cons in Hin as [->|Hin]; [congruence | auto].
Qed.

Lemma fold_add_all_spans (P : nat → bool) es : ∀ d,
  char_spans (foldl (λ d e, if P e
                            then set_classes
                                   (add_all "revealed"
                                      (char_spans d e) (classes d)) d
                            else d) d es) = char_spans d.
Proof.
  induction es as [|e es IH]; intros d; cbn [foldl]; [reflexivity|].
  rewrite IH. destruct (P e); reflexivity.
Qed.

Lemma fold_add_all_elem (P : nat → bool) es : ∀ d c n,
  c ∈ classes (foldl (λ d e, if P e
                             then set_classes
                                    (add_all "revealed"
                                       (char_spans d e) (classes d)) d
                             else d) d es) !!! n ↔
  c ∈ classes d !!! n ∨
  (c = "revealed" ∧ ∃ e, e ∈ es ∧ P e = true ∧ n ∈ char_spans d e).
Proof.
  induction es as [|e es IH]; intros d c n; cbn [foldl].
  - set_solver.
  - rewrite IH. destruct (P e) eqn:E.
    + cbn [classes set_classes char_spans]. rewrite add_all_elem. split.
      * intros [[H|[-> H]]|(-> & e' & Hin & Hv & Hs)]; [auto | | ].
        -- right. split; [reflexivity|]. exists e. set_solver.
        -- right. split; [reflexivity|]. exists e'. set_solver.
      * intros [H|(-> & e' & Hin & Hv & Hs)]; [auto|].
        apply elem_of_cons in Hin as [->|Hin]; [auto|].
        right. split; [reflexivity|]. exists e'. auto.
    + split; [set_solver|]. intros [H|(-> & e' & Hin & Hv & Hs)]; [auto|].
      apply elem_of_cons in Hin as [->|Hin]; [congruence|].
      right. split; [reflexivity|]. exists e'. auto.
Qed.

Lemma progressive_checkElements_elem self lay d c n :
  c ∈ classes (ProgressiveScrollReveal.checkElements self lay d) !!! n ↔
  c ∈ classes d !!! n ∨
  (c = "in-view" ∧ n ∈ ProgressiveScrollReveal.elementsToReveal self ∧
   ProgressiveScrollReveal.isInViewport lay n (1 # 10) = true) ∨
  (c = "revealed" ∧
   ((n ∈ ProgressiveScrollReveal.textLines self ∧
     ProgressiveScrollReveal.isInViewport lay n (1 # 10) = true) ∨
    (∃ e, e ∈ ProgressiveScrollReveal.charElements self ∧
          ProgressiveScrollReveal.isInViewport lay e (2 # 10) = true ∧
          n ∈ char_spans d e))).
Proof.
  unfold ProgressiveScrollReveal.checkElements.
  rewrite (fold_add_class_elem "revealed"
             (λ e, ProgressiveScrollReveal.isInViewport lay e (1 # 10))).
  rewrite (fold_add_all_elem
             (λ e, ProgressiveScrollReveal.isInViewport lay e (2 # 10))).
  rewrite (fold_add_class_elem "in-view"
             (λ e, ProgressiveScrollReveal.isInViewport lay e (1 # 10))).
  assert (char_spans
            (foldl (λ d e, if ProgressiveScrollReveal.isInViewport lay e (1 # 10)
                           then set_classes (add_class "in-view" e (classes d)) d
                           else d) d (ProgressiveScrollReveal.elementsToReveal self))
          = char_spans d) as ->.
  { generalize (ProgressiveScrollReveal.elementsToReveal self) as es.
    intros es. revert d. induction es as [|e es IH]; intros d; cbn [foldl];
      [reflexivity|]. rewrite IH.
    destruct (ProgressiveScrollReveal.isInViewport lay e (1 # 10)); reflexivity. }
  split.
  - intros [[[H|H]|H]|H]; [auto | right; left; exact H | |].
    + right; right. destruct H as (-> & H). auto.
    + right; right. destruct H as (-> & H). auto.
  - intros [H|[H|(-> & [H|H])]]; auto 6.
Qed.

Lemma updateScrollProgress_classes lay d :
  classes (ProgressiveScrollReveal.updateScrollProgress lay d) = classes d ∧
  char_spans (ProgressiveScrollReveal.updateScrollProgress lay d) = char_spans d.
Proof.
  unfold ProgressiveScrollReveal.updateScrollProgress.
  destruct (scrollProgress d); split; reflexivity.
Qed.

Lemma animateSlide_grows progress d index slide :
  grows (classes d) (classes (SmoothScrollAnimations.animateSlide progress d index slide)).
Proof.
  intros c n H. unfold SmoothScrollAnimations.animateSlide.
  destruct (gt_fin _ 0); [|exact H].
  destruct (gt_fin _ (3 # 10)); [|exact H].
  cbn [classes set_classes set_pending]. apply add_all_elem. left. exact H.
Qed.

Lemma updateAnimations_grows self lay d :
  grows (classes d) (classes (SmoothScrollAnimations.updateAnimations self lay d)).
Proof.
  unfold SmoothScrollAnimations.updateAnimations.
  generalize (SmoothScrollAnimations.sections self) as secs. intros secs. revert d.
  induction secs as [|sec secs IH]; intros d c n H; cbn [foldl]; [exact H|].
  apply IH. clear IH. unfold SmoothScrollAnimations.animateSection.
  destruct (SmoothScrollAnimations.is_story sec); [|exact H].
  generalize (zip (seq 0 (length (SmoothScrollAnimations.slides sec)))
                  (SmoothScrollAnimations.slides sec)) as slides.
  intros slides. revert d H.
  induction slides as [|[index slide] slides IH]; intros d H; cbn [foldl]; [exact H|].
  apply IH. apply animateSlide_grows. exact H.
Qed.

Lemma line_timeout_grows k d :
  grows (classes d) (classes (SmoothScrollAnimations.line_timeout k d)).
Proof.
  intros c n H. unfold SmoothScrollAnimations.line_timeout.
  destruct (pending d !! k); [|exact H].
  cbn [classes set_classes set_pending]. apply add_class_elem. left. exact H.
Qed.

Lemma step_grows st ev : grows (classes (Page.doc st)) (classes (Page.doc (Page.step st ev))).
Proof.
  intros c n H. destruct ev as [lay|lay|lay|k]; cbn [Page.step].
  - unfold ScrollReveal3D.on_scroll, ProgressiveScrollReveal.on_scroll; cbn.
    apply scrollReveal3D_checkElements_elem. left.
    apply updateAnimations_grows.
    apply progressive_checkElements_elem. left.
    destruct (updateScrollProgress_classes lay (Page.doc st)) as [-> _]. exact H.
  - unfold ScrollReveal3D.on_resize, ProgressiveScrollReveal.on_resize; cbn.
    apply progressive_checkElements_elem. left. exact H.
  - cbn. apply scrollReveal3D_checkElements_elem. left.
    apply updateAnimations_grows.
    apply progressive_checkElements_elem. left.
    destruct (updateScrollProgress_classes lay (Page.doc st)) as [-> _]. exact H.
  - cbn. apply line_timeout_grows. exact H.
Qed.

Lemma run_grows evs : ∀ st,
  grows (classes (Page.doc st)) (classes (Page.doc (Page.run st evs))).
Proof.
  induction evs as [|ev evs IH]; intros st c n H; [exact H|].
  cbn [Page.run foldl]. apply (IH (Page.step st ev)). apply step_grows. exact H.
Qed.

(** C6.  Once an element carries the mark [revealed] (or [in-view], the
    mark of the element reveals), it carries it after every further
    sequence of scroll, resize, animation-frame and line-timeout events,
    whatever layout those events see. *)
Theorem revealed_mark_is_never_removed
    (st : Page.State) (evs : list Page.Event) (n : nat) :
  (has_class "revealed" n (classes (Page.doc st)) = true →
   has_class "revealed" n (classes (Page.doc (Page.run st evs))) = true) ∧
  (has_class "in-view" n (classes (Page.doc st)) = true →
   has_class "in-view" n (classes (Page.doc (Page.run st evs))) = true).
Proof.
  split; intros H; apply has_class_true; apply has_class_true in H;
    exact (run_grows evs st _ n H).
Qed.
(** The line revealed at ratio 0.15 keeps its marks when it is scrolled
    far above the window. *)
Lemma revealed_line_stays_revealed_out_of_view :
  has_class "revealed" 0
    (classes (Page.doc (Page.run (Page.step reveal_page (Page.Scroll line_partly_visible))
                          [Page.Scroll line_out_of_view; Page.Resize line_out_of_view;
                           Page.Frame line_out_of_view]))) = true ∧
  has_class "in-view" 0
    (classes (Page.doc (Page.run (Page.step reveal_page (Page.Scroll line_partly_visible))
                          [Page.Scroll line_out_of_view; Page.Resize line_out_of_view;
                           Page.Frame line_out_of_view]))) = true.
Proof.
  destruct (revealed_mark_is_never_removed
              (Page.step reveal_page (Page.Scroll line_partly_visible))
              [Page.Scroll line_out_of_view; Page.Resize line_out_of_view;
               Page.Frame line_out_of_view] 0) as [Hr Hv].
  split; [apply Hr | apply Hv]; vm_compute; reflexivity.
Defined.

(** With the story section half-way through the window, the section
    animation arms a timeout for the line of its slide; the line is
    revealed when the timeout fires. *)
Example story_line_is_revealed_by_its_timeout :
  pending (Page.doc (Page.step reveal_page (Page.Scroll story_section_in_view))) = [0] ∧
  has_class "revealed" 0
    (classes (Page.doc (Page.step reveal_page (Page.Scroll story_section_in_view)))) = false ∧
  has_class "revealed" 0
    (classes (Page.doc (Page.run reveal_page [Page.Scroll story_section_in_view;
                                             Page.LineTimeout 0]))) = true.
Proof. repeat split; vm_compute; reflexivity. Qed.

(** Scrolled out of view from the start, the same line is never marked. *)
Example hidden_line_is_not_revealed :
  has_class "revealed" 0
    (classes (Page.doc (Page.step reveal_page (Page.Scroll line_out_of_view)))) = false.
Proof. vm_compute. reflexivity. Qed.

End Reveal.

(** ** Viewport tests *)

Section Visibility.
Import DOM Examples.

Lemma gt_fin_div_true (v h t : Q) :
  (0 < h)%Q → (gt_fin (div v h) t = true ↔ (t < v / h)%Q).
Proof.
  intros Hh. unfold div.
  destruct (Qeq_bool h 0) eqn:E.
  - apply Qeq_bool_iff in E. rewrite E in Hh. exfalso. exact (Qlt_irrefl _ Hh).
  - cbn [gt_fin]. rewrite negb_true_iff. split.
    + intros H. apply Qnot_le_lt. intros Hle. apply Qle_bool_iff in Hle. congruence.
    + intros H. destruct (Qle_bool (v / h) t) eqn:E'; [|reflexivity].
      apply Qle_bool_iff in E'. exfalso. exact (Qlt_not_le _ _ H E').
Qed.

Lemma ratio_clamped (v h t : Q) :
  (0 < h)%Q → (0 <= t)%Q → ((t < v / h)%Q ↔ (t < Qmax 0 v / h)%Q).
Proof.
  intros Hh Ht.
  assert (0 < / h)%Q as Hinv by (apply Qinv_lt_0_compat; exact Hh).
  destruct (Q.max_spec 0 v) as [[Hlt Heq]|[Hle Heq]]; rewrite Heq; [reflexivity|].
  split; intros H; exfalso.
  - apply (Qlt_not_le _ _ H). apply Qle_trans with 0%Q; [|exact Ht].
    unfold Qdiv. rewrite <- (Qmult_0_l (/ h)).
    apply Qmult_le_compat_r; [exact Hle | apply Qlt_le_weak, Hinv].
  - apply (Qlt_not_le _ _ H). unfold Qdiv. rewrite Qmult_0_l. exact Ht.
Qed.

(** For a box of positive height and a non-negative threshold, the test
    of [ProgressiveScrollReveal.isInViewport] is the specification's:
    the overlapping fraction exceeds the threshold. *)
Lemma progressive_isInViewport_ratio lay element threshold :
  (0 < height (rect lay element))%Q → (0 <= threshold)%Q →
  ProgressiveScrollReveal.isInViewport lay element threshold = true ↔
  (threshold < Page.spec_visibility_ratio (innerHeight lay) (rect lay element))%Q.
Proof.
  intros Hh Ht. unfold ProgressiveScrollReveal.isInViewport, Page.spec_visibility_ratio.
  rewrite gt_fin_div_true by exact Hh.
  apply ratio_clamped; assumption.
Qed.

Lemma scrollReveal3D_isInViewport_margin self r :
  ScrollReveal3D.isInViewport self r = true ↔
  (- (ScrollReveal3D.windowHeight self * (1 # 10)) <= top r)%Q ∧
  (bottom r <= ScrollReveal3D.windowHeight self
               + ScrollReveal3D.windowHeight self * (1 # 10))%Q.
Proof.
  unfold ScrollReveal3D.isInViewport, Qge_bool.
  rewrite andb_true_iff, !Qle_bool_iff. reflexivity.
Qed.
(** C5, as stated, fails for [ScrollReveal3D]: an element that fills the
    window (overlap ratio 0.4) is not revealed, and an element wholly
    above the window (overlap ratio 0) is. *)
Lemma scrollReveal3D_does_not_test_the_overlap_ratio :
  ((1 # 10) < Page.spec_visibility_ratio (inject_Z 800) (box 0 2000))%Q ∧
  has_class "revealed" 3
    (classes (ScrollReveal3D.checkElements (Page.scrollReveal reveal_page)
                tall_element_fills_window (Page.doc reveal_page))) = false ∧
  ¬ ((1 # 10) < Page.spec_visibility_ratio (inject_Z 800) (box (-50) 40))%Q ∧
  has_class "revealed" 3
    (classes (ScrollReveal3D.checkElements (Page.scrollReveal reveal_page)
                small_element_above_window (Page.doc reveal_page))) = true.
Proof.
  split; [reflexivity|]. split; [vm_compute; reflexivity|].
  split; [|vm_compute; reflexivity].
  intros H. vm_compute in H. discriminate H.
Qed.

(** C5, amended.  One check of [ProgressiveScrollReveal] marks an element
    exactly when its test [isInViewport] holds, with threshold 0.1 for
    element reveals ([in-view]) and text lines ([revealed]) and 0.2 for
    character elements (whose [.char] spans get [revealed]); for a box of
    positive height that test is the overlapping fraction exceeding the
    threshold.  One check of [ScrollReveal3D] reveals an element exactly
    when its box lies within the window widened by a tenth of its height
    above and below. *)
Theorem reveal_marks_follow_each_viewport_test :
  (∀ self lay d (c : string) (n : nat),
     c ∈ classes (ProgressiveScrollReveal.checkElements self lay d) !!! n ↔
     c ∈ classes d !!! n ∨
     (c = "in-view" ∧ n ∈ ProgressiveScrollReveal.elementsToReveal self ∧
      ProgressiveScrollReveal.isInViewport lay n (1 # 10) = true) ∨
     (c = "revealed" ∧
      ((n ∈ ProgressiveScrollReveal.textLines self ∧
        ProgressiveScrollReveal.isInViewport lay n (1 # 10) = true) ∨
       (∃ e, e ∈ ProgressiveScrollReveal.charElements self ∧
             ProgressiveScrollReveal.isInViewport lay e (2 # 10) = true ∧
             n ∈ char_spans d e)))) ∧
  (∀ lay element threshold,
     (0 < height (rect lay element))%Q → (0 <= threshold)%Q →
     ProgressiveScrollReveal.isInViewport lay element threshold = true ↔
     (threshold < Page.spec_visibility_ratio (innerHeight lay) (rect lay element))%Q) ∧
  (∀ self lay d (c : string) (n : nat),
     c ∈ classes (ScrollReveal3D.checkElements self lay d) !!! n ↔
     c ∈ classes d !!! n ∨
     (c = "revealed" ∧ n ∈ ScrollReveal3D.elements self ∧
      (- (ScrollReveal3D.windowHeight self * (1 # 10)) <= top (rect lay n))%Q ∧
      (bottom (rect lay n) <= ScrollReveal3D.windowHeight self
                              + ScrollReveal3D.windowHeight self * (1 # 10))%Q)).
Proof.
  split; [exact progressive_checkElements_elem|].
  split; [exact progressive_isInViewport_ratio|].
  intros self lay d c n. rewrite scrollReveal3D_checkElements_elem.
  rewrite scrollReveal3D_isInViewport_margin. reflexivity.
Qed.

(** A line showing 30 of its 200 pixels passes the threshold 0.1 and is
    revealed by the check. *)
Lemma line_at_ratio_015_passes_threshold_01 :
  ProgressiveScrollReveal.isInViewport line_partly_visible 0 (1 # 10) = true ∧
  has_class "revealed" 0
    (classes (ProgressiveScrollReveal.checkElements (Page.progressiveReveal reveal_page)
                line_partly_visible (Page.doc reveal_page))) = true.
Proof.
  destruct reveal_marks_follow_each_viewport_test as (Hmarks & Hratio & _).
  assert (ProgressiveScrollReveal.isInViewport line_partly_visible 0 (1 # 10) = true) as Hin.
  { apply (Hratio line_partly_visible 0%nat (1 # 10)%Q);
      [reflexivity | unfold Qle; simpl; lia | reflexivity]. }
  split; [exact Hin|].
  apply bool_decide_eq_true. apply Hmarks. right. right.
  split; [reflexivity|]. left. split; [|exact Hin].
  apply list_elem_of_here.
Defined.

End Visibility.

(** ** Scroll progress *)

Section ScrollProgress.
Import DOM Examples.

Lemma assign_width_in_range q old :
  (0 <= q)%Q → assign_width (Fin q) old = Pct (Fin q).
Proof.
  intros H. unfold assign_width.
  apply Qle_bool_iff in H. rewrite H. reflexivity.
Qed.

Lemma assign_width_negative q old :
  (q < 0)%Q → assign_width (Fin q) old = old.
Proof.
  intros H. unfold assign_width.
  destruct (Qle_bool 0 q) eqn:E; [|reflexivity].
  apply Qle_bool_iff in E. exfalso. exact (Qlt_not_le _ _ H E).
Qed.

Lemma assign_width_twice v old :
  assign_width v (assign_width v old) = assign_width v old.
Proof.
  destruct v as [q| | |]; cbn; try reflexivity.
  destruct (Qle_bool 0 q) eqn:E; cbn; rewrite ?E; reflexivity.
Qed.

(** C7, as stated, fails.  On a long page scrolled 10 pixels down the
    fill is 5/7 of a percent; pulled 30 pixels past its top edge the
    fraction is negative and clamps to 0, but the negative percentage the
    code computes is not a width, and the fill stays at 5/7.  On a page
    that fits in the window (0 / 0) no fill is set at all. *)
Lemma scroll_progress_has_no_lower_clamp :
  let d1 := ProgressiveScrollReveal.updateScrollProgress scrolled_ten_pixels
              (Page.doc reveal_page) in
  let d2 := ProgressiveScrollReveal.updateScrollProgress pulled_past_top d1 in
  (∃ q, scrollProgress d1 = Some (Pct (Fin q)) ∧ scrollProgress d2 = Some (Pct (Fin q)) ∧
        (q == 5 # 7)%Q) ∧
  (Qmax 0 (Qmin (pageYOffset pulled_past_top /
                 (scrollHeight pulled_past_top - innerHeight pulled_past_top) *
                 inject_Z 100) (inject_Z 100)) == 0)%Q ∧
  scrollProgress (ProgressiveScrollReveal.updateScrollProgress page_fits_window
                    (Page.doc reveal_page)) = Some NoWidth.
Proof.
  cbv zeta. split; [|split]; [| reflexivity | vm_compute; reflexivity].
  eexists. split; [vm_compute; reflexivity|].
  split; [vm_compute; reflexivity | reflexivity].
Qed.

(** C7, amended.  When the page has [#scrollProgress], each tick computes
    [min(scrolled / (scrollHeight - innerHeight) * 100, 100)] and assigns
    it as the fill.  With a document height other than the window height
    the fill becomes that value when the percentage is not negative and
    keeps its previous value when it is; with equal heights it becomes 100
    when [scrolled > 0] and keeps its previous value otherwise.  A fill
    that was in [[0, 100]] is in [[0, 100]] after the tick, and when
    [scrolled >= 0] and the document is higher than the window the fill is
    set, to a value in [[0, 100]]. *)
Theorem scroll_progress_is_capped_at_100 lay d bar :
  scrollProgress d = Some bar →
  let docHeight := (scrollHeight lay - innerHeight lay)%Q in
  let percent := (pageYOffset lay / docHeight * inject_Z 100)%Q in
  let after := scrollProgress (ProgressiveScrollReveal.updateScrollProgress lay d) in
  (¬ (docHeight == 0)%Q → (0 <= percent)%Q →
     after = Some (Pct (Fin (Qmin percent (inject_Z 100))))) ∧
  (¬ (docHeight == 0)%Q → (percent < 0)%Q → after = Some bar) ∧
  ((docHeight == 0)%Q → (0 < pageYOffset lay)%Q →
     after = Some (Pct (Fin (inject_Z 100)))) ∧
  ((docHeight == 0)%Q → (pageYOffset lay <= 0)%Q → after = Some bar) ∧
  ((∀ p, bar = Pct p → within 0 (inject_Z 100) p) →
   ∀ p, after = Some (Pct p) → within 0 (inject_Z 100) p) ∧
  ((0 <= pageYOffset lay)%Q → (innerHeight lay < scrollHeight lay)%Q →
     after = Some (Pct (Fin (Qmin percent (inject_Z 100)))) ∧
     within 0 (inject_Z 100) (Fin (Qmin percent (inject_Z 100)))).
Proof.
  intros Hbar. cbv zeta.
  unfold ProgressiveScrollReveal.updateScrollProgress. rewrite Hbar.
  cbn [scrollProgress set_scrollProgress]. unfold div.
  set (docHeight := (scrollHeight lay - innerHeight lay)%Q).
  set (percent := (pageYOffset lay / docHeight * inject_Z 100)%Q).
  assert (¬ (docHeight == 0)%Q → (0 <= percent)%Q →
          Some (assign_width (Fin (Qmin percent (inject_Z 100))) bar) =
          Some (Pct (Fin (Qmin percent (inject_Z 100)))) ∧
          within 0 (inject_Z 100) (Fin (Qmin percent (inject_Z 100)))) as Hset.
  { intros _ Hp.
    assert (0 <= Qmin percent (inject_Z 100))%Q as Hmin
      by (apply Q.min_glb; [exact Hp | discriminate]).
    rewrite assign_width_in_range by exact Hmin.
    split; [reflexivity|]. split; [exact Hmin | apply Q.le_min_r]. }
  destruct (Qeq_bool docHeight 0) eqn:E.
  - apply Qeq_bool_iff in E.
    assert (∀ P : Prop, ¬ (docHeight == 0)%Q → P) as Hno
      by (intros P H; contradiction).
    assert ((innerHeight lay < scrollHeight lay)%Q → False) as Hflat.
    { intros H. unfold docHeight in E. lra. }
    repeat apply conj; try (intros H; apply Hno; exact H).
    + intros _ Hs. unfold Qsgn. destruct (pageYOffset lay) as [[|n|n] dn];
        try (exfalso; unfold Qlt in Hs; cbn in Hs; lia).
      cbn [Qnum Z.sgn mul_pos min_fin]. rewrite assign_width_in_range by discriminate.
      reflexivity.
    + intros _ Hs. unfold Qsgn. destruct (pageYOffset lay) as [[|n|n] dn];
        try (exfalso; unfold Qle in Hs; cbn in Hs; lia); reflexivity.
    + intros Hold p Hp. unfold Qsgn in Hp.
      destruct (Qnum (pageYOffset lay)) as [|n|n]; cbn [Z.sgn mul_pos min_fin] in Hp.
      * cbn [assign_width] in Hp. injection Hp as ->. apply Hold. reflexivity.
      * rewrite assign_width_in_range in Hp by discriminate. injection Hp as <-.
        split; [discriminate | apply Qle_refl].
      * cbn [assign_width] in Hp. injection Hp as ->. apply Hold. reflexivity.
    + intros _ H. exfalso. exact (Hflat H).
  - assert (¬ (docHeight == 0)%Q) as Hne.
    { intros H. apply Qeq_bool_iff in H. congruence. }
    cbn [mul_pos min_fin]. fold percent.
    repeat apply conj; try (intros H; contradiction).
    + intros _ Hp. apply Hset; assumption.
    + intros _ Hp. f_equal. apply assign_width_negative.
      eapply Qle_lt_trans; [apply Q.le_min_l | exact Hp].
    + intros Hold p Hp.
      destruct (Qlt_le_dec percent 0) as [Hneg | Hpos].
      * rewrite assign_width_negative in Hp
          by (eapply Qle_lt_trans; [apply Q.le_min_l | exact Hneg]).
        injection Hp as ->. apply Hold. reflexivity.
      * destruct (Hset Hne Hpos) as [Heq Hin]. rewrite Heq in Hp.
        injection Hp as <-. exact Hin.
    + intros Hs Hh. apply Hset; [exact Hne|].
      assert (0 < docHeight)%Q as Hd by (apply Qlt_minus_iff in Hh; exact Hh).
      apply Qmult_le_0_compat; [|discriminate].
      apply Qle_shift_div_l; [exact Hd|]. rewrite Qmult_0_l. exact Hs.
Qed.

(** 350 pixels down a document 1400 pixels higher than the window. *)
Lemma quarter_scrolled_fill_is_25 :
  ∃ q, scrollProgress (ProgressiveScrollReveal.updateScrollProgress quarter_scrolled
                         (Page.doc reveal_page)) = Some (Pct (Fin q)) ∧
       (q == inject_Z 25)%Q ∧ within 0 (inject_Z 100) (Fin q).
Proof.
  destruct (scroll_progress_is_capped_at_100 quarter_scrolled (Page.doc reveal_page)
              NoWidth eq_refl) as (_ & _ & _ & _ & _ & Hrange).
  destruct Hrange as [Hset Hin]; [unfold Qle; simpl; lia | reflexivity |].
  eexists. split; [exact Hset|]. split; [reflexivity | exact Hin].
Defined.

End ScrollProgress.

(** ** Identity service messages *)

Section AuthMessages.
Import firebaseAuth Examples.

Lemma switch_outside_table cases fallback c :
  ¬ in_table cases c → switch cases fallback c = fallback.
Proof.
  induction cases as [|[label text] rest IH]; intros Hout; cbn [switch]; [reflexivity|].
  destruct (bool_decide (c = Some label)) eqn:E.
  - apply bool_decide_eq_true in E. exfalso. apply Hout.
    exists label. split; [exact E | cbn; apply list_elem_of_here].
  - apply IH. intros (l & Hc & Hin). apply Hout.
    exists l. split; [exact Hc | cbn; apply list_elem_of_further, Hin].
Qed.

(** [login], [loginWithGoogle] and [resetPassword] answer a rejection
    whose code is outside their table with their own fallback text. *)
Lemma login_family_falls_back error :
  (¬ in_table login_cases (code error) →
   login (Rejected error) =
     {| success := false; user := None; message_of := login_fallback |}) ∧
  (¬ in_table google_cases (code error) →
   loginWithGoogle (Rejected error) =
     {| success := false; user := None; message_of := google_fallback |}) ∧
  (¬ in_table reset_cases (code error) →
   resetPassword (Rejected error) =
     {| success := false; user := None; message_of := reset_fallback |}).
Proof.
  repeat split; intros H;
    unfold login, loginWithGoogle, resetPassword,
      login_message, google_message, reset_message;
    rewrite switch_outside_table by exact H; reflexivity.
Qed.

(** [register] prefers the rejection's own message whenever it has a
    non-empty one, whatever the table says. *)
Lemma register_prefers_raw_message error c rest :
  message error = Some (String c rest) →
  message_of (register false (Rejected error) (Resolved tt)) = String c rest.
Proof.
  intros H. unfold register, register_catch, message_of. rewrite H. reflexivity.
Qed.

Lemma register_falls_back_without_message error :
  message error = None ∨ message error = Some EmptyString →
  ¬ in_table register_cases (code error) →
  message_of (register false (Rejected error) (Resolved tt)) = register_fallback.
Proof.
  intros Hm Hc. unfold register, register_catch, message_of, register_message.
  rewrite switch_outside_table by exact Hc.
  destruct Hm as [-> | ->]; reflexivity.
Qed.

(** C9.  When account creation is rejected with the code
    [auth/network-request-failed], which is not in [register]'s table,
    [register] returns the provider's raw message and not its fallback
    text; [login] on the same rejection returns its fallback text. *)
Theorem register_returns_raw_provider_message :
  ¬ in_table register_cases (code network_failure) ∧
  register false (Rejected network_failure) (Resolved tt) =
    {| success := false; user := None;
       message_of := "Firebase: Error (auth/network-request-failed)." |} ∧
  message_of (register false (Rejected network_failure) (Resolved tt)) ≠
    register_fallback ∧
  login (Rejected network_failure) =
    {| success := false; user := None; message_of := login_fallback |}.
Proof.
  split.
  { intros (l & Hc & Hin). injection Hc as <-. vm_compute in Hin.
    repeat (apply elem_of_cons in Hin as [Hin|Hin]; [discriminate Hin|]).
    inversion Hin. }
  split; [reflexivity|]. split; [|reflexivity].
  intros H. vm_compute in H. discriminate H.
Qed.

End AuthMessages.

(** ** The current user id *)

Section CurrentUser.
Import GameAPI Examples.

(** C10.  Whatever [atob] and [JSON.parse] do and whatever the token is,
    [getCurrentUserId] returns a value and never throws; it returns [null]
    when there is no token (or a falsy one), when the token is not a
    string, when [atob] rejects the second segment, and when [JSON.parse]
    rejects the decoded text; when the decoded text parses to an object it
    returns that object's [sub] property. *)
Theorem getCurrentUserId_returns_null_or_sub
    (atob : string → option string) (JSON_parse : string → option value)
    (token : value) :
  (∃ v, getCurrentUserId atob JSON_parse token = Normal v) ∧
  (truthy token = false →
   getCurrentUserId atob JSON_parse token = Normal VNull) ∧
  ((∀ tok, token ≠ VString tok) →
   getCurrentUserId atob JSON_parse token = Normal VNull) ∧
  (∀ tok, token = VString tok → atob (second_segment tok) = None →
   getCurrentUserId atob JSON_parse token = Normal VNull) ∧
  (∀ tok text, token = VString tok → atob (second_segment tok) = Some text →
   JSON_parse text = None →
   getCurrentUserId atob JSON_parse token = Normal VNull) ∧
  (∀ tok text props, token = VString tok → tok ≠ EmptyString →
   atob (second_segment tok) = Some text →
   JSON_parse text = Some (VObject props) →
   getCurrentUserId atob JSON_parse token =
     Normal (default VUndefined (own_property "sub" props))).
Proof.
  unfold getCurrentUserId. repeat split.
  - destruct (truthy token); cbn [negb]; [|eauto].
    unfold try_catch. destruct (decode_payload _ _ _); eauto.
  - intros ->. reflexivity.
  - intros Hns. destruct (truthy token); cbn [negb]; [|reflexivity].
    unfold decode_payload. destruct token; try reflexivity.
    exfalso. exact (Hns _ eq_refl).
  - intros tok -> Ha. destruct (truthy (VString tok)); cbn [negb]; [|reflexivity].
    unfold decode_payload, split_second. rewrite Ha. reflexivity.
  - intros tok text -> Ha Hp. destruct (truthy (VString tok)); cbn [negb]; [|reflexivity].
    unfold decode_payload, split_second. rewrite Ha, Hp. reflexivity.
  - intros tok text props -> Hne Ha Hp. destruct tok as [|c rest]; [congruence|].
    cbn [truthy negb]. unfold decode_payload, split_second. rewrite Ha, Hp. reflexivity.
Qed.

(** A three-segment token whose payload is [{"sub":42}]. *)
Lemma sample_token_yields_its_sub :
  getCurrentUserId atob_sample JSON_parse_sample (VString sample_token) =
    Normal (VNumber (inject_Z 42)).
Proof.
  destruct (getCurrentUserId_returns_null_or_sub atob_sample JSON_parse_sample
              (VString sample_token)) as (_ & _ & _ & _ & _ & Hsub).
  apply (Hsub sample_token payload_text [("sub", VNumber (inject_Z 42))]);
    [reflexivity | discriminate | reflexivity | reflexivity].
Defined.

(** A token without a dot hands [atob] the text "undefined"; a payload
    that parses to [null] makes the property read throw; a payload that
    parses to a string finds [String.prototype.sub].  In the first two
    cases the answer is [null]. *)
Example getCurrentUserId_corner_cases atob JSON_parse :
  second_segment "no-dots-here" = "undefined" ∧
  (atob "undefined" = None →
   getCurrentUserId atob JSON_parse (VString "no-dots-here") = Normal VNull) ∧
  (∀ text, atob "e30" = Some text → JSON_parse text = Some VNull →
   getCurrentUserId atob JSON_parse (VString "a.e30.c") = Normal VNull) ∧
  (∀ text s, atob "e30" = Some text → JSON_parse text = Some (VString s) →
   getCurrentUserId atob JSON_parse (VString "a.e30.c") =
     Normal (VFunction "String.prototype.sub")) ∧
  getCurrentUserId atob JSON_parse (VNumber (inject_Z 7)) = Normal VNull.
Proof.
  split; [reflexivity|]. repeat split.
  - intros H. unfold getCurrentUserId, decode_payload, split_second. cbn [truthy negb].
    change (second_segment "no-dots-here") with "undefined". rewrite H. reflexivity.
  - intros text Ha Hp. unfold getCurrentUserId, decode_payload, split_second.
    cbn [truthy negb].
    change (second_segment "a.e30.c") with "e30". rewrite Ha, Hp. reflexivity.
  - intros text s Ha Hp. unfold getCurrentUserId, decode_payload, split_second.
    cbn [truthy negb].
    change (second_segment "a.e30.c") with "e30". rewrite Ha, Hp. reflexivity.
Qed.

End CurrentUser.

(** ** Navigation round trips *)

Section CursorRoundTrips.
Import Calls Examples.
Local Open Scope Z_scope.

Lemma next_count_replicate n c :
  next_count (replicate n c) = match c with Next => Z.of_nat n | Previous => 0 end ∧
  previous_count (replicate n c) = match c with Next => 0 | Previous => Z.of_nat n end.
Proof.
  induction n as [|n [IHn IHp]]; destruct c; cbn [replicate next_count previous_count];
    rewrite ?IHn, ?IHp; split; lia.
Qed.

Lemma mod_back_to_start c N k : 1 ≤ N → 0 ≤ c < N → (c + k * N) mod N = c.
Proof. intros HN Hc. rewrite Z_mod_plus_full. apply Z.mod_small. lia. Qed.

(** X1.  On either carousel with [N >= 1] slides and the cursor in
    [[0, N)], [nextSlide] followed by [prevSlide] and [prevSlide] followed
    by [nextSlide] both bring the cursor back to where it was. *)
Theorem next_and_previous_undo_each_other
    (N c0 : Z) (story : StoryCarousel.World) (hero : AdvancedHeroCarousel.World) :
  1 ≤ N → 0 ≤ c0 < N →
  StoryCarousel.totalSlides story = N → StoryCarousel.currentSlide story = c0 →
  AdvancedHeroCarousel.totalItems hero = N →
  AdvancedHeroCarousel.currentIndex hero = c0 →
  StoryCarousel.currentSlide (run story_nav story [Next; Previous]) = c0 ∧
  StoryCarousel.currentSlide (run story_nav story [Previous; Next]) = c0 ∧
  AdvancedHeroCarousel.currentIndex (run hero_nav hero [Next; Previous]) = c0 ∧
  AdvancedHeroCarousel.currentIndex (run hero_nav hero [Previous; Next]) = c0.
Proof.
  intros HN Hc HsN Hsc HhN Hhc.
  pose proof (run_cursor story_nav StoryCarousel.currentSlide
                StoryCarousel.totalSlides story_nav_cursor) as Hs.
  pose proof (run_cursor hero_nav AdvancedHeroCarousel.currentIndex
                AdvancedHeroCarousel.totalItems hero_nav_cursor) as Hh.
  repeat split.
  - destruct (Hs [Next; Previous] story) as (_ & -> & _); [lia | lia |].
    rewrite Hsc, HsN. cbn [next_count previous_count].
    transitivity (c0 mod N); [f_equal; lia | apply Z.mod_small; lia].
  - destruct (Hs [Previous; Next] story) as (_ & -> & _); [lia | lia |].
    rewrite Hsc, HsN. cbn [next_count previous_count].
    transitivity (c0 mod N); [f_equal; lia | apply Z.mod_small; lia].
  - destruct (Hh [Next; Previous] hero) as (_ & -> & _); [lia | lia |].
    rewrite Hhc, HhN. cbn [next_count previous_count].
    transitivity (c0 mod N); [f_equal; lia | apply Z.mod_small; lia].
  - destruct (Hh [Previous; Next] hero) as (_ & -> & _); [lia | lia |].
    rewrite Hhc, HhN. cbn [next_count previous_count].
    transitivity (c0 mod N); [f_equal; lia | apply Z.mod_small; lia].
Qed.

(** From slide 0 of the five-slide pages. *)
Lemma next_and_previous_undo_each_other_on_five :
  StoryCarousel.currentSlide (run story_nav story5 [Next; Previous]) = 0 ∧
  StoryCarousel.currentSlide (run story_nav story5 [Previous; Next]) = 0 ∧
  AdvancedHeroCarousel.currentIndex (run hero_nav hero5 [Next; Previous]) = 0 ∧
  AdvancedHeroCarousel.currentIndex (run hero_nav hero5 [Previous; Next]) = 0.
Proof.
  apply (next_and_previous_undo_each_other 5 0 story5 hero5);
    [lia | lia | reflexivity | reflexivity | reflexivity | reflexivity].
Defined.

(** X2.  On either carousel with [N >= 1] slides, [N] calls of [nextSlide]
    in a row, or [N] calls of [prevSlide], bring the cursor back to where
    it was: the slides form one cycle. *)
Theorem full_turn_returns_to_the_start
    (n : nat) (c0 : Z) (dir : nav)
    (story : StoryCarousel.World) (hero : AdvancedHeroCarousel.World) :
  (1 ≤ n)%nat → 0 ≤ c0 < Z.of_nat n →
  StoryCarousel.totalSlides story = Z.of_nat n → StoryCarousel.currentSlide story = c0 →
  AdvancedHeroCarousel.totalItems hero = Z.of_nat n →
  AdvancedHeroCarousel.currentIndex hero = c0 →
  StoryCarousel.currentSlide (run story_nav story (replicate n dir)) = c0 ∧
  AdvancedHeroCarousel.currentIndex (run hero_nav hero (replicate n dir)) = c0.
Proof.
  intros Hn Hc HsN Hsc HhN Hhc.
  destruct (next_count_replicate n dir) as [Hnext Hprev].
  split.
  - destruct (run_cursor story_nav StoryCarousel.currentSlide
                StoryCarousel.totalSlides story_nav_cursor (replicate n dir) story)
      as (_ & -> & _); [lia | lia |].
    rewrite Hsc, HsN, Hnext, Hprev. destruct dir.
    + replace (c0 + Z.of_nat n - 0) with (c0 + 1 * Z.of_nat n) by lia.
      apply mod_back_to_start; lia.
    + replace (c0 + 0 - Z.of_nat n) with (c0 + (-1) * Z.of_nat n) by lia.
      apply mod_back_to_start; lia.
  - destruct (run_cursor hero_nav AdvancedHeroCarousel.currentIndex
                AdvancedHeroCarousel.totalItems hero_nav_cursor (replicate n dir) hero)
      as (_ & -> & _); [lia | lia |].
    rewrite Hhc, HhN, Hnext, Hprev. destruct dir.
    + replace (c0 + Z.of_nat n - 0) with (c0 + 1 * Z.of_nat n) by lia.
      apply mod_back_to_start; lia.
    + replace (c0 + 0 - Z.of_nat n) with (c0 + (-1) * Z.of_nat n) by lia.
      apply mod_back_to_start; lia.
Qed.

(** Five [previous] calls from slide 2 of the five-slide pages. *)
Lemma full_turn_on_five :
  StoryCarousel.currentSlide
    (run story_nav (exec (StoryCarousel.goToSlide 2) story5) (replicate 5 Previous)) = 2 ∧
  AdvancedHeroCarousel.currentIndex
    (run hero_nav (exec (AdvancedHeroCarousel.goToSlide 2) hero5) (replicate 5 Previous)) = 2.
Proof.
  apply (full_turn_returns_to_the_start 5 2 Previous);
    [lia | lia | reflexivity | reflexivity | reflexivity | reflexivity].
Defined.

End CursorRoundTrips.

(** ** The rendered hero carousel *)

Section HeroRendered.
Import DOM Calls AutoPlay Rendered Examples.
Local Open Scope Z_scope.

#[local] Instance hero_same_render_refl : Reflexive hero_same_render.
Proof. intros w. repeat split. Qed.

#[local] Instance hero_same_render_trans : Transitive hero_same_render.
Proof.
  intros a b c (H1 & H2 & H3 & H4 & H5) (G1 & G2 & G3 & G4 & G5).
  repeat split; congruence.
Qed.

Lemma hero_rendered_same n w w' : hero_same_render w w' → hero_rendered n w → hero_rendered n w'.
Proof.
  intros (H1 & H2 & H3 & H4 & H5). unfold hero_rendered, hero_marked.
  rewrite H1, H2, H3, H4. auto.
Qed.

Lemma hero_updateCarousel_result w :
  AdvancedHeroCarousel.items (exec AdvancedHeroCarousel.updateCarousel w) =
    imap (AdvancedHeroCarousel.place (AdvancedHeroCarousel.currentIndex w)
            (AdvancedHeroCarousel.totalItems w)) (AdvancedHeroCarousel.items w) ∧
  AdvancedHeroCarousel.dots (exec AdvancedHeroCarousel.updateCarousel w) =
    imap (AdvancedHeroCarousel.mark (AdvancedHeroCarousel.currentIndex w))
         (AdvancedHeroCarousel.dots w) ∧
  AdvancedHeroCarousel.progressBar (exec AdvancedHeroCarousel.updateCarousel w) =
    match AdvancedHeroCarousel.progressBar w with
    | Some width =>
        Some (assign_width (progress_of (AdvancedHeroCarousel.currentIndex w)
                              (AdvancedHeroCarousel.totalItems w)) width)
    | None => None
    end.
Proof.
  unfold exec, AdvancedHeroCarousel.updateCarousel, bind, get, modify, ret.
  destruct w as [c n h f its ds pb tm]; cbn.
  destruct pb; cbn; auto.
Qed.

Lemma place_active c N i item :
  "active" ∈ AdvancedHeroCarousel.item_classes (AdvancedHeroCarousel.place c N i item) ↔
  Z.of_nat i = c.
Proof.
  unfold AdvancedHeroCarousel.place, add, remove.
  destruct (Z.of_nat i =? c) eqn:E.
  - apply Z.eqb_eq in E. cbn. split; [auto | set_solver].
  - apply Z.eqb_neq in E.
    repeat (destruct (_ =? _)); cbn; split; try (intros; contradiction); set_solver.
Qed.

Lemma mark_active c i (dot : classList) :
  "active" ∈ AdvancedHeroCarousel.mark c i dot ↔ Z.of_nat i = c.
Proof.
  unfold AdvancedHeroCarousel.mark, add, remove.
  destruct (Z.of_nat i =? c) eqn:E.
  - apply Z.eqb_eq in E. split; [auto | set_solver].
  - apply Z.eqb_neq in E. split; [set_solver | intros; contradiction].
Qed.

Lemma hero_updateCarousel_marked w :
  hero_marked (exec AdvancedHeroCarousel.updateCarousel w).
Proof.
  destruct (hero_updateCarousel_result w) as (Hi & Hd & _).
  destruct (hero_updateCarousel_frame w) as (Hc & _).
  split; intros i x Hx.
  - rewrite Hi, list_lookup_imap in Hx. rewrite Hc.
    destruct (AdvancedHeroCarousel.items w !! i); [|discriminate].
    injection Hx as <-. apply place_active.
  - rewrite Hd, list_lookup_imap in Hx. rewrite Hc.
    destruct (AdvancedHeroCarousel.dots w !! i); [|discriminate].
    injection Hx as <-. apply mark_active.
Qed.

Lemma hero_render_at n c w :
  hero_rendered n w → 0 ≤ c < Z.of_nat n →
  hero_rendered n (exec AdvancedHeroCarousel.updateCarousel
                     (AdvancedHeroCarousel.set_currentIndex c w)).
Proof.
  intros (Hlen & Htot & _ & _) Hc.
  set (w1 := AdvancedHeroCarousel.set_currentIndex c w).
  destruct (hero_updateCarousel_result w1) as (Hi & _ & _).
  destruct (hero_updateCarousel_frame w1) as (Hcur & Ht & _).
  split; [|split; [|split]].
  - rewrite Hi, length_imap. exact Hlen.
  - rewrite Ht. exact Htot.
  - rewrite Hcur. cbn. lia.
  - apply hero_updateCarousel_marked.
Qed.

Lemma hero_nav_rendered n c w :
  hero_rendered n w → hero_rendered n (exec (hero_nav c) w).
Proof.
  intros Hr. pose proof Hr as (Hlen & Htot & Hcur & _).
  assert (1 ≤ Z.of_nat n) as Hn by lia.
  destruct (cursor_step_mod (Z.of_nat n) c (AdvancedHeroCarousel.currentIndex w) Hn Hcur)
    as [_ Hb].
  unfold exec. destruct c; cbn [hero_nav cursor_step] in *;
    [rewrite hero_nextSlide_unfold | rewrite hero_prevSlide_unfold];
    rewrite Htot; apply hero_render_at; assumption.
Qed.

Lemma hero_goToSlide_rendered n index w :
  hero_rendered n w → hero_rendered n (exec (AdvancedHeroCarousel.goToSlide index) w).
Proof.
  intros Hr. pose proof Hr as (Hlen & Htot & Hcur & _).
  unfold exec, AdvancedHeroCarousel.goToSlide, bind, get, modify. cbn [fst snd].
  destruct (index >=? 0) eqn:E1, (index <? AdvancedHeroCarousel.totalItems w) eqn:E2;
    cbn [andb]; try exact Hr.
  apply hero_render_at; [exact Hr | lia].
Qed.

Lemma hero_timer_calls_same_render :
  frame hero_same_render AdvancedHeroCarousel.startAutoPlay ∧
  frame hero_same_render AdvancedHeroCarousel.pauseAutoPlay ∧
  frame hero_same_render AdvancedHeroCarousel.resumeAutoPlay ∧
  frame hero_same_render AdvancedHeroCarousel.resetAutoPlay ∧
  frame hero_same_render AdvancedHeroCarousel.toggleAutoPlay.
Proof.
  assert (frame hero_same_render AdvancedHeroCarousel.startAutoPlay) as Hstart.
  { intros w. unfold exec, AdvancedHeroCarousel.startAutoPlay, bind, get, modify, ret.
    destruct w as [c n h f its ds pb [next live]]; cbn. destruct f; repeat split. }
  assert (frame hero_same_render AdvancedHeroCarousel.pauseAutoPlay) as Hpause.
  { intros w. unfold exec, AdvancedHeroCarousel.pauseAutoPlay, bind, get, modify, ret.
    destruct w as [c n h f its ds pb [next live]]; cbn.
    destruct h as [[|id]|]; repeat split. }
  assert (frame hero_same_render AdvancedHeroCarousel.resumeAutoPlay) as Hresume.
  { unfold AdvancedHeroCarousel.resumeAutoPlay. fr_bind; [fr_get | intros w0].
    destruct (AdvancedHeroCarousel.isAutoPlaying w0); [exact Hstart | fr_ret]. }
  split; [exact Hstart|]. split; [exact Hpause|]. split; [exact Hresume|]. split.
  - unfold AdvancedHeroCarousel.resetAutoPlay. fr_bind; [exact Hpause | intros _; exact Hresume].
  - unfold AdvancedHeroCarousel.toggleAutoPlay. fr_bind; [fr_get | intros w0].
    fr_bind; [fr_modify | intros _]. fr_bind; [fr_get | intros w1].
    destruct (AdvancedHeroCarousel.isAutoPlaying w1); assumption.
Qed.

Lemma hero_handler_rendered n c w :
  hero_rendered n w → hero_rendered n (exec (hero_handler c) w).
Proof.
  intros Hr.
  destruct hero_timer_calls_same_render as (Hstart & Hpause & Hresume & Hreset & Htoggle).
  destruct c; cbn [hero_handler].
  - eapply hero_rendered_same; [apply Hstart | exact Hr].
  - eapply hero_rendered_same; [apply Hpause | exact Hr].
  - eapply hero_rendered_same; [apply Hresume | exact Hr].
  - eapply hero_rendered_same; [apply Hreset | exact Hr].
  - eapply hero_rendered_same; [apply Htoggle | exact Hr].
  - apply hero_nav_rendered, Hr.
  - apply hero_goToSlide_rendered, Hr.
  - unfold AdvancedHeroCarousel.handleSwipe.
    destruct (Qgt_bool _ _); [|exact Hr].
    pose proof (hero_nav_rendered n Next w Hr) as Hnext.
    pose proof (hero_nav_rendered n Previous w Hr) as Hprev.
    cbn [hero_nav] in Hnext, Hprev.
    match goal with
    | |- context [exec (bind ?m ?k) w] =>
        assert (hero_rendered n (exec m w)) as Hm
          by (destruct (Qgt_bool _ _); assumption);
        destruct (exec_bind_cases m k w) as [(a & _ & ->) | (e & _ & ->)]
    end; [|exact Hm].
    eapply hero_rendered_same; [apply Hreset | exact Hm].
  - apply (hero_nav_rendered n Next), Hr.
Qed.

Lemma hero_new_rendered its ds pb :
  its ≠ [] → hero_rendered (length its) (AdvancedHeroCarousel.new its ds pb).
Proof.
  intros Hne. unfold AdvancedHeroCarousel.new.
  set (w0 := {| AdvancedHeroCarousel.currentIndex := 0 |}).
  assert (0 < length its)%nat as Hlen by (destruct its; [congruence | cbn; lia]).
  assert ((AdvancedHeroCarousel.totalItems w0 >? 0) = true) as -> by (cbn; lia).
  destruct (hero_updateCarousel_result w0) as (Hi & _ & _).
  destruct (hero_updateCarousel_frame w0) as (Hcur & Ht & _).
  split; [|split; [|split]].
  - rewrite Hi, length_imap. reflexivity.
  - rewrite Ht. reflexivity.
  - rewrite Hcur. cbn. lia.
  - apply hero_updateCarousel_marked.
Qed.

(** X3.  On a hero carousel constructed over at least one item, after the
    constructor and after every call of any sequence of navigation, swipe,
    timer and auto-play calls, the cursor lies in [[0, N)] and the item
    and the dot at the cursor, and no other item or dot, carry the class
    [active]. *)
Theorem hero_active_marks_follow_the_cursor its ds pb (cs : list hero_call) :
  its ≠ [] →
  Forall (hero_rendered (length its))
         (AdvancedHeroCarousel.new its ds pb ::
          trace hero_handler (AdvancedHeroCarousel.new its ds pb) cs).
Proof.
  intros Hne. constructor; [apply hero_new_rendered, Hne|].
  generalize (hero_new_rendered its ds pb Hne).
  generalize (AdvancedHeroCarousel.new its ds pb) as w. revert cs.
  induction cs as [|c cs IH]; intros w Hr; cbn [trace]; constructor.
  - apply hero_handler_rendered, Hr.
  - apply IH. apply hero_handler_rendered, Hr.
Qed.

(** A mixed sequence on the five-item page. *)
Lemma hero_active_marks_on_five :
  Forall (hero_rendered 5) (hero5 :: trace hero_handler hero5 hero_guarded_calls).
Proof.
  apply (hero_active_marks_follow_the_cursor (replicate 5 blank_item)
           (replicate 5 {["dot"]}) (Some NoWidth) hero_guarded_calls).
  discriminate.
Defined.

End HeroRendered.

(** ** Rendering twice, progress and positions *)

Section HeroRenderFacts.
Import DOM Calls Rendered Examples.
Local Open Scope Z_scope.

Lemma place_twice c N i item :
  AdvancedHeroCarousel.place c N i (AdvancedHeroCarousel.place c N i item) =
  AdvancedHeroCarousel.place c N i item.
Proof.
  unfold AdvancedHeroCarousel.place, add, remove.
  repeat (destruct (_ =? _)); cbn; f_equal; set_solver.
Qed.

Lemma mark_twice c i (dot : classList) :
  AdvancedHeroCarousel.mark c i (AdvancedHeroCarousel.mark c i dot) =
  AdvancedHeroCarousel.mark c i dot.
Proof.
  unfold AdvancedHeroCarousel.mark, add, remove.
  destruct (_ =? _); set_solver.
Qed.

Lemma imap_twice {A} (f : nat → A → A) (l : list A) :
  (∀ i x, f i (f i x) = f i x) → imap f (imap f l) = imap f l.
Proof.
  intros Hf. revert f Hf. induction l as [|x l IH]; intros f Hf; [reflexivity|].
  rewrite !imap_cons. rewrite Hf. f_equal. apply IH. intros i y. apply Hf.
Qed.

(** X4.  The hero render is idempotent: rendering a second time, with
    nothing changed in between, returns normally and leaves every item,
    dot and the progress bar exactly as the first render left them. *)
Theorem hero_render_is_idempotent w :
  AdvancedHeroCarousel.updateCarousel (exec AdvancedHeroCarousel.updateCarousel w) =
  AdvancedHeroCarousel.updateCarousel w.
Proof.
  unfold exec, AdvancedHeroCarousel.updateCarousel, bind, get, modify, ret.
  destruct w as [c n h f its ds pb tm]; cbn.
  destruct pb; cbn;
    rewrite (imap_twice (AdvancedHeroCarousel.place c n)) by apply place_twice;
    rewrite (imap_twice (AdvancedHeroCarousel.mark c)) by apply mark_twice;
    rewrite ?assign_width_twice; reflexivity.
Qed.

Lemma progress_of_range c n :
  0 ≤ c < n →
  let q := (inject_Z (c + 1) / inject_Z n * inject_Z 100)%Q in
  progress_of c n = Fin q ∧ (0 < q)%Q ∧ (q <= inject_Z 100)%Q ∧
  ((q == inject_Z 100)%Q ↔ c = n - 1).
Proof.
  intros Hc. cbv zeta. destruct n as [|p|p]; [lia | | lia].
  unfold progress_of, div.
  assert (Qeq_bool (inject_Z (Z.pos p)) 0 = false) as -> by reflexivity.
  cbn [mul_pos]. split; [reflexivity|].
  unfold Qlt, Qle, Qeq, Qdiv, Qmult, Qinv, inject_Z; cbn [Qnum Qden].
  repeat split; try nia.
Qed.

(** In range the percentage is a width, and the assignment takes effect. *)
Lemma assign_progress_of c n old :
  0 ≤ c < n →
  assign_width (progress_of c n) old =
    Pct (Fin (inject_Z (c + 1) / inject_Z n * inject_Z 100)).
Proof.
  intros Hc. destruct (progress_of_range c n Hc) as (-> & Hpos & _).
  unfold assign_width.
  assert (Qle_bool 0 (inject_Z (c + 1) / inject_Z n * inject_Z 100) = true) as ->
    by (apply Qle_bool_iff, Qlt_le_weak, Hpos).
  reflexivity.
Qed.

End HeroRenderFacts.

(** ** Progress bars, positions and the story render *)

Section RenderMore.
Import DOM Calls AutoPlay Rendered Examples.
Local Open Scope Z_scope.

Lemma story_updateSlide_result w :
  story_renderable w →
  0 ≤ StoryCarousel.currentSlide w < StoryCarousel.totalSlides w →
  ∃ w', StoryCarousel.updateSlide w = (Normal tt, w') ∧
        StoryCarousel.currentSlide w' = StoryCarousel.currentSlide w ∧
        StoryCarousel.totalSlides w' = StoryCarousel.totalSlides w ∧
        StoryCarousel.storySlides w' =
          Some (StoryCarousel.TranslateXNegPct (StoryCarousel.currentSlide w * 100)) ∧
        StoryCarousel.storyProgress w' =
          Some (Pct (Fin (inject_Z (StoryCarousel.currentSlide w + 1) /
                          inject_Z (StoryCarousel.totalSlides w) * inject_Z 100))) ∧
        StoryCarousel.indicators w' =
          imap (λ index indicator,
                  toggle "active" (Z.of_nat index =? StoryCarousel.currentSlide w) indicator)
               (StoryCarousel.indicators w).
Proof.
  intros [[t Ht] [p Hp]] Hc.
  pose proof (assign_progress_of _ _ p Hc) as Hfill. unfold progress_of in Hfill.
  unfold StoryCarousel.updateSlide, StoryCarousel.trackEvent, bind, get, modify, throw.
  destruct w as [c n h f ss sp ind btn tm an]; cbn in *. subst ss sp. cbn.
  unfold StoryCarousel.assign_transform.
  assert ((0 <=? c * 100) = true) as -> by lia.
  rewrite Hfill.
  destruct an; cbn; eexists; repeat split.
Qed.

Lemma toggle_active c i (indicator : classList) :
  "active" ∈ toggle "active" (Z.of_nat i =? c) indicator ↔ Z.of_nat i = c.
Proof.
  unfold toggle, add, remove. destruct (Z.of_nat i =? c) eqn:E.
  - apply Z.eqb_eq in E. split; [auto | set_solver].
  - apply Z.eqb_neq in E. split; [set_solver | intros; contradiction].
Qed.

Lemma story_render_at c w :
  story_renderable w → 0 ≤ c < StoryCarousel.totalSlides w →
  let w' := exec StoryCarousel.updateSlide (StoryCarousel.set_currentSlide c w) in
  completes StoryCarousel.updateSlide (StoryCarousel.set_currentSlide c w) = true ∧
  StoryCarousel.currentSlide w' = c ∧
  StoryCarousel.storySlides w' = Some (StoryCarousel.TranslateXNegPct (c * 100)) ∧
  length (StoryCarousel.indicators w') = length (StoryCarousel.indicators w) ∧
  story_marked w'.
Proof.
  intros Hr Hin. cbv zeta.
  destruct (story_updateSlide_result (StoryCarousel.set_currentSlide c w))
    as (w' & Hrun & Hc & Hn & Hs & Hp & Hi); [exact Hr | exact Hin |].
  unfold completes, exec. rewrite Hrun. cbn [fst snd].
  split; [reflexivity|]. split; [exact Hc|]. split; [exact Hs|]. split.
  - rewrite Hi, length_imap. reflexivity.
  - intros i x Hx. rewrite Hi, list_lookup_imap in Hx. rewrite Hc. cbn in *.
    destruct (StoryCarousel.indicators w !! i); [|discriminate].
    injection Hx as <-. apply toggle_active.
Qed.

(** X5.  On a story page that has [#storySlides] and [#storyProgress],
    with the cursor in [[0, N)], each of [nextSlide], [prevSlide] and
    [goToSlide(index)] with [index] in [[0, N)] returns normally and
    leaves the cursor in [[0, N)], the slide strip translated by 100% per
    slide of the new cursor, as many indicators as before, and the
    indicator at the new cursor, and no other indicator, with the class
    [active]. *)
Theorem story_render_follows_the_cursor (w : StoryCarousel.World) :
  story_renderable w →
  0 ≤ StoryCarousel.currentSlide w < StoryCarousel.totalSlides w →
  (∀ c, let w' := exec (story_nav c) w in
        completes (story_nav c) w = true ∧
        0 ≤ StoryCarousel.currentSlide w' < StoryCarousel.totalSlides w ∧
        StoryCarousel.storySlides w' =
          Some (StoryCarousel.TranslateXNegPct (StoryCarousel.currentSlide w' * 100)) ∧
        length (StoryCarousel.indicators w') = length (StoryCarousel.indicators w) ∧
        story_marked w') ∧
  (∀ index, 0 ≤ index < StoryCarousel.totalSlides w →
        let w' := exec (StoryCarousel.goToSlide index) w in
        completes (StoryCarousel.goToSlide index) w = true ∧
        StoryCarousel.currentSlide w' = index ∧
        StoryCarousel.storySlides w' =
          Some (StoryCarousel.TranslateXNegPct (index * 100)) ∧
        length (StoryCarousel.indicators w') = length (StoryCarousel.indicators w) ∧
        story_marked w').
Proof.
  intros Hr Hcur. split.
  - intros c. cbv zeta.
    assert (1 ≤ StoryCarousel.totalSlides w) as HN by lia.
    destruct (cursor_step_mod _ c _ HN Hcur) as [_ Hb].
    unfold completes, exec.
    destruct c; cbn [story_nav cursor_step] in *;
      [rewrite story_nextSlide_unfold | rewrite story_prevSlide_unfold];
      match goal with
      | |- context [StoryCarousel.updateSlide (StoryCarousel.set_currentSlide ?c w)] =>
          destruct (story_render_at c w Hr Hb) as (Hdone & Hc & Hs & Hl & Hm)
      end;
      unfold completes, exec in *; rewrite Hc; auto.
  - intros index Hin. cbv zeta.
    destruct (story_render_at index w Hr Hin) as (Hdone & Hc & Hs & Hl & Hm).
    unfold completes, exec, StoryCarousel.goToSlide, bind, modify in *. cbn [fst snd].
    destruct (StoryCarousel.updateSlide (StoryCarousel.set_currentSlide index w))
      as [[[]|e] w1]; cbn [fst snd] in *; [|discriminate].
    unfold StoryCarousel.trackEvent, modify, story_marked in *.
    destruct w1 as [c n h f ss sp ind btn tm an]; cbn in *.
    destruct an; cbn; auto.
Qed.

(** Going to slide 3 of the five-slide page, and one step on from
    there. *)
Lemma story_render_on_five :
  StoryCarousel.storySlides (exec (StoryCarousel.goToSlide 3) story5) =
    Some (StoryCarousel.TranslateXNegPct 300) ∧
  length (StoryCarousel.indicators (exec (StoryCarousel.goToSlide 3) story5)) = 5%nat ∧
  story_marked (exec (StoryCarousel.goToSlide 3) story5) ∧
  StoryCarousel.storySlides (exec StoryCarousel.nextSlide story5) =
    Some (StoryCarousel.TranslateXNegPct
            (StoryCarousel.currentSlide (exec StoryCarousel.nextSlide story5) * 100)).
Proof.
  destruct (story_render_follows_the_cursor story5) as [Hnav Hgo].
  - split; vm_compute; eauto.
  - vm_compute. split; [discriminate | reflexivity].
  - destruct (Hgo 3) as (_ & _ & Hs & Hl & Hm); [vm_compute; split; [discriminate | reflexivity]|].
    destruct (Hnav Next) as (_ & _ & Hn & _).
    split; [exact Hs|]. split; [exact Hl|]. split; [exact Hm | exact Hn].
Defined.

(** X6.  With [N >= 1] slides, the cursor in [[0, N)] and the progress
    element present, the render step of either carousel sets the fill to
    [(cursor + 1) / N * 100]: a percentage greater than 0 and at most 100
    that is 100 exactly on the last slide. *)
Theorem progress_fill_is_full_on_the_last_slide
    (N c : Z) (story : StoryCarousel.World) (hero : AdvancedHeroCarousel.World) :
  0 ≤ c < N →
  StoryCarousel.totalSlides story = N → StoryCarousel.currentSlide story = c →
  story_renderable story →
  AdvancedHeroCarousel.totalItems hero = N → AdvancedHeroCarousel.currentIndex hero = c →
  is_Some (AdvancedHeroCarousel.progressBar hero) →
  let fill := (inject_Z (c + 1) / inject_Z N * inject_Z 100)%Q in
  StoryCarousel.storyProgress (exec StoryCarousel.updateSlide story) =
    Some (Pct (Fin fill)) ∧
  AdvancedHeroCarousel.progressBar (exec AdvancedHeroCarousel.updateCarousel hero) =
    Some (Pct (Fin fill)) ∧
  (0 < fill)%Q ∧ (fill <= inject_Z 100)%Q ∧ ((fill == inject_Z 100)%Q ↔ c = N - 1).
Proof.
  intros Hc HsN Hsc Hsr HhN Hhc [bar Hbar]. cbv zeta.
  destruct (progress_of_range c N Hc) as (_ & Hpos & Hle & Hfull).
  destruct (story_updateSlide_result story Hsr) as (w' & Hrun & _ & _ & _ & Hp & _);
    [rewrite HsN, Hsc; exact Hc|].
  destruct (hero_updateCarousel_result hero) as (_ & _ & Hpb).
  unfold exec at 1. rewrite Hrun. cbn [snd].
  rewrite Hp, Hpb, Hbar, HsN, Hsc, HhN, Hhc, assign_progress_of by exact Hc. auto.
Qed.

(** The second and the last slide of the five-slide pages: 40% and
    100%. *)
Lemma progress_fill_on_slides_two_and_five :
  (∃ q, StoryCarousel.storyProgress
          (exec StoryCarousel.updateSlide (exec (StoryCarousel.goToSlide 1) story5)) =
          Some (Pct (Fin q)) ∧
        AdvancedHeroCarousel.progressBar
          (exec AdvancedHeroCarousel.updateCarousel
             (exec (AdvancedHeroCarousel.goToSlide 1) hero5)) = Some (Pct (Fin q)) ∧
        (q == inject_Z 40)%Q) ∧
  (∃ q, StoryCarousel.storyProgress
          (exec StoryCarousel.updateSlide (exec (StoryCarousel.goToSlide 4) story5)) =
          Some (Pct (Fin q)) ∧
        AdvancedHeroCarousel.progressBar
          (exec AdvancedHeroCarousel.updateCarousel
             (exec (AdvancedHeroCarousel.goToSlide 4) hero5)) = Some (Pct (Fin q)) ∧
        (q == inject_Z 100)%Q).
Proof.
  split.
  - destruct (progress_fill_is_full_on_the_last_slide 5 1
                (exec (StoryCarousel.goToSlide 1) story5)
                (exec (AdvancedHeroCarousel.goToSlide 1) hero5))
      as (Hs & Hh & _);
      [lia | reflexivity | reflexivity | split; vm_compute; eauto
       | reflexivity | reflexivity | vm_compute; eauto |].
    eexists. split; [exact Hs|]. split; [exact Hh | reflexivity].
  - destruct (progress_fill_is_full_on_the_last_slide 5 4
                (exec (StoryCarousel.goToSlide 4) story5)
                (exec (AdvancedHeroCarousel.goToSlide 4) hero5))
      as (Hs & Hh & _ & _ & Hfull);
      [lia | reflexivity | reflexivity | split; vm_compute; eauto
       | reflexivity | reflexivity | vm_compute; eauto |].
    eexists. split; [exact Hs|]. split; [exact Hh|]. apply Hfull. reflexivity.
Defined.

End RenderMore.

(** ** Item positions *)

Section HeroPositions.
Import DOM Calls Rendered Examples.
Local Open Scope Z_scope.

(** The [left] style of an item [d] steps ahead of the cursor, cyclically. *)
Lemma place_left c N i item :
  0 ≤ c < N → Z.of_nat i < N →
  AdvancedHeroCarousel.left (AdvancedHeroCarousel.place c N i item) =
    match (Z.of_nat i - c) mod N with
    | 0 => "50%"
    | 1 => "90px"
    | 2 => "250px"
    | 3 => "-90px"
    | _ => ""
    end.
Proof.
  intros Hc Hi. unfold AdvancedHeroCarousel.place.
  rewrite Z.rem_mod_nonneg by lia.
  replace (Z.of_nat i - c + N) with (Z.of_nat i - c + 1 * N) by lia.
  rewrite Z_mod_plus_full.
  pose proof (Z.mod_pos_bound (Z.of_nat i - c) N ltac:(lia)) as Hb.
  destruct (Z.of_nat i =? c) eqn:E.
  - apply Z.eqb_eq in E. rewrite E, Z.sub_diag, Z.mod_0_l by lia. reflexivity.
  - apply Z.eqb_neq in E.
    assert ((Z.of_nat i - c) mod N ≠ 0) as Hnz.
    { intros H0. destruct (Z.le_gt_cases c (Z.of_nat i)).
      - rewrite Z.mod_small in H0 by lia. lia.
      - replace (Z.of_nat i - c) with (Z.of_nat i - c + N + (-1) * N) in H0 by lia.
        rewrite Z_mod_plus_full, Z.mod_small in H0 by lia. lia. }
    destruct ((Z.of_nat i - c) mod N) as [|p|p]; [congruence | | lia].
    destruct p as [[p|p|]|[p|p|]|]; reflexivity.
Qed.

(** X7.  On a rendered hero carousel with [N] items and the cursor in
    [[0, N)], the item [d] steps ahead of the cursor (cyclically) has
    [left] set to 50% for [d = 0], 90px for 1, 250px for 2 and -90px for 3;
    an item four or more steps ahead has no position at all.  With five
    or more items, the item just before the cursor is such an item. *)
Theorem hero_items_are_placed_by_cyclic_distance
    (w : AdvancedHeroCarousel.World) (i : nat) (item : AdvancedHeroCarousel.Item) :
  let N := AdvancedHeroCarousel.totalItems w in
  let c := AdvancedHeroCarousel.currentIndex w in
  0 ≤ c < N → Z.of_nat i < N →
  AdvancedHeroCarousel.items w !! i = Some item →
  ∃ item',
    AdvancedHeroCarousel.items (exec AdvancedHeroCarousel.updateCarousel w) !! i =
      Some item' ∧
    AdvancedHeroCarousel.left item' =
      match (Z.of_nat i - c) mod N with
      | 0 => "50%"
      | 1 => "90px"
      | 2 => "250px"
      | 3 => "-90px"
      | _ => ""
      end ∧
    (4 ≤ (Z.of_nat i - c) mod N →
     AdvancedHeroCarousel.left item' = "" ∧ AdvancedHeroCarousel.transform item' = "" ∧
     AdvancedHeroCarousel.zIndex item' = "") ∧
    (5 ≤ N → Z.of_nat i = (c - 1) mod N → AdvancedHeroCarousel.left item' = "").
Proof.
  intros N c Hc Hi Hitem.
  destruct (hero_updateCarousel_result w) as (Hitems & _ & _).
  exists (AdvancedHeroCarousel.place c N i item).
  split; [rewrite Hitems, list_lookup_imap, Hitem; reflexivity|].
  pose proof (place_left c N i item Hc Hi) as Hleft.
  split; [exact Hleft|].
  assert (4 ≤ (Z.of_nat i - c) mod N →
          AdvancedHeroCarousel.left (AdvancedHeroCarousel.place c N i item) = "" ∧
          AdvancedHeroCarousel.transform (AdvancedHeroCarousel.place c N i item) = "" ∧
          AdvancedHeroCarousel.zIndex (AdvancedHeroCarousel.place c N i item) = "") as Hfar.
  { intros Hd. unfold AdvancedHeroCarousel.place.
    rewrite Z.rem_mod_nonneg by lia.
    replace (Z.of_nat i - c + N) with (Z.of_nat i - c + 1 * N) by lia.
    rewrite Z_mod_plus_full.
    destruct (Z.of_nat i =? c) eqn:E.
    { apply Z.eqb_eq in E. rewrite E, Z.sub_diag, Z.mod_0_l in Hd by lia. lia. }
    destruct (_ =? 1) eqn:E1; [apply Z.eqb_eq in E1; lia|].
    destruct (_ =? 2) eqn:E2; [apply Z.eqb_eq in E2; lia|].
    destruct (_ =? 3) eqn:E3; [apply Z.eqb_eq in E3; lia|].
    auto. }
  split; [exact Hfar|].
  intros HN Hprev. apply Hfar.
  rewrite Hprev.
  destruct (Z.eq_dec c 0) as [->|Hnz].
  - replace (0 - 1) with (N - 1 + (-1) * N) by lia.
    rewrite Z_mod_plus_full, (Z.mod_small (N - 1)) by lia.
    replace (N - 1 - 0) with (N - 1) by lia. rewrite Z.mod_small by lia. lia.
  - rewrite (Z.mod_small (c - 1)) by lia.
    replace (c - 1 - c) with (N - 1 + (-1) * N) by lia.
    rewrite Z_mod_plus_full, Z.mod_small by lia. lia.
Qed.

(** Five items, cursor on the first: the last item, just before the
    cursor, gets no position. *)
Lemma hero_last_of_five_is_not_placed :
  ∃ item', AdvancedHeroCarousel.items (exec AdvancedHeroCarousel.updateCarousel hero5) !! 4%nat =
             Some item' ∧
           AdvancedHeroCarousel.left item' = "".
Proof.
  destruct (hero_items_are_placed_by_cyclic_distance hero5 4
              (AdvancedHeroCarousel.place 0 5 4 blank_item))
    as (item' & Hi & _ & _ & Hprev);
    [vm_compute; split; [discriminate | reflexivity] | reflexivity | reflexivity |].
  exists item'. split; [exact Hi|]. apply Hprev; [vm_compute; discriminate | reflexivity].
Defined.

End HeroPositions.

(** ** Auto-play: flag, timer and button *)

Section AutoPlayConsistency.
Import DOM Calls AutoPlay AutoPlayState Examples.

Lemma story_consistent_same w w' :
  story_same_autoplay w w' → story_consistent w → story_consistent w'.
Proof.
  intros (H1 & H2 & H3 & H4). unfold story_consistent, story_live.
  rewrite H1, H2, H3, H4. auto.
Qed.

Lemma story_startAutoPlay_consistent w :
  story_consistent w → story_live w = ∅ →
  story_consistent (exec StoryCarousel.startAutoPlay w).
Proof.
  unfold story_consistent, story_live, exec,
    StoryCarousel.startAutoPlay, StoryCarousel.updateAutoPlayButton,
    StoryCarousel.set_button, bind, get, modify, throw.
  destruct w as [c n h f ss sp ind btn [next live] an]; cbn.
  intros (Hn & button & Hb & Hstate) Hempty. subst btn live.
  destruct button as [cl ic html]; cbn.
  assert (∃ s, ic = Some s) as [s ->]
    by (destruct f; destruct Hstate as (_ & _ & Hic); cbn in Hic; eauto).
  cbn. destruct next; [lia|]. cbn.
  split; [lia|]. eexists. split; [reflexivity|]. cbn.
  split; [exists next; split; [reflexivity | set_solver]|].
  split; [unfold add; set_solver | reflexivity].
Qed.

Lemma story_stopAutoPlay_consistent w :
  story_consistent w → story_consistent (exec StoryCarousel.stopAutoPlay w).
Proof.
  unfold story_consistent, story_live, exec,
    StoryCarousel.stopAutoPlay, StoryCarousel.updateAutoPlayButton,
    StoryCarousel.set_button, bind, get, modify, throw, ret.
  destruct w as [c n h f ss sp ind btn [next live] an]; cbn.
  intros (Hn & button & Hb & Hstate). subst btn.
  destruct button as [cl ic html]; cbn.
  assert (∃ s, ic = Some s) as [s ->]
    by (destruct f; destruct Hstate as (_ & _ & Hic); cbn in Hic; eauto).
  cbn. destruct f.
  - destruct Hstate as ((id & -> & ->) & _ & _). cbn.
    split; [lia|]. eexists. split; [reflexivity|]. cbn.
    split; [set_solver|]. split; [unfold remove; set_solver | reflexivity].
  - destruct Hstate as (-> & Hcl & _).
    destruct h as [[|id]|]; cbn; (split; [lia|]); eexists; (split; [reflexivity|]); cbn;
      (split; [set_solver|]); (split; [unfold remove; set_solver | reflexivity]).
Qed.

Lemma story_consistent_running w :
  story_consistent w → story_live w = ∅ → StoryCarousel.isAutoPlaying w = false.
Proof.
  intros (_ & button & _ & Hstate) Hempty.
  destruct (StoryCarousel.isAutoPlaying w); [|reflexivity].
  destruct Hstate as ((id & _ & Hlive) & _). rewrite Hlive in Hempty. set_solver.
Qed.

Lemma story_consistent_idle w :
  story_consistent w → StoryCarousel.isAutoPlaying w = false → story_live w = ∅.
Proof.
  intros (_ & button & _ & Hstate) Hf. rewrite Hf in Hstate. apply Hstate.
Qed.

Lemma story_handler_consistent c w :
  story_consistent w → (c = SStart → story_live w = ∅) →
  story_consistent (exec (story_handler c) w).
Proof.
  intros Hk Hguard. destruct c; cbn [story_handler].
  - apply story_startAutoPlay_consistent; auto.
  - apply story_stopAutoPlay_consistent, Hk.
  - unfold StoryCarousel.toggleAutoPlay. rewrite exec_bind_get.
    assert (story_consistent (exec (if StoryCarousel.isAutoPlaying w
                                    then StoryCarousel.stopAutoPlay
                                    else StoryCarousel.startAutoPlay) w)) as Hstep.
    { destruct (StoryCarousel.isAutoPlaying w) eqn:Hf.
      - apply story_stopAutoPlay_consistent, Hk.
      - apply story_startAutoPlay_consistent; [exact Hk|].
        apply story_consistent_idle; assumption. }
    match goal with
    | |- context [exec (bind ?m ?k) w] =>
        destruct (exec_bind_cases m k w) as [(a & _ & ->) | (e & _ & ->)]
    end; [|exact Hstep].
    rewrite exec_bind_get.
    eapply story_consistent_same; [apply story_trackEvent_same | exact Hstep].
  - apply story_stopAutoPlay_consistent, Hk.
  - unfold StoryCarousel.restartAfterIdle, when. rewrite exec_bind_get.
    destruct (StoryCarousel.isAutoPlaying w) eqn:Hf; cbn [negb]; [exact Hk|].
    apply story_startAutoPlay_consistent; [exact Hk|].
    apply story_consistent_idle; assumption.
  - eapply story_consistent_same; [apply story_nav_same | exact Hk].
  - eapply story_consistent_same; [apply story_goToSlide_same | exact Hk].
  - eapply story_consistent_same; [apply story_handleSwipe_same | exact Hk].
  - eapply story_consistent_same; [apply (story_nav_same Next) | exact Hk].
Qed.

Lemma story_new_consistent pg :
  page_complete pg = true → story_consistent (StoryCarousel.new pg).
Proof.
  unfold page_complete. destruct pg as [n hi hp hn hc ss sp btn an]; cbn.
  intros H. repeat (apply andb_true_iff in H as [H ?]).
  destruct hi, hp, hn, hc; try discriminate.
  destruct ss as [t|]; [|discriminate]. destruct sp as [p|]; [|discriminate].
  destruct btn as [[cl [ic|] html]|]; try discriminate.
  unfold StoryCarousel.new, exec, StoryCarousel.init, StoryCarousel.createIndicators,
    StoryCarousel.setupEventListeners, StoryCarousel.require, StoryCarousel.updateSlide,
    StoryCarousel.trackEvent, StoryCarousel.startAutoPlay,
    StoryCarousel.updateAutoPlayButton, StoryCarousel.set_button,
    bind, get, modify, throw, ret.
  cbn. destruct an; unfold story_consistent, story_live; cbn;
    (split; [lia|]); eexists; (split; [reflexivity|]); cbn;
    (split; [exists 0; split; [reflexivity | set_solver]|]);
    (split; [unfold add; set_solver | reflexivity]).
Qed.

(** X8.  On a story carousel constructed on a page that has all its
    elements, after the constructor and after every call of any sequence
    of stop, toggle, pause-on-interaction, navigation, swipe and timer
    calls (with [startAutoPlay] itself called only while nothing is
    scheduled), the flag, the timer and the button agree: while
    [isAutoPlaying] is true exactly the stored interval is scheduled and
    the button is active with the pause icon, and while it is false
    nothing is scheduled and the button is inactive with the play icon. *)
Theorem story_autoplay_flag_timer_and_button_agree pg (cs : list story_call) :
  page_complete pg = true →
  story_guarded (StoryCarousel.new pg) cs →
  Forall story_consistent
         (StoryCarousel.new pg :: trace story_handler (StoryCarousel.new pg) cs).
Proof.
  intros Hpg Hg. constructor; [apply story_new_consistent, Hpg|].
  generalize (story_new_consistent pg Hpg). revert Hg.
  generalize (StoryCarousel.new pg) as w. revert cs.
  induction cs as [|c cs IH]; intros w Hg Hk; cbn [trace]; [constructor|].
  destruct Hg as [Hc Hg].
  assert (story_consistent (exec (story_handler c) w))
    by (apply story_handler_consistent; assumption).
  constructor; [assumption | apply IH; assumption].
Qed.

(** The guarded sequence on the five-slide page. *)
Lemma story_autoplay_agrees_on_five :
  Forall story_consistent (story5 :: trace story_handler story5 story_guarded_calls).
Proof.
  apply (story_autoplay_flag_timer_and_button_agree (story_page 5 true) story_guarded_calls).
  - reflexivity.
  - cbn [story_guarded story_guarded_calls].
    repeat split; intros; try discriminate; vm_compute; reflexivity.
Defined.

End AutoPlayConsistency.

(** ** Hero carousel: when an interval exists *)

Section HeroAutoPlay.
Import DOM Calls AutoPlay AutoPlayState Examples.

#[local] Existing Instance hero_same_autoplay_refl.
#[local] Existing Instance hero_same_autoplay_trans.

Lemma hero_idle_same w w' : hero_same_autoplay w w' → hero_idle w → hero_idle w'.
Proof.
  intros (H1 & H2 & H3). unfold hero_idle, hero_live. rewrite H1, H2, H3. auto.
Qed.

Lemma hero_fresh_same w w' :
  hero_same_autoplay w w' → hero_handles_fresh w → hero_handles_fresh w'.
Proof.
  intros (H1 & H2 & H3). unfold hero_handles_fresh, hero_live. rewrite H1. auto.
Qed.

Lemma hero_startAutoPlay_idle w :
  hero_idle w → hero_idle (exec AdvancedHeroCarousel.startAutoPlay w).
Proof.
  unfold hero_idle, hero_live, exec, AdvancedHeroCarousel.startAutoPlay, bind, get, modify, ret.
  destruct w as [c n h f its ds pb [next live]]; cbn.
  intros (-> & -> & ->). cbn. auto.
Qed.

Lemma hero_pauseAutoPlay_idle w :
  hero_idle w → hero_idle (exec AdvancedHeroCarousel.pauseAutoPlay w).
Proof.
  unfold hero_idle, hero_live, exec, AdvancedHeroCarousel.pauseAutoPlay, bind, get, modify, ret.
  destruct w as [c n h f its ds pb [next live]]; cbn.
  intros (-> & -> & ->). cbn. auto.
Qed.

Lemma hero_resetAutoPlay_idle w :
  hero_idle w → hero_idle (exec AdvancedHeroCarousel.resetAutoPlay w).
Proof.
  intros Hi. unfold AdvancedHeroCarousel.resetAutoPlay.
  destruct (exec_bind_cases AdvancedHeroCarousel.pauseAutoPlay
              (λ _, AdvancedHeroCarousel.resumeAutoPlay) w)
    as [(a & _ & ->) | (e & He & _)].
  - rewrite hero_resumeAutoPlay_unfold.
    apply hero_startAutoPlay_idle, hero_pauseAutoPlay_idle, Hi.
  - rewrite hero_pauseAutoPlay_completes in He. discriminate He.
Qed.

Lemma hero_handleSwipe_idle startX endX w :
  hero_idle w → hero_idle (exec (AdvancedHeroCarousel.handleSwipe startX endX) w).
Proof.
  intros Hi. unfold AdvancedHeroCarousel.handleSwipe.
  destruct (Qgt_bool _ _); [|exact Hi].
  match goal with
  | |- context [exec (bind ?m ?k) w] =>
      assert (frame hero_same_autoplay m) as Hm
        by (destruct (Qgt_bool _ _);
            [apply (hero_nav_same Next) | apply (hero_nav_same Previous)]);
      destruct (exec_bind_cases m k w) as [(a & _ & ->) | (e & _ & ->)]
  end.
  - apply hero_resetAutoPlay_idle. eapply hero_idle_same; [apply Hm | exact Hi].
  - eapply hero_idle_same; [apply Hm | exact Hi].
Qed.

Lemma hero_handler_idle c w :
  is_toggle c = false → hero_idle w → hero_idle (exec (hero_handler c) w).
Proof.
  intros Hc Hi. destruct c; cbn [hero_handler]; try discriminate Hc.
  - apply hero_startAutoPlay_idle, Hi.
  - apply hero_pauseAutoPlay_idle, Hi.
  - rewrite hero_resumeAutoPlay_unfold. apply hero_startAutoPlay_idle, Hi.
  - apply hero_resetAutoPlay_idle, Hi.
  - eapply hero_idle_same; [apply hero_nav_same | exact Hi].
  - eapply hero_idle_same; [apply hero_goToSlide_same | exact Hi].
  - apply hero_handleSwipe_idle, Hi.
  - eapply hero_idle_same; [apply (hero_nav_same Next) | exact Hi].
Qed.

Lemma hero_new_idle its ds pb : hero_idle (AdvancedHeroCarousel.new its ds pb).
Proof.
  unfold AdvancedHeroCarousel.new.
  set (w0 := {| AdvancedHeroCarousel.currentIndex := 0 |}).
  assert (hero_idle w0) as H0 by (repeat split).
  clearbody w0.
  destruct (_ >? _)%Z; [|exact H0].
  eapply hero_idle_same; [apply hero_updateCarousel_same | exact H0].
Qed.

(** X9.  The hero carousel is constructed with auto-play off, and as long
    as [toggleAutoPlay] is not called it stays off: after the constructor
    and after every call of any sequence of start, pause, resume, reset,
    navigation, swipe and timer calls, the flag is false, no handle is
    stored and no interval is scheduled. *)
Theorem hero_schedules_nothing_until_toggled its ds pb (cs : list hero_call) :
  forallb (λ c, negb (is_toggle c)) cs = true →
  Forall hero_idle
         (AdvancedHeroCarousel.new its ds pb ::
          trace hero_handler (AdvancedHeroCarousel.new its ds pb) cs).
Proof.
  intros Hcs. constructor; [apply hero_new_idle|].
  generalize (hero_new_idle its ds pb).
  generalize (AdvancedHeroCarousel.new its ds pb) as w.
  induction cs as [|c cs IH]; intros w Hi; cbn [trace]; [constructor|].
  cbn [forallb] in Hcs. apply andb_true_iff in Hcs as [Hc Hcs].
  apply negb_true_iff in Hc.
  assert (hero_idle (exec (hero_handler c) w)) by (apply hero_handler_idle; assumption).
  constructor; [assumption | apply IH; assumption].
Qed.

(** Every listener of the page in turn on the five-item carousel: none of
    them calls [toggleAutoPlay]. *)
Lemma hero_listeners_schedule_nothing :
  Forall hero_idle
         (hero5 :: trace hero_handler hero5
            [HNav Previous; HReset; HNav Next; HReset; HGoTo 3; HReset;
             HPause; HResume; HSwipe (inject_Z 100) (inject_Z 0); HStart; HTick]).
Proof.
  apply (hero_schedules_nothing_until_toggled (replicate 5 blank_item)
           (replicate 5 {["dot"]}) (Some NoWidth)).
  reflexivity.
Defined.

(** *** Reset *)

Lemma hero_startAutoPlay_fresh w :
  hero_handles_fresh w → hero_handles_fresh (exec AdvancedHeroCarousel.startAutoPlay w).
Proof.
  unfold hero_handles_fresh, hero_live, exec, AdvancedHeroCarousel.startAutoPlay,
    bind, get, modify, ret.
  destruct w as [c n h f its ds pb [next live]]; cbn.
  intros Hf. destruct f; cbn; [|exact Hf].
  intros id Hid. apply elem_of_union in Hid as [Hid|Hid].
  - apply elem_of_singleton in Hid. lia.
  - specialize (Hf id Hid). lia.
Qed.

Lemma hero_pauseAutoPlay_fresh w :
  hero_handles_fresh w → hero_handles_fresh (exec AdvancedHeroCarousel.pauseAutoPlay w).
Proof.
  unfold hero_handles_fresh, hero_live, exec, AdvancedHeroCarousel.pauseAutoPlay,
    bind, get, modify, ret.
  destruct w as [c n h f its ds pb [next live]]; cbn.
  intros Hf. destruct h as [[|h]|]; cbn; try exact Hf.
  intros id Hid. apply Hf. set_solver.
Qed.

Lemma hero_resetAutoPlay_unfold w :
  exec AdvancedHeroCarousel.resetAutoPlay w =
  exec AdvancedHeroCarousel.startAutoPlay (exec AdvancedHeroCarousel.pauseAutoPlay w).
Proof.
  unfold AdvancedHeroCarousel.resetAutoPlay.
  destruct (exec_bind_cases AdvancedHeroCarousel.pauseAutoPlay
              (λ _, AdvancedHeroCarousel.resumeAutoPlay) w)
    as [(a & _ & ->) | (e & He & _)].
  - apply hero_resumeAutoPlay_unfold.
  - rewrite hero_pauseAutoPlay_completes in He. discriminate He.
Qed.

Lemma hero_toggleAutoPlay_fresh w :
  hero_handles_fresh w → hero_handles_fresh (exec AdvancedHeroCarousel.toggleAutoPlay w).
Proof.
  unfold hero_handles_fresh, hero_live, exec, AdvancedHeroCarousel.toggleAutoPlay,
    AdvancedHeroCarousel.startAutoPlay, AdvancedHeroCarousel.pauseAutoPlay,
    bind, get, modify, ret.
  destruct w as [c n h f its ds pb [next live]]; cbn.
  intros Hf. destruct f; cbn.
  - destruct h as [[|h]|]; cbn; try exact Hf. intros id Hid. apply Hf. set_solver.
  - intros id Hid. apply elem_of_union in Hid as [Hid|Hid].
    + apply elem_of_singleton in Hid. lia.
    + specialize (Hf id Hid). lia.
Qed.

Lemma hero_handleSwipe_fresh startX endX w :
  hero_handles_fresh w →
  hero_handles_fresh (exec (AdvancedHeroCarousel.handleSwipe startX endX) w).
Proof.
  intros Hi. unfold AdvancedHeroCarousel.handleSwipe.
  destruct (Qgt_bool _ _); [|exact Hi].
  match goal with
  | |- context [exec (bind ?m ?k) w] =>
      assert (frame hero_same_autoplay m) as Hm
        by (destruct (Qgt_bool _ _);
            [apply (hero_nav_same Next) | apply (hero_nav_same Previous)]);
      destruct (exec_bind_cases m k w) as [(a & _ & ->) | (e & _ & ->)]
  end.
  - rewrite hero_resetAutoPlay_unfold.
    apply hero_startAutoPlay_fresh, hero_pauseAutoPlay_fresh.
    eapply hero_fresh_same; [apply Hm | exact Hi].
  - eapply hero_fresh_same; [apply Hm | exact Hi].
Qed.

Lemma hero_handler_fresh c w :
  hero_handles_fresh w → hero_handles_fresh (exec (hero_handler c) w).
Proof.
  intros Hi. destruct c; cbn [hero_handler].
  - apply hero_startAutoPlay_fresh, Hi.
  - apply hero_pauseAutoPlay_fresh, Hi.
  - rewrite hero_resumeAutoPlay_unfold. apply hero_startAutoPlay_fresh, Hi.
  - rewrite hero_resetAutoPlay_unfold.
    apply hero_startAutoPlay_fresh, hero_pauseAutoPlay_fresh, Hi.
  - apply hero_toggleAutoPlay_fresh, Hi.
  - eapply hero_fresh_same; [apply hero_nav_same | exact Hi].
  - eapply hero_fresh_same; [apply hero_goToSlide_same | exact Hi].
  - apply hero_handleSwipe_fresh, Hi.
  - eapply hero_fresh_same; [apply (hero_nav_same Next) | exact Hi].
Qed.

Lemma hero_run_inv cs : ∀ w,
  hero_inv w → hero_handles_fresh w → hero_guarded w cs →
  hero_inv (run hero_handler w cs) ∧ hero_handles_fresh (run hero_handler w cs).
Proof.
  induction cs as [|c cs IH]; intros w Hinv Hf Hg; [split; assumption|].
  destruct Hg as [Hc Hg]. cbn [run foldl]. apply IH.
  - apply hero_handler_inv; assumption.
  - apply hero_handler_fresh, Hf.
  - exact Hg.
Qed.

Lemma hero_resetAutoPlay_replaces w :
  hero_inv w → hero_handles_fresh w → AdvancedHeroCarousel.isAutoPlaying w = true →
  let id := Timers.next_id (AdvancedHeroCarousel.timers w) in
  (id ∉ hero_live w) ∧
  hero_live (exec AdvancedHeroCarousel.resetAutoPlay w) = {[id]} ∧
  AdvancedHeroCarousel.autoPlayInterval (exec AdvancedHeroCarousel.resetAutoPlay w) = Some id.
Proof.
  rewrite hero_resetAutoPlay_unfold.
  unfold hero_inv, hero_handles_fresh, hero_live, exec, AdvancedHeroCarousel.startAutoPlay,
    AdvancedHeroCarousel.pauseAutoPlay, bind, get, modify, ret.
  destruct w as [c n h f its ds pb [next live]]; cbn.
  intros (Hn & Hsub & _) Hf ->.
  split; [intros Hin; specialize (Hf _ Hin); lia|].
  destruct h as [[|h]|]; cbn in *; split; try reflexivity; set_solver.
Qed.

(** X10.  On a hero carousel reached from its constructor by any call
    sequence in which [startAutoPlay] and [resumeAutoPlay] are called
    directly only while nothing is scheduled: if auto-play is on,
    [resetAutoPlay] cancels the scheduled interval and schedules a new
    one, so that afterwards exactly one interval is scheduled, it is the
    stored one, and it was not scheduled before the reset. *)
Theorem hero_resetAutoPlay_replaces_the_interval its ds pb (cs : list hero_call) :
  let w := run hero_handler (AdvancedHeroCarousel.new its ds pb) cs in
  hero_guarded (AdvancedHeroCarousel.new its ds pb) cs →
  AdvancedHeroCarousel.isAutoPlaying w = true →
  ∃ id, (id ∉ hero_live w) ∧
        hero_live (exec AdvancedHeroCarousel.resetAutoPlay w) = {[id]} ∧
        AdvancedHeroCarousel.autoPlayInterval (exec AdvancedHeroCarousel.resetAutoPlay w)
          = Some id.
Proof.
  intros w Hg Hon.
  assert (hero_handles_fresh (AdvancedHeroCarousel.new its ds pb)) as Hf0.
  { unfold AdvancedHeroCarousel.new.
    set (w0 := {| AdvancedHeroCarousel.currentIndex := 0 |}).
    assert (hero_handles_fresh w0) as H0 by (intros id Hid; cbn in Hid; set_solver).
    clearbody w0. destruct (_ >? _)%Z; [|exact H0].
    eapply hero_fresh_same; [apply hero_updateCarousel_same | exact H0]. }
  destruct (hero_run_inv cs _ (hero_new_inv its ds pb) Hf0 Hg) as [Hinv Hf].
  exists (Timers.next_id (AdvancedHeroCarousel.timers w)).
  apply hero_resetAutoPlay_replaces; assumption.
Qed.

(** After the guarded sequence on the five-item carousel, which leaves
    auto-play on. *)
Lemma hero_reset_on_five :
  ∃ id, (id ∉ hero_live (run hero_handler hero5 hero_guarded_calls)) ∧
        hero_live (exec AdvancedHeroCarousel.resetAutoPlay
                     (run hero_handler hero5 hero_guarded_calls)) = {[id]} ∧
        AdvancedHeroCarousel.autoPlayInterval
          (exec AdvancedHeroCarousel.resetAutoPlay
             (run hero_handler hero5 hero_guarded_calls)) = Some id.
Proof.
  apply (hero_resetAutoPlay_replaces_the_interval (replicate 5 blank_item)
           (replicate 5 {["dot"]}) (Some NoWidth) hero_guarded_calls).
  - cbn [hero_guarded hero_guarded_calls].
    repeat split; intros [|]; try discriminate; vm_compute; reflexivity.
  - vm_compute. reflexivity.
Defined.

End HeroAutoPlay.

(** ** One auto-play period *)

Section AutoPlayPeriod.
Import DOM Calls AutoPlay AutoPlayState Examples.
Local Open Scope Z_scope.

(** X11.  On a story carousel whose flag, timer and button agree (as
    they do after the constructor and every guarded call sequence) and
    whose cursor is in [[0, N)], one auto-play period moves the cursor to
    the next slide, cyclically, while auto-play is on, and leaves it
    where it is while auto-play is off. *)
Theorem story_advances_one_slide_per_period (w : StoryCarousel.World) :
  story_consistent w →
  0 ≤ StoryCarousel.currentSlide w < StoryCarousel.totalSlides w →
  StoryCarousel.currentSlide (story_period w) =
    if StoryCarousel.isAutoPlaying w
    then (StoryCarousel.currentSlide w + 1) mod StoryCarousel.totalSlides w
    else StoryCarousel.currentSlide w.
Proof.
  intros (_ & button & _ & Hstate) Hc. unfold story_period.
  destruct (StoryCarousel.isAutoPlaying w).
  - destruct Hstate as ((id & _ & ->) & _). rewrite size_singleton. cbn [Nat.iter nat_rect].
    destruct (story_nav_cursor Next w) as [_ Hcur]. cbn [story_nav] in Hcur.
    unfold StoryCarousel.tick. rewrite Hcur. apply Z.rem_mod_nonneg; lia.
  - destruct Hstate as (-> & _). rewrite size_empty. reflexivity.
Qed.

(** The five-slide carousel as constructed, with auto-play on. *)
Lemma story5_advances_to_the_second_slide :
  StoryCarousel.currentSlide (story_period story5) =
    if StoryCarousel.isAutoPlaying story5
    then (StoryCarousel.currentSlide story5 + 1) mod StoryCarousel.totalSlides story5
    else StoryCarousel.currentSlide story5.
Proof.
  apply (story_advances_one_slide_per_period story5).
  - apply (story_new_consistent (story_page 5 true)). reflexivity.
  - vm_compute. split; [discriminate | reflexivity].
Defined.

(** After a second [startAutoPlay] two intervals are scheduled, and a
    period advances the cursor by two slides. *)
Example two_intervals_advance_two_slides :
  StoryCarousel.currentSlide
    (story_period (exec StoryCarousel.startAutoPlay story5)) = 2.
Proof. vm_compute. reflexivity. Qed.

End AutoPlayPeriod.

(** ** Reveal events *)

Section RevealReports.
Import DOM Reported Examples.

Lemma fold_keeps_analytics {A} (f : Doc → A → Doc) (xs : list A) :
  (∀ d x, analytics (f d x) = analytics d) →
  ∀ d, analytics (foldl f d xs) = analytics d.
Proof.
  intros Hf. induction xs as [|x xs IH]; intros d; cbn [foldl]; [reflexivity|].
  rewrite IH. apply Hf.
Qed.

Lemma updateScrollProgress_analytics lay d :
  analytics (ProgressiveScrollReveal.updateScrollProgress lay d) = analytics d.
Proof.
  unfold ProgressiveScrollReveal.updateScrollProgress.
  destruct (scrollProgress d); reflexivity.
Qed.

Lemma progressive_checkElements_analytics self lay d :
  analytics (ProgressiveScrollReveal.checkElements self lay d) = analytics d.
Proof.
  unfold ProgressiveScrollReveal.checkElements.
  rewrite !fold_keeps_analytics; [reflexivity| | |];
    intros d' x; destruct (ProgressiveScrollReveal.isInViewport _ _ _); reflexivity.
Qed.

Lemma updateAnimations_analytics self lay d :
  analytics (SmoothScrollAnimations.updateAnimations self lay d) = analytics d.
Proof.
  unfold SmoothScrollAnimations.updateAnimations.
  apply fold_keeps_analytics. intros d' sec.
  unfold SmoothScrollAnimations.animateSection.
  destruct (SmoothScrollAnimations.is_story sec); [|reflexivity].
  apply fold_keeps_analytics. intros d'' [index slide].
  unfold SmoothScrollAnimations.animateSlide.
  destruct (gt_fin _ 0); [|reflexivity].
  destruct (gt_fin _ (3 # 10)); reflexivity.
Qed.

Lemma line_timeout_analytics k d :
  analytics (SmoothScrollAnimations.line_timeout k d) = analytics d.
Proof.
  unfold SmoothScrollAnimations.line_timeout. destruct (pending d !! k); reflexivity.
Qed.

Lemma reported_once_grows element d d' :
  analytics d' = analytics d → grows (classes d) (classes d') →
  reported_once element d → reported_once element d'.
Proof.
  unfold reported_once, reports. intros -> Hg [H|[H1 H2]]; [left; exact H|].
  right. split; [exact H1 | apply Hg, H2].
Qed.

Lemma reports_snoc element (events : list (string * nat)) e' :
  length (filter (λ ev : string * nat, ev = ("scroll_reveal", element))
                 (events ++ [("scroll_reveal", e')])%list) =
  (length (filter (λ ev : string * nat, ev = ("scroll_reveal", element)) events) +
   (if decide (e' = element) then 1 else 0))%nat.
Proof.
  rewrite filter_app, length_app. f_equal.
  rewrite filter_cons, filter_nil.
  destruct (decide (e' = element)) as [->|Hne].
  - rewrite decide_True by reflexivity. reflexivity.
  - rewrite decide_False by congruence. reflexivity.
Qed.

Lemma revealElement_reported element e' d :
  reported_once element d → reported_once element (ScrollReveal3D.revealElement e' d).
Proof.
  unfold ScrollReveal3D.revealElement.
  destruct (has_class "revealed" e' (classes d)) eqn:E; cbn [negb]; [auto|].
  assert ("revealed" ∉ classes d !!! e') as Hnot.
  { intros Hin. apply has_class_true in Hin. congruence. }
  unfold reported_once, reports.
  destruct d as [cls sp tl pr pd [events|]]; cbn in *.
  - rewrite reports_snoc. intros [H|[H1 H2]].
    + destruct (decide (e' = element)) as [->|Hne].
      * right. split; [lia|]. apply add_class_elem. auto.
      * left. lia.
    + destruct (decide (e' = element)) as [->|Hne]; [contradiction|].
      right. split; [lia|]. apply add_class_elem. auto.
  - intros _. left. reflexivity.
Qed.

Lemma scrollReveal3D_checkElements_reported element self lay d :
  reported_once element d →
  reported_once element (ScrollReveal3D.checkElements self lay d).
Proof.
  unfold ScrollReveal3D.checkElements.
  generalize (ScrollReveal3D.elements self) as es. intros es. revert d.
  induction es as [|e es IH]; intros d H; cbn [foldl]; [exact H|].
  apply IH. destruct (ScrollReveal3D.isInViewport self (rect lay e)); [|exact H].
  apply revealElement_reported, H.
Qed.

Lemma step_reported element st ev :
  reported_once element (Page.doc st) →
  reported_once element (Page.doc (Page.step st ev)).
Proof.
  intros H. destruct ev as [lay|lay|lay|k]; cbn [Page.step].
  - unfold ScrollReveal3D.on_scroll, ProgressiveScrollReveal.on_scroll; cbn.
    apply scrollReveal3D_checkElements_reported.
    eapply reported_once_grows; [| |exact H].
    + rewrite updateAnimations_analytics, progressive_checkElements_analytics.
      apply updateScrollProgress_analytics.
    + intros c n Hc. apply updateAnimations_grows.
      apply progressive_checkElements_elem. left.
      destruct (updateScrollProgress_classes lay (Page.doc st)) as [-> _]. exact Hc.
  - unfold ScrollReveal3D.on_resize, ProgressiveScrollReveal.on_resize; cbn.
    eapply reported_once_grows; [| |exact H].
    + apply progressive_checkElements_analytics.
    + intros c n Hc. apply progressive_checkElements_elem. left. exact Hc.
  - cbn. apply scrollReveal3D_checkElements_reported.
    eapply reported_once_grows; [| |exact H].
    + rewrite updateAnimations_analytics, progressive_checkElements_analytics.
      apply updateScrollProgress_analytics.
    + intros c n Hc. apply updateAnimations_grows.
      apply progressive_checkElements_elem. left.
      destruct (updateScrollProgress_classes lay (Page.doc st)) as [-> _]. exact Hc.
  - cbn. eapply reported_once_grows; [| |exact H].
    + apply line_timeout_analytics.
    + apply line_timeout_grows.
Qed.

(** X12.  An element whose reveal has not been reported yet is reported
    at most once over any sequence of scroll, resize, animation-frame
    and line-timeout events, whatever the layouts are and however often
    it enters the viewport; and if it has been reported, it carries
    [revealed]. *)
Theorem scroll_reveal_is_reported_at_most_once
    (st : Page.State) (evs : list Page.Event) (element : nat) :
  reports element (Page.doc st) = 0 →
  (reports element (Page.doc (Page.run st evs)) ≤ 1)%nat ∧
  (reports element (Page.doc (Page.run st evs)) = 1 →
   has_class "revealed" element (classes (Page.doc (Page.run st evs))) = true).
Proof.
  intros H0.
  assert (reported_once element (Page.doc (Page.run st evs))) as H.
  { assert (reported_once element (Page.doc st)) as Hst by (left; exact H0).
    clear H0. revert st Hst.
    induction evs as [|ev evs IH]; intros st Hst; [exact Hst|].
    cbn [Page.run foldl]. apply (IH (Page.step st ev)), step_reported, Hst. }
  destruct H as [H|[H1 H2]].
  - split; [lia|]. intros H1. rewrite H in H1. discriminate H1.
  - split; [lia|]. intros _. apply has_class_true, H2.
Qed.

(** The [.scroll-reveal] element of the sample page is in view during
    three scroll events and one animation frame. *)
Lemma scroll_reveal_reported_once_on_sample :
  (reports 3 (Page.doc (Page.run reveal_page
                         [Page.Scroll scroll_reveal_in_view; Page.Scroll line_out_of_view;
                          Page.Scroll scroll_reveal_in_view;
                          Page.Frame scroll_reveal_in_view])) ≤ 1)%nat ∧
  (reports 3 (Page.doc (Page.run reveal_page
                          [Page.Scroll scroll_reveal_in_view; Page.Scroll line_out_of_view;
                           Page.Scroll scroll_reveal_in_view;
                           Page.Frame scroll_reveal_in_view])) = 1 →
   has_class "revealed" 3
     (classes (Page.doc (Page.run reveal_page
                           [Page.Scroll scroll_reveal_in_view; Page.Scroll line_out_of_view;
                            Page.Scroll scroll_reveal_in_view;
                            Page.Frame scroll_reveal_in_view]))) = true).
Proof.
  apply (scroll_reveal_is_reported_at_most_once reveal_page). vm_compute. reflexivity.
Defined.

Example scroll_reveal_sample_count :
  reports 3 (Page.doc (Page.run reveal_page
                         [Page.Scroll scroll_reveal_in_view; Page.Scroll line_out_of_view;
                          Page.Scroll scroll_reveal_in_view;
                          Page.Frame scroll_reveal_in_view])) = 1.
Proof. vm_compute. reflexivity. Qed.

End RevealReports.

(** ** Section animations *)

Section SectionAnimations.
Import DOM SmoothScrollAnimations Animated Examples.

Lemma clamp01_cases x : clamp01 x = NaN ∨ ∃ q, clamp01 x = Fin q ∧ (0 <= q)%Q ∧ (q <= 1)%Q.
Proof.
  destruct x as [q| | |]; cbn; [right|right|right|left; reflexivity].
  - eexists. split; [reflexivity|]. split; [apply Q.le_max_l|].
    apply Q.max_lub; [discriminate | apply Q.le_min_l].
  - exists 1%Q. repeat split; discriminate.
  - exists 0%Q. repeat split; discriminate.
Qed.

Lemma slideProgress_past_seven x index :
  (7 ≤ index)%nat → gt_fin (slideProgress (clamp01 x) index) 0 = false.
Proof.
  intros Hi. unfold slideProgress.
  destruct (clamp01_cases x) as [->|(q & -> & H0 & H1)]; [reflexivity|].
  cbn [sub_fin div_pos clamp01 gt_fin].
  apply negb_false_iff, Qle_bool_iff.
  apply Q.max_lub; [apply Qle_refl|].
  eapply Qle_trans; [apply Q.le_min_r|].
  assert (7 <= Z.of_nat index)%Z as H7 by lia.
  generalize dependent (Z.of_nat index). intros z H7. clear Hi H0.
  destruct q as [a b].
  unfold Qle, Qdiv, Qmult, Qminus, Qplus, Qopp, Qinv, inject_Z in *. cbn in *.
  nia.
Qed.

Lemma animateSlide_past_seven x d index slide :
  (7 ≤ index)%nat → animateSlide (clamp01 x) d index slide = d.
Proof.
  intros Hi. unfold animateSlide. rewrite slideProgress_past_seven by exact Hi. reflexivity.
Qed.

Lemma animate_tail x (rest : list nat) : ∀ k d,
  (7 ≤ k)%nat →
  foldl (λ d '(index, slide), animateSlide (clamp01 x) d index slide) d
        (zip (seq k (length rest)) rest) = d.
Proof.
  induction rest as [|slide rest IH]; intros k d Hk; cbn; [reflexivity|].
  rewrite animateSlide_past_seven by exact Hk. apply IH. lia.
Qed.

Lemma zip_seq_app (a b : list nat) : ∀ k,
  zip (seq k (length (a ++ b))) (a ++ b) =
  (zip (seq k (length a)) a ++ zip (seq (k + length a) (length b)) b)%list.
Proof.
  induction a as [|x a IH]; intros k; cbn [app length seq zip_with].
  - rewrite Nat.add_0_r. reflexivity.
  - f_equal. replace (k + S (length a))%nat with (S k + length a)%nat by lia. apply IH.
Qed.

Lemma animateSection_first_seven sec x d :
  animateSection sec (clamp01 x) d = animateSection (first_seven sec) (clamp01 x) d.
Proof.
  unfold animateSection, first_seven. cbn [is_story slides].
  destruct (is_story sec); [|reflexivity].
  destruct (decide (length (slides sec) ≤ 7)%nat) as [Hle|Hgt].
  - rewrite take_ge by exact Hle. reflexivity.
  - rewrite <- (take_drop 7 (slides sec)) at 1 2.
    rewrite zip_seq_app, foldl_app, animate_tail; [reflexivity|].
    rewrite length_take. lia.
Qed.

(** X13.  The section animation reaches only the first seven slides of
    the story section: with the section progress clamped to [0, 1], the
    slide progress [(progress - 0.15 index) / 0.3] of a slide with index 7
    or more is never above 0, so that slide is neither styled nor are its
    lines and characters revealed, and [updateAnimations] leaves the
    document exactly as it would on a page whose story sections have only
    their first seven slides. *)
Theorem updateAnimations_reaches_seven_slides (self : t) (lay : Layout) (d : Doc) :
  (∀ x index, (7 ≤ index)%nat → gt_fin (slideProgress (clamp01 x) index) 0 = false) ∧
  updateAnimations self lay d = updateAnimations (first_seven_of_each self) lay d.
Proof.
  split; [exact slideProgress_past_seven|].
  unfold updateAnimations, first_seven_of_each. cbn [sections].
  generalize (sections self) as secs. intros secs. revert d.
  induction secs as [|sec secs IH]; intros d; cbn [foldl map]; [reflexivity|].
  rewrite IH. f_equal. apply animateSection_first_seven.
Qed.

(** The eighth slide at the end of the section, where the progress is 1. *)
Lemma eighth_slide_is_not_animated :
  gt_fin (slideProgress (clamp01 (Fin 1)) 7) 0 = false.
Proof.
  apply (updateAnimations_reaches_seven_slides
           (Page.smoothAnimations reveal_page) story_section_in_view
           (Page.doc reveal_page)).
  lia.
Defined.

Example seventh_slide_is_revealed_at_the_end :
  gt_fin (slideProgress (clamp01 (Fin 1)) 6) (3 # 10) = true ∧
  gt_fin (slideProgress (clamp01 (Fin (99 # 100))) 6) (3 # 10) = false.
Proof. split; vm_compute; reflexivity. Qed.

End SectionAnimations.

(** ** Boxes the viewport tests never accept *)

Section ViewportEdges.
Import DOM Examples.

Lemma div_not_positive (v h t : Q) :
  (h == 0)%Q → (v <= 0)%Q → gt_fin (div v h) t = false.
Proof.
  intros Hh Hv. unfold div.
  apply Qeq_bool_iff in Hh. rewrite Hh.
  unfold Qsgn. unfold Qle in Hv. cbn in Hv.
  destruct (Qnum v) eqn:E; cbn; try reflexivity. lia.
Qed.

Lemma progressive_isInViewport_empty_box lay element threshold :
  (height (rect lay element) == 0)%Q →
  (bottom (rect lay element) == top (rect lay element) + height (rect lay element))%Q →
  ProgressiveScrollReveal.isInViewport lay element threshold = false.
Proof.
  intros Hh Hb. unfold ProgressiveScrollReveal.isInViewport.
  apply div_not_positive; [exact Hh|].
  pose proof (Q.le_min_l (bottom (rect lay element)) (innerHeight lay)).
  pose proof (Q.le_max_l (top (rect lay element)) (inject_Z 0)).
  lra.
Qed.

(** X14.  An element whose box has height 0 (an empty line, or an element
    that is not displayed, whose box is all zeros) never passes
    [ProgressiveScrollReveal.isInViewport], whatever the threshold and
    wherever it lies: the ratio is 0 / 0 or a negative number over 0, and
    neither NaN nor -Infinity exceeds a threshold.  A check therefore
    never gives it the mark [in-view]. *)
Theorem progressive_never_marks_an_empty_box self lay d element threshold :
  (height (rect lay element) == 0)%Q →
  (bottom (rect lay element) == top (rect lay element) + height (rect lay element))%Q →
  ProgressiveScrollReveal.isInViewport lay element threshold = false ∧
  ("in-view" ∈ classes (ProgressiveScrollReveal.checkElements self lay d) !!! element ↔
   "in-view" ∈ classes d !!! element).
Proof.
  intros Hh Hb. split; [apply progressive_isInViewport_empty_box; assumption|].
  rewrite progressive_checkElements_elem. split; [|auto].
  intros [H|[(_ & _ & H)|(H & _)]]; [exact H| |discriminate H].
  rewrite progressive_isInViewport_empty_box in H by assumption. discriminate H.
Qed.

(** An element that is not displayed, in the middle of the window. *)
Lemma hidden_element_is_not_in_view :
  ProgressiveScrollReveal.isInViewport
    (layout 800 0 6000 1 (box 0 0) far_below) 1 (1 # 10) = false ∧
  ("in-view" ∈ classes (ProgressiveScrollReveal.checkElements
                         (Page.progressiveReveal reveal_page)
                         (layout 800 0 6000 1 (box 0 0) far_below)
                         (Page.doc reveal_page)) !!! 1 ↔
   "in-view" ∈ classes (Page.doc reveal_page) !!! 1).
Proof.
  apply (progressive_never_marks_an_empty_box (Page.progressiveReveal reveal_page)
           (layout 800 0 6000 1 (box 0 0) far_below) (Page.doc reveal_page) 1 (1 # 10));
    reflexivity.
Defined.

(** X15.  [ScrollReveal3D] never reveals an element whose box is higher
    than 1.2 times the window height it has stored, wherever the element
    lies: the box cannot have its top edge at most a tenth of the window
    above the window and its bottom edge at most a tenth below. *)
Theorem scrollReveal3D_never_reveals_a_tall_box self lay d element :
  (ScrollReveal3D.windowHeight self * (12 # 10)
   < bottom (rect lay element) - top (rect lay element))%Q →
  ScrollReveal3D.isInViewport self (rect lay element) = false ∧
  ("revealed" ∈ classes (ScrollReveal3D.checkElements self lay d) !!! element ↔
   "revealed" ∈ classes d !!! element).
Proof.
  intros Htall.
  assert (ScrollReveal3D.isInViewport self (rect lay element) = false) as Hout.
  { destruct (ScrollReveal3D.isInViewport self (rect lay element)) eqn:E; [|reflexivity].
    apply scrollReveal3D_isInViewport_margin in E as [Ht Hb]. exfalso. lra. }
  split; [exact Hout|].
  rewrite scrollReveal3D_checkElements_elem. split; [|auto].
  intros [H|(_ & _ & H)]; [exact H|]. rewrite Hout in H. discriminate H.
Qed.

(** The element 2000 pixels high in the window 800 pixels high. *)
Lemma tall_element_is_never_revealed :
  ScrollReveal3D.isInViewport (Page.scrollReveal reveal_page)
    (rect tall_element_fills_window 3) = false ∧
  ("revealed" ∈ classes (ScrollReveal3D.checkElements (Page.scrollReveal reveal_page)
                          tall_element_fills_window (Page.doc reveal_page)) !!! 3 ↔
   "revealed" ∈ classes (Page.doc reveal_page) !!! 3).
Proof.
  apply (scrollReveal3D_never_reveals_a_tall_box (Page.scrollReveal reveal_page)
           tall_element_fills_window (Page.doc reveal_page) 3).
  reflexivity.
Defined.

End ViewportEdges.

(** ** A second pass at the same layout *)

Section PassTwice.
Import DOM Pass Examples.

#[local] Instance same_marks_refl : Reflexive same_marks.
Proof. intros d. repeat split. Qed.

#[local] Instance same_marks_trans : Transitive same_marks.
Proof.
  intros a b c (H1 & H2 & H3 & H4) (G1 & G2 & G3 & G4).
  repeat split; congruence.
Qed.

Lemma add_class_present c n (cls : nodes) : c ∈ cls !!! n → add_class c n cls = cls.
Proof.
  unfold add_class, add. intros H.
  rewrite lookup_total_alt in H.
  destruct (cls !! n) as [X|] eqn:E; cbn in H; [|set_solver].
  rewrite lookup_total_alt, E. cbn.
  assert ({[c]} ∪ X = X) as -> by set_solver.
  apply insert_id, E.
Qed.

Lemma add_all_present c ns : ∀ (cls : nodes),
  (∀ n, n ∈ ns → c ∈ cls !!! n) → add_all c ns cls = cls.
Proof.
  unfold add_all. induction ns as [|n ns IH]; intros cls H; cbn [foldl]; [reflexivity|].
  rewrite add_class_present by (apply H; set_solver).
  apply IH. intros m Hm. apply H. set_solver.
Qed.

Lemma set_classes_same d : set_classes (classes d) d = d.
Proof. destruct d; reflexivity. Qed.

Lemma fold_add_class_closed (mark : string) (P : nat → bool) es d :
  (∀ e, e ∈ es → P e = true → mark ∈ classes d !!! e) →
  foldl (λ d e, if P e then set_classes (add_class mark e (classes d)) d else d) d es = d.
Proof.
  induction es as [|e es IH]; intros H; cbn [foldl]; [reflexivity|].
  destruct (P e) eqn:E.
  - rewrite add_class_present by (apply H; [set_solver | exact E]).
    rewrite set_classes_same. apply IH. intros e' He'. apply H. set_solver.
  - apply IH. intros e' He'. apply H. set_solver.
Qed.

Lemma fold_add_all_closed (P : nat → bool) es d :
  (∀ e, e ∈ es → P e = true → ∀ n, n ∈ char_spans d e → "revealed" ∈ classes d !!! n) →
  foldl (λ d e, if P e
                then set_classes (add_all "revealed" (char_spans d e) (classes d)) d
                else d) d es = d.
Proof.
  induction es as [|e es IH]; intros H; cbn [foldl]; [reflexivity|].
  destruct (P e) eqn:E.
  - rewrite add_all_present by (apply H; [set_solver | exact E]).
    rewrite set_classes_same. apply IH. intros e' He'. apply H. set_solver.
  - apply IH. intros e' He'. apply H. set_solver.
Qed.

Lemma fold_keeps_field {A B} (field : Doc → B) (f : Doc → A → Doc) (xs : list A) :
  (∀ d x, field (f d x) = field d) → ∀ d, field (foldl f d xs) = field d.
Proof.
  intros Hf. induction xs as [|x xs IH]; intros d; cbn [foldl]; [reflexivity|].
  rewrite IH. apply Hf.
Qed.

(** *** What each system leaves alone *)

Lemma progressive_checkElements_keeps self lay d :
  char_spans (ProgressiveScrollReveal.checkElements self lay d) = char_spans d ∧
  scrollProgress (ProgressiveScrollReveal.checkElements self lay d) = scrollProgress d.
Proof.
  unfold ProgressiveScrollReveal.checkElements.
  split; rewrite !fold_keeps_field; try reflexivity;
    intros d' x; destruct (ProgressiveScrollReveal.isInViewport _ _ _); reflexivity.
Qed.

Lemma animateSlide_keeps progress d index slide :
  char_spans (SmoothScrollAnimations.animateSlide progress d index slide) = char_spans d ∧
  scrollProgress (SmoothScrollAnimations.animateSlide progress d index slide)
    = scrollProgress d ∧
  analytics (SmoothScrollAnimations.animateSlide progress d index slide) = analytics d.
Proof.
  unfold SmoothScrollAnimations.animateSlide.
  destruct (gt_fin _ 0); [|auto]. destruct (gt_fin _ (3 # 10)); auto.
Qed.

Lemma updateAnimations_unfold self lay d :
  SmoothScrollAnimations.updateAnimations self lay d =
  foldl (λ d sec, SmoothScrollAnimations.animateSection sec (sectionProgress lay sec) d)
        d (SmoothScrollAnimations.sections self).
Proof. reflexivity. Qed.

Lemma animateSection_keeps sec progress d :
  char_spans (SmoothScrollAnimations.animateSection sec progress d) = char_spans d ∧
  scrollProgress (SmoothScrollAnimations.animateSection sec progress d) = scrollProgress d.
Proof.
  unfold SmoothScrollAnimations.animateSection.
  destruct (SmoothScrollAnimations.is_story sec); [|auto].
  split; apply fold_keeps_field; intros d' [index slide]; apply animateSlide_keeps.
Qed.

Lemma updateAnimations_keeps self lay d :
  char_spans (SmoothScrollAnimations.updateAnimations self lay d) = char_spans d ∧
  scrollProgress (SmoothScrollAnimations.updateAnimations self lay d) = scrollProgress d.
Proof.
  rewrite updateAnimations_unfold.
  split; apply fold_keeps_field; intros d' sec; apply animateSection_keeps.
Qed.

Lemma revealElement_keeps element d :
  char_spans (ScrollReveal3D.revealElement element d) = char_spans d ∧
  scrollProgress (ScrollReveal3D.revealElement element d) = scrollProgress d.
Proof.
  unfold ScrollReveal3D.revealElement.
  destruct (negb _); [|auto]. cbn. destruct (analytics d); auto.
Qed.

Lemma scrollReveal3D_checkElements_keeps self lay d :
  char_spans (ScrollReveal3D.checkElements self lay d) = char_spans d ∧
  scrollProgress (ScrollReveal3D.checkElements self lay d) = scrollProgress d.
Proof.
  unfold ScrollReveal3D.checkElements.
  split; apply fold_keeps_field; intros d' e;
    (destruct (ScrollReveal3D.isInViewport _ _); [apply revealElement_keeps | reflexivity]).
Qed.

(** *** After a pass everything is settled *)

Lemma gt_fin_03_0 x : gt_fin x (3 # 10) = true → gt_fin x 0 = true.
Proof.
  destruct x as [q| | |]; cbn; try (intros; congruence).
  rewrite !negb_true_iff. intros H.
  destruct (Qle_bool q 0) eqn:E; [|reflexivity].
  apply Qle_bool_iff in E.
  assert (Qle_bool q (3 # 10) = true) as H' by (apply Qle_bool_iff; lra).
  congruence.
Qed.

Lemma animateSlide_marks progress d index slide n :
  gt_fin (SmoothScrollAnimations.slideProgress progress index) (3 # 10) = true →
  n ∈ char_spans d slide →
  "revealed" ∈ classes (SmoothScrollAnimations.animateSlide progress d index slide) !!! n.
Proof.
  intros Hgt Hn. unfold SmoothScrollAnimations.animateSlide.
  rewrite (gt_fin_03_0 _ Hgt), Hgt. cbn. apply add_all_elem. right. auto.
Qed.

Lemma fold_animateSlide_marks progress zs : ∀ d index slide n,
  (index, slide) ∈ zs →
  gt_fin (SmoothScrollAnimations.slideProgress progress index) (3 # 10) = true →
  n ∈ char_spans d slide →
  "revealed" ∈
    classes (foldl (λ d '(index, slide),
                      SmoothScrollAnimations.animateSlide progress d index slide) d zs) !!! n.
Proof.
  induction zs as [|[i s] zs IH]; intros d index slide n Hin Hgt Hn; [set_solver|].
  cbn [foldl]. apply elem_of_cons in Hin as [Heq|Hin].
  - inversion Heq; subst i s. clear IH.
    assert ("revealed" ∈ classes (SmoothScrollAnimations.animateSlide progress d index slide)
                         !!! n) as H by (apply animateSlide_marks; assumption).
    revert H. generalize (SmoothScrollAnimations.animateSlide progress d index slide).
    induction zs as [|[i s] zs IH]; intros d' H; cbn [foldl]; [exact H|].
    apply IH. apply animateSlide_grows, H.
  - apply (IH _ index slide); [exact Hin | exact Hgt|].
    destruct (animateSlide_keeps progress d i s) as [-> _]. exact Hn.
Qed.

Lemma animateSection_grows sec progress d :
  grows (classes d) (classes (SmoothScrollAnimations.animateSection sec progress d)).
Proof.
  intros c n H. unfold SmoothScrollAnimations.animateSection.
  destruct (SmoothScrollAnimations.is_story sec); [|exact H].
  generalize (zip (seq 0 (length (SmoothScrollAnimations.slides sec)))
                  (SmoothScrollAnimations.slides sec)) as zs.
  intros zs. revert d H.
  induction zs as [|[index slide] zs IH]; intros d H; cbn [foldl]; [exact H|].
  apply IH, animateSlide_grows, H.
Qed.

Lemma updateAnimations_marks self lay d sec index slide n :
  sec ∈ SmoothScrollAnimations.sections self →
  SmoothScrollAnimations.is_story sec = true →
  (index, slide) ∈ zip (seq 0 (length (SmoothScrollAnimations.slides sec)))
                       (SmoothScrollAnimations.slides sec) →
  gt_fin (SmoothScrollAnimations.slideProgress (sectionProgress lay sec) index)
         (3 # 10) = true →
  n ∈ char_spans d slide →
  "revealed" ∈ classes (SmoothScrollAnimations.updateAnimations self lay d) !!! n.
Proof.
  rewrite updateAnimations_unfold.
  generalize (SmoothScrollAnimations.sections self) as secs. intros secs. revert d.
  induction secs as [|s secs IH]; intros d Hsec Hst Hin Hgt Hn; [set_solver|].
  cbn [foldl]. apply elem_of_cons in Hsec as [<-|Hsec].
  - clear IH.
    assert ("revealed" ∈ classes (SmoothScrollAnimations.animateSection sec
                                    (sectionProgress lay sec) d) !!! n) as H.
    { unfold SmoothScrollAnimations.animateSection. rewrite Hst.
      apply (fold_animateSlide_marks _ _ _ index slide); assumption. }
    revert H. generalize (SmoothScrollAnimations.animateSection sec
                            (sectionProgress lay sec) d).
    induction secs as [|s secs IH]; intros d' H; cbn [foldl]; [exact H|].
    apply IH, animateSection_grows, H.
  - apply IH; try assumption.
    destruct (animateSection_keeps s (sectionProgress lay s) d) as [-> _]. exact Hn.
Qed.

Lemma pass_settled st lay d : settled st lay (pass st lay d).
Proof.
  unfold pass.
  set (d1 := ProgressiveScrollReveal.updateScrollProgress lay d).
  set (d2 := ProgressiveScrollReveal.checkElements (Page.progressiveReveal st) lay d1).
  set (d3 := SmoothScrollAnimations.updateAnimations (Page.smoothAnimations st) lay d2).
  set (d4 := ScrollReveal3D.checkElements (Page.scrollReveal st) lay d3).
  assert (grows (classes d2) (classes d4)) as Hg.
  { intros c n H. apply scrollReveal3D_checkElements_elem. left.
    apply updateAnimations_grows, H. }
  assert (char_spans d3 = char_spans d2) as Hs3 by apply updateAnimations_keeps.
  assert (char_spans d4 = char_spans d3) as Hs4 by apply scrollReveal3D_checkElements_keeps.
  assert (char_spans d2 = char_spans d1) as Hs2 by apply progressive_checkElements_keeps.
  split; [|split; [|split; [|split]]].
  - intros n Hn Hv. apply Hg, progressive_checkElements_elem. auto.
  - intros e n He Hv Hn. apply Hg, progressive_checkElements_elem.
    right. right. split; [reflexivity|]. right. exists e.
    rewrite Hs4, Hs3, Hs2 in Hn. auto.
  - intros n Hn Hv. apply Hg, progressive_checkElements_elem. auto 6.
  - intros sec index slide n Hsec Hst Hin Hgt Hn.
    apply scrollReveal3D_checkElements_elem. left.
    apply (updateAnimations_marks _ _ _ sec index slide); try assumption.
    rewrite Hs4, Hs3 in Hn. exact Hn.
  - intros e He Hv. apply scrollReveal3D_checkElements_elem. auto.
Qed.

(** *** A pass over a settled document *)

Lemma animateSlide_settled progress d index slide :
  (gt_fin (SmoothScrollAnimations.slideProgress progress index) (3 # 10) = true →
   ∀ n, n ∈ char_spans d slide → "revealed" ∈ classes d !!! n) →
  same_marks d (SmoothScrollAnimations.animateSlide progress d index slide).
Proof.
  intros H. unfold SmoothScrollAnimations.animateSlide.
  destruct (gt_fin _ 0); [|reflexivity].
  destruct (gt_fin _ (3 # 10)); [|reflexivity].
  unfold same_marks.
  cbn [classes set_classes set_pending char_spans analytics scrollProgress].
  rewrite add_all_present by (apply H; reflexivity). repeat split.
Qed.

Lemma fold_animateSlide_settled progress zs : ∀ d,
  (∀ index slide n, (index, slide) ∈ zs →
     gt_fin (SmoothScrollAnimations.slideProgress progress index) (3 # 10) = true →
     n ∈ char_spans d slide → "revealed" ∈ classes d !!! n) →
  same_marks d (foldl (λ d '(index, slide),
                         SmoothScrollAnimations.animateSlide progress d index slide) d zs).
Proof.
  induction zs as [|[i s] zs IH]; intros d H; cbn [foldl]; [reflexivity|].
  assert (same_marks d (SmoothScrollAnimations.animateSlide progress d i s)) as Hstep.
  { apply animateSlide_settled. intros Hgt n Hn. apply (H i s); [set_solver | exact Hgt | exact Hn]. }
  etransitivity; [exact Hstep|]. apply IH.
  intros index slide n Hin Hgt Hn.
  destruct Hstep as (Hc & Hs & _). rewrite Hc. rewrite Hs in Hn.
  apply (H index slide); [set_solver | exact Hgt | exact Hn].
Qed.

Lemma updateAnimations_settled self lay d :
  (∀ sec index slide n,
     sec ∈ SmoothScrollAnimations.sections self →
     SmoothScrollAnimations.is_story sec = true →
     (index, slide) ∈ zip (seq 0 (length (SmoothScrollAnimations.slides sec)))
                          (SmoothScrollAnimations.slides sec) →
     gt_fin (SmoothScrollAnimations.slideProgress (sectionProgress lay sec) index)
            (3 # 10) = true →
     n ∈ char_spans d slide → "revealed" ∈ classes d !!! n) →
  same_marks d (SmoothScrollAnimations.updateAnimations self lay d).
Proof.
  rewrite updateAnimations_unfold.
  generalize (SmoothScrollAnimations.sections self) as secs. intros secs. revert d.
  induction secs as [|s secs IH]; intros d H; cbn [foldl]; [reflexivity|].
  assert (same_marks d (SmoothScrollAnimations.animateSection s (sectionProgress lay s) d))
    as Hstep.
  { unfold SmoothScrollAnimations.animateSection.
    destruct (SmoothScrollAnimations.is_story s) eqn:Hst; [|reflexivity].
    apply fold_animateSlide_settled. intros index slide n Hin Hgt Hn.
    apply (H s index slide); [set_solver | exact Hst | exact Hin | exact Hgt | exact Hn]. }
  etransitivity; [exact Hstep|]. apply IH.
  intros sec index slide n Hsec Hst Hin Hgt Hn.
  destruct Hstep as (Hc & Hs & _). rewrite Hc. rewrite Hs in Hn.
  apply (H sec index slide); [set_solver | exact Hst | exact Hin | exact Hgt | exact Hn].
Qed.

Lemma scrollReveal3D_checkElements_settled self lay d :
  (∀ e, e ∈ ScrollReveal3D.elements self →
        ScrollReveal3D.isInViewport self (rect lay e) = true →
        "revealed" ∈ classes d !!! e) →
  ScrollReveal3D.checkElements self lay d = d.
Proof.
  unfold ScrollReveal3D.checkElements.
  generalize (ScrollReveal3D.elements self) as es. intros es.
  induction es as [|e es IH]; intros H; cbn [foldl]; [reflexivity|].
  destruct (ScrollReveal3D.isInViewport self (rect lay e)) eqn:E.
  - unfold ScrollReveal3D.revealElement at 2.
    assert (has_class "revealed" e (classes d) = true) as ->
      by (apply has_class_true, H; [set_solver | exact E]).
    cbn [negb]. apply IH. intros e' He'. apply H. set_solver.
  - apply IH. intros e' He'. apply H. set_solver.
Qed.

Lemma progressive_checkElements_settled self lay d :
  (∀ n, n ∈ ProgressiveScrollReveal.elementsToReveal self →
        ProgressiveScrollReveal.isInViewport lay n (1 # 10) = true →
        "in-view" ∈ classes d !!! n) →
  (∀ e n, e ∈ ProgressiveScrollReveal.charElements self →
          ProgressiveScrollReveal.isInViewport lay e (2 # 10) = true →
          n ∈ char_spans d e → "revealed" ∈ classes d !!! n) →
  (∀ n, n ∈ ProgressiveScrollReveal.textLines self →
        ProgressiveScrollReveal.isInViewport lay n (1 # 10) = true →
        "revealed" ∈ classes d !!! n) →
  ProgressiveScrollReveal.checkElements self lay d = d.
Proof.
  intros H1 H2 H3. unfold ProgressiveScrollReveal.checkElements.
  rewrite (fold_add_class_closed "in-view"
             (λ e, ProgressiveScrollReveal.isInViewport lay e (1 # 10))) by exact H1.
  rewrite (fold_add_all_closed
             (λ e, ProgressiveScrollReveal.isInViewport lay e (2 # 10)))
    by (intros e He Hv n Hn; apply (H2 e n); assumption).
  apply (fold_add_class_closed "revealed"
           (λ e, ProgressiveScrollReveal.isInViewport lay e (1 # 10))), H3.
Qed.

Lemma updateScrollProgress_fixed lay d :
  scrollProgress (ProgressiveScrollReveal.updateScrollProgress lay d) = scrollProgress d →
  ProgressiveScrollReveal.updateScrollProgress lay d = d.
Proof.
  unfold ProgressiveScrollReveal.updateScrollProgress.
  destruct d as [cls sp tl [w|] pd an]; cbn; [|reflexivity].
  intros H. rewrite H. reflexivity.
Qed.

Lemma updateScrollProgress_after lay d' d0 :
  scrollProgress d' = scrollProgress (ProgressiveScrollReveal.updateScrollProgress lay d0) →
  scrollProgress (ProgressiveScrollReveal.updateScrollProgress lay d') = scrollProgress d'.
Proof.
  unfold ProgressiveScrollReveal.updateScrollProgress.
  destruct (scrollProgress d0) eqn:E0; cbn; intros H; [|rewrite E0 in H];
    rewrite H; cbn; [rewrite assign_width_twice; reflexivity | exact H].
Qed.

Lemma pass_scrollProgress st lay d :
  scrollProgress (pass st lay d) =
  scrollProgress (ProgressiveScrollReveal.updateScrollProgress lay d).
Proof.
  unfold pass.
  destruct (scrollReveal3D_checkElements_keeps (Page.scrollReveal st) lay
              (SmoothScrollAnimations.updateAnimations (Page.smoothAnimations st) lay
                 (ProgressiveScrollReveal.checkElements (Page.progressiveReveal st) lay
                    (ProgressiveScrollReveal.updateScrollProgress lay d)))) as [_ ->].
  destruct (updateAnimations_keeps (Page.smoothAnimations st) lay
              (ProgressiveScrollReveal.checkElements (Page.progressiveReveal st) lay
                 (ProgressiveScrollReveal.updateScrollProgress lay d))) as [_ ->].
  apply progressive_checkElements_keeps.
Qed.

Lemma settled_pass st lay d :
  settled st lay d →
  scrollProgress (ProgressiveScrollReveal.updateScrollProgress lay d) = scrollProgress d →
  same_marks d (pass st lay d).
Proof.
  intros (H1 & H2 & H3 & H4 & H5) Hsp. unfold pass.
  rewrite (updateScrollProgress_fixed lay d Hsp).
  rewrite (progressive_checkElements_settled _ lay d H1 H2 H3).
  assert (same_marks d (SmoothScrollAnimations.updateAnimations
                          (Page.smoothAnimations st) lay d)) as Hm
    by (apply updateAnimations_settled, H4).
  rewrite scrollReveal3D_checkElements_settled; [exact Hm|].
  intros e He Hv. destruct Hm as (-> & _). apply H5; assumption.
Qed.

Lemma pass_twice st lay d : same_marks (pass st lay d) (pass st lay (pass st lay d)).
Proof.
  apply settled_pass; [apply pass_settled|].
  apply (updateScrollProgress_after lay _ d), pass_scrollProgress.
Qed.

(** X16.  A pass of the scroll systems is idempotent on what it
    marks: after a scroll event, the animation-frame callback it requested
    (or a further scroll event) at the same layout adds no class, reports
    nothing more to analytics and leaves the width of the scroll progress
    bar as it is.  (It does arm the line timeouts of the story slides
    again.) *)
Theorem second_pass_changes_no_mark (st : Page.State) (lay : Layout) :
  let st1 := Page.step st (Page.Scroll lay) in
  same_marks (Page.doc st1) (Page.doc (Page.step st1 (Page.Frame lay))) ∧
  same_marks (Page.doc st1) (Page.doc (Page.step st1 (Page.Scroll lay))).
Proof.
  cbn zeta.
  assert (Page.doc (Page.step st (Page.Scroll lay)) = pass st lay (Page.doc st)) as Hd
    by reflexivity.
  split.
  - change (Page.doc (Page.step (Page.step st (Page.Scroll lay)) (Page.Frame lay)))
      with (pass st lay (Page.doc (Page.step st (Page.Scroll lay)))).
    rewrite Hd. apply pass_twice.
  - change (Page.doc (Page.step (Page.step st (Page.Scroll lay)) (Page.Scroll lay)))
      with (pass st lay (Page.doc (Page.step st (Page.Scroll lay)))).
    rewrite Hd. apply pass_twice.
Qed.

(** The timeouts are armed by every pass: after the scroll event and its
    animation frame the line of the sample page waits twice. *)
Example second_pass_arms_the_timeouts_again :
  pending (Page.doc (Page.run reveal_page [Page.Scroll story_section_in_view;
                                           Page.Frame story_section_in_view])) = [0; 0]%nat.
Proof. vm_compute. reflexivity. Qed.

End PassTwice.

(** ** Newsletter: the submit listeners *)

Section NewsletterListeners.
Import Newsletter.

Lemma iter_succ {A} (f : A → A) k x : Nat.iter (S k) f x = Nat.iter k f (f x).
Proof. induction k as [|k IH]; [reflexivity|]. cbn in *. rewrite IH. reflexivity. Qed.

Ltac newsletter_step :=
  unfold exec, handleSubmit_begin, handleSubmit_resume, success_timeout, showSuccessMessage,
    showErrorMessage, closeModal, resetForm, trackEvent, bind, get, modify, throw; cbn.

Lemma dispatch_submit_result k : ∀ w,
  form w = Some EmailField →
  let w' := Nat.iter k (exec handleSubmit_begin) w in
  modal w' = modal w ∧ form w' = Some EmailField ∧
  submit_listeners w' = submit_listeners w ∧
  awaiting w' = awaiting w + k ∧ closing w' = closing w ∧
  events w' = (events w ++ replicate k "newsletter_signup_attempt")%list.
Proof.
  induction k as [|k IH]; intros w Hf.
  - cbn. rewrite Nat.add_0_r, app_nil_r. repeat split; auto.
  - rewrite iter_succ. cbn zeta.
    assert (form (exec handleSubmit_begin w) = Some EmailField) as Hf'
      by (newsletter_step; rewrite Hf; cbn; exact Hf).
    destruct (IH _ Hf') as (H1 & H2 & H3 & H4 & H5 & H6).
    rewrite H1, H2, H3, H4, H5, H6.
    newsletter_step. rewrite Hf. cbn.
    rewrite <- app_assoc. cbn. repeat split; try reflexivity; lia.
Qed.

Lemma promises_resolve_result k : ∀ w,
  is_Some (form w) →
  let w' := Nat.iter k (λ w, exec handleSubmit_resume (set_awaiting (pred (awaiting w)) w)) w in
  modal w' = modal w ∧
  form w' = match k with 0 => form w | S _ => Some SuccessMessage end ∧
  submit_listeners w' = submit_listeners w ∧
  awaiting w' = awaiting w - k ∧ closing w' = closing w + k ∧
  events w' = (events w ++ replicate k "newsletter_signup_success")%list.
Proof.
  induction k as [|k IH]; intros w [f Hf].
  - cbn. rewrite Nat.add_0_r, Nat.sub_0_r, app_nil_r. repeat split; auto.
  - rewrite iter_succ. cbn zeta.
    set (w1 := exec handleSubmit_resume (set_awaiting (pred (awaiting w)) w)).
    assert (modal w1 = modal w ∧ form w1 = Some SuccessMessage ∧
            submit_listeners w1 = submit_listeners w ∧
            awaiting w1 = pred (awaiting w) ∧ closing w1 = S (closing w) ∧
            events w1 = (events w ++ ["newsletter_signup_success"])%list)
      as (G1 & G2 & G3 & G4 & G5 & G6).
    { subst w1. newsletter_step. rewrite Hf. cbn. repeat split. }
    destruct (IH w1) as (H1 & H2 & H3 & H4 & H5 & H6); [rewrite G2; eauto|].
    rewrite H1, H2, H3, H4, H5, H6, G1, G2, G3, G4, G5, G6.
    rewrite <- app_assoc. cbn.
    repeat split; try reflexivity; try lia. destruct k; reflexivity.
Qed.

Lemma timeouts_fire_result k : ∀ w,
  is_Some (modal w) → is_Some (form w) →
  let w' := Nat.iter k (λ w, exec success_timeout (set_closing (pred (closing w)) w)) w in
  is_Some (modal w') ∧
  form w' = match k with 0 => form w | S _ => Some EmailField end ∧
  submit_listeners w' = submit_listeners w + k ∧
  awaiting w' = awaiting w ∧ closing w' = closing w - k ∧
  events w' = (events w ++ replicate k "newsletter_modal_close")%list.
Proof.
  induction k as [|k IH]; intros w [m Hm] [f Hf].
  - cbn. rewrite Nat.add_0_r, Nat.sub_0_r, app_nil_r. repeat split; eauto.
  - rewrite iter_succ. cbn zeta.
    set (w1 := exec success_timeout (set_closing (pred (closing w)) w)).
    assert (is_Some (modal w1) ∧ form w1 = Some EmailField ∧
            submit_listeners w1 = S (submit_listeners w) ∧
            awaiting w1 = awaiting w ∧ closing w1 = pred (closing w) ∧
            events w1 = (events w ++ ["newsletter_modal_close"])%list)
      as (G1 & G2 & G3 & G4 & G5 & G6).
    { subst w1. newsletter_step. rewrite Hm. cbn. rewrite Hf. cbn. repeat split. eauto. }
    destruct (IH w1) as (H1 & H2 & H3 & H4 & H5 & H6); [exact G1 | rewrite G2; eauto|].
    rewrite H2, H3, H4, H5, H6, G2, G3, G4, G5, G6.
    rewrite <- app_assoc. cbn.
    repeat split; try reflexivity; try lia; try exact H1. destruct k; reflexivity.
Qed.

Lemma submit_round_result w :
  ready w →
  ready (submit_round w) ∧
  submit_listeners (submit_round w) = 2 * submit_listeners w ∧
  events (submit_round w) =
    (events w ++ replicate (submit_listeners w) "newsletter_signup_attempt"
              ++ replicate (submit_listeners w) "newsletter_signup_success"
              ++ replicate (submit_listeners w) "newsletter_modal_close")%list.
Proof.
  intros (Hm & Hf & Ha & Hc). unfold submit_round.
  destruct (dispatch_submit_result (submit_listeners w) w Hf) as (A1 & A2 & A3 & A4 & A5 & A6).
  fold (dispatch_submit w) in *. set (w1 := dispatch_submit w) in *.
  destruct (promises_resolve_result (awaiting w1) w1) as (B1 & B2 & B3 & B4 & B5 & B6);
    [rewrite A2; eauto|].
  fold (promises_resolve w1) in *. set (w2 := promises_resolve w1) in *.
  destruct (timeouts_fire_result (closing w2) w2) as (C1 & C2 & C3 & C4 & C5 & C6).
  { rewrite B1, A1. exact Hm. }
  { rewrite B2. destruct (awaiting w1); [rewrite A2|]; eauto. }
  fold (timeouts_fire w2) in *. set (w3 := timeouts_fire w2) in *.
  assert (awaiting w1 = submit_listeners w) as E1 by lia.
  assert (closing w2 = submit_listeners w) as E2 by lia.
  rewrite E1 in *. rewrite E2 in *.
  split; [|split].
  - split; [exact C1|]. split; [|split; lia].
    rewrite C2. destruct (submit_listeners w); [|reflexivity]. rewrite B2, A2. reflexivity.
  - lia.
  - rewrite C6, B6, A6, <- !app_assoc. reflexivity.
Qed.

(** X17.  [resetForm] adds a [submit] listener to a form that still
    has its earlier ones, and every listener that handles a submit ends
    in a [resetForm].  On a page with the modal and the form, after [n]
    completed sign-ups the form therefore has [2 ^ n] submit listeners,
    and the next submit is handled [2 ^ n] times: that many sign-up
    attempts are recorded for one click. *)
Theorem newsletter_submit_listeners_double (pg : Page) (n : nat) :
  is_Some (page_modal pg) → page_form pg = Some EmailField →
  let w := Nat.iter n submit_round (new pg) in
  ready w ∧
  submit_listeners w = 2 ^ n ∧
  events (dispatch_submit w) =
    (events w ++ replicate (2 ^ n) "newsletter_signup_attempt")%list.
Proof.
  intros Hm Hf. cbn zeta.
  assert (ready (Nat.iter n submit_round (new pg)) ∧
          submit_listeners (Nat.iter n submit_round (new pg)) = 2 ^ n) as [Hr Hl].
  { induction n as [|n [IHr IHl]].
    - cbn. rewrite Hf. repeat split; auto.
    - rewrite Nat.iter_succ. destruct (submit_round_result _ IHr) as (Hr & Hl & _).
      split; [exact Hr|]. rewrite Hl, IHl. cbn. lia. }
  split; [exact Hr|]. split; [exact Hl|].
  destruct Hr as (_ & Hform & _).
  destruct (dispatch_submit_result (submit_listeners (Nat.iter n submit_round (new pg)))
              _ Hform) as (_ & _ & _ & _ & _ & He).
  unfold dispatch_submit. rewrite He, Hl. reflexivity.
Qed.

(** After two sign-ups on the sample page. *)
Lemma newsletter_third_submit_is_handled_four_times :
  let w := Nat.iter 2 submit_round (new sample_page) in
  ready w ∧
  submit_listeners w = 2 ^ 2 ∧
  events (dispatch_submit w) =
    (events w ++ replicate (2 ^ 2) "newsletter_signup_attempt")%list.
Proof.
  apply (newsletter_submit_listeners_double sample_page 2); [cbn; eauto | reflexivity].
Defined.

End NewsletterListeners.

(** ** The throttled scroll tracker *)

Section Debounce.
Import GameAnalytics.
Local Open Scope Z_scope.

Lemma call_idle wait t w : idle t w → armed wait t (call wait t w).
Proof.
  destruct w as [n to sch nx r]. intros (Hn & Hr & Ht & Hs). cbn in *. subst.
  unfold call, advance, executedFunction, armed, set_timeout. cbn.
  split; [lia|]. split; [reflexivity|]. eexists. split; [reflexivity|].
  f_equal. f_equal. lia.
Qed.

Lemma call_armed wait t t' w :
  armed wait t w → t ≤ t' < t + wait → armed wait t' (call wait t' w).
Proof.
  destruct w as [n to sch nx r]. intros (Hn & Hr & id & Ht & Hs) Ht'. cbn in *. subst.
  unfold call, advance, executedFunction. cbn.
  destruct (Z.leb_spec (t + wait) t') as [Hle|Hlt]; [lia|]. cbn.
  rewrite decide_False by (intros H'; apply H'; reflexivity). cbn.
  unfold armed, set_timeout. cbn.
  split; [lia|]. split; [reflexivity|]. eexists. split; [reflexivity|].
  f_equal. f_equal. lia.
Qed.

Lemma advance_armed wait t T w :
  0 < wait → armed wait t w → t ≤ T →
  ran (advance T w) = if t + wait <=? T then [t + wait] else [].
Proof.
  destruct w as [n to sch nx r]. intros Hw (Hn & Hr & id & Ht & Hs) HT. cbn in *. subst.
  unfold advance. cbn.
  destruct (Z.leb_spec (t + wait) T) as [Hle|Hlt]; cbn; [|reflexivity].
  f_equal. lia.
Qed.

Lemma calls_burst wait gaps : ∀ t w,
  idle t w ∨ (∃ t0, armed wait t0 w ∧ t0 ≤ t < t0 + wait) →
  Forall (λ gap, 0 ≤ gap < wait) gaps →
  armed wait (burst_end t gaps) (calls wait w (burst t gaps)).
Proof.
  induction gaps as [|gap gaps IH]; intros t w Hw Hgaps.
  - cbn. destruct Hw as [Hi|(t0 & Ha & Ht)]; [apply call_idle, Hi|].
    eapply call_armed; eassumption.
  - cbn [burst calls foldl burst_end]. inversion Hgaps as [|? ? Hgap Hrest]; subst.
    apply IH; [|exact Hrest]. right. exists t. split; [|lia].
    destruct Hw as [Hi|(t0 & Ha & Ht)]; [apply call_idle, Hi|].
    eapply call_armed; eassumption.
Qed.

(** X18.  [throttle(func, wait)] postpones: every call cancels the
    waiting timeout and sets a new one.  During a burst of calls, each
    less than [wait] after the one before, [func] does not run at all,
    however long the burst lasts; it runs once, [wait] after the last
    call of the burst.  (The scroll-depth tracker, wrapped with a wait of
    1000 ms, therefore runs only once scrolling has paused for a second.) *)
Theorem throttle_runs_once_after_the_burst (wait t T : Z) (gaps : list Z) :
  0 < wait → Forall (λ gap, 0 ≤ gap < wait) gaps → burst_end t gaps ≤ T →
  ran (calls wait (throttle t) (burst t gaps)) = [] ∧
  ran (advance T (calls wait (throttle t) (burst t gaps))) =
    if burst_end t gaps + wait <=? T then [burst_end t gaps + wait] else [].
Proof.
  intros Hw Hgaps HT.
  assert (armed wait (burst_end t gaps) (calls wait (throttle t) (burst t gaps))) as Ha.
  { apply calls_burst; [|exact Hgaps]. left. repeat split. cbn. lia. }
  split; [apply Ha|]. apply advance_armed; assumption.
Qed.

(** Four scroll events within 2.2 seconds, seen five seconds after the
    first. *)
Lemma throttled_tracker_runs_once_after_scrolling :
  ran (calls 1000 (throttle 0) (burst 0 [300; 900; 999])) = [] ∧
  ran (advance 5000 (calls 1000 (throttle 0) (burst 0 [300; 900; 999]))) =
    if burst_end 0 [300; 900; 999] + 1000 <=? 5000
    then [burst_end 0 [300; 900; 999] + 1000] else [].
Proof.
  apply (throttle_runs_once_after_the_burst 1000 0 5000 [300; 900; 999]).
  - lia.
  - repeat constructor; lia.
  - cbn. lia.
Defined.

Example throttled_tracker_sample :
  ran (advance 5000 (calls 1000 (throttle 0) (burst 0 [300; 900; 999]))) = [3199] ∧
  ran (advance 3198 (calls 1000 (throttle 0) (burst 0 [300; 900; 999]))) = [].
Proof. split; vm_compute; reflexivity. Qed.

End Debounce.

(** ** Scroll depth *)

Section ScrollDepthMilestones.
Import DOM GameAnalytics.
Local Open Scope Z_scope.

Lemma ge_fin_down x (p q : Z) :
  q ≤ p → ge_fin x (inject_Z p) = true → ge_fin x (inject_Z q) = true.
Proof.
  intros Hqp. destruct x as [v| | |]; cbn; try (intros; congruence).
  rewrite !Qle_bool_iff. intros H. eapply Qle_trans; [|exact H].
  rewrite <- Zle_Qle. exact Hqp.
Qed.

Lemma ge_fin_first_few x :
  first_few (ge_fin x (inject_Z 25)) (ge_fin x (inject_Z 50))
            (ge_fin x (inject_Z 75)) (ge_fin x (inject_Z 100)).
Proof.
  repeat split; apply ge_fin_down; lia.
Qed.

Lemma track_percentage_eq s st dh T evs p :
  track_percentage s st dh {| trackedPercentages := T; scroll_depth := evs |} p =
  if ge_fin s (inject_Z p) then
    if bool_decide (p ∈ T) then {| trackedPercentages := T; scroll_depth := evs |}
    else {| trackedPercentages := {[p]} ∪ T;
            scroll_depth := (evs ++ [{| percentage := p; scrollTop := st;
                                        docHeight := dh |}])%list |}
  else {| trackedPercentages := T; scroll_depth := evs |}.
Proof.
  unfold track_percentage. cbn [trackedPercentages scroll_depth].
  destruct (ge_fin s (inject_Z p)), (bool_decide (p ∈ T)); reflexivity.
Qed.

Ltac track_step :=
  rewrite track_percentage_eq;
  repeat match goal with
         | H : ge_fin _ _ = _ |- _ => rewrite H
         end;
  cbv iota;
  try match goal with
      | |- context [bool_decide (?p ∈ ?T)] =>
          first [ rewrite (bool_decide_eq_true_2 (p ∈ T)) by (cbn; set_solver)
                | rewrite (bool_decide_eq_false_2 (p ∈ T)) by (cbn; set_solver by lia) ]
      end;
  cbv iota.

Lemma trackScroll_depth_inv lay w m25 m50 m75 m100 :
  depth_inv m25 m50 m75 m100 w →
  depth_inv (m25 || ge_fin (scrollPercent lay) (inject_Z 25))
            (m50 || ge_fin (scrollPercent lay) (inject_Z 50))
            (m75 || ge_fin (scrollPercent lay) (inject_Z 75))
            (m100 || ge_fin (scrollPercent lay) (inject_Z 100))
            (trackScroll lay w).
Proof.
  intros (Hff & Hev & Htr).
  pose proof (ge_fin_first_few (scrollPercent lay)) as Hg.
  change (trackScroll lay w)
    with (foldl (track_percentage (scrollPercent lay) (pageYOffset lay)
                   (scrollHeight lay - innerHeight lay)%Q) w scrollPercentages).
  destruct w as [T evs]. cbn [scroll_depth trackedPercentages] in Hev, Htr. subst T.
  unfold scrollPercentages. cbn [foldl].
  destruct Hff as (F1 & F2 & F3). destruct Hg as (G1 & G2 & G3).
  destruct (ge_fin (scrollPercent lay) (inject_Z 25)) eqn:E25,
           (ge_fin (scrollPercent lay) (inject_Z 50)) eqn:E50,
           (ge_fin (scrollPercent lay) (inject_Z 75)) eqn:E75,
           (ge_fin (scrollPercent lay) (inject_Z 100)) eqn:E100;
    try (specialize (G1 eq_refl); discriminate G1);
    try (specialize (G2 eq_refl); discriminate G2);
    try (specialize (G3 eq_refl); discriminate G3);
    destruct m25, m50, m75, m100;
    try (specialize (F1 eq_refl); discriminate F1);
    try (specialize (F2 eq_refl); discriminate F2);
    try (specialize (F3 eq_refl); discriminate F3);
    clear F1 F2 F3 G1 G2 G3;
    do 4 track_step;
    (split; [repeat split; intros; first [reflexivity | discriminate]|]);
    cbn [scroll_depth trackedPercentages orb];
    (split; [rewrite ?map_app, Hev; reflexivity | cbn; set_solver]).
Qed.

Lemma reached_snoc lays lay p :
  reached (lays ++ [lay]) p = reached lays p || ge_fin (scrollPercent lay) (inject_Z p).
Proof.
  unfold reached. rewrite existsb_app. cbn. rewrite orb_false_r. reflexivity.
Qed.

(** X19.  After any number of runs of the scroll tracker, at whatever
    layouts, the [scroll_depth] events it has reported are exactly the
    milestones among 25, 50, 75 and 100 that some run has reached (its
    rounded scroll percentage was at least the milestone), each once and
    in ascending order; a milestone is never reported before a lower
    one. *)
Theorem scroll_depth_reports_each_milestone_once (lays : list Layout) :
  map percentage (scroll_depth (tracked_after lays)) =
    milestones (reached lays 25) (reached lays 50) (reached lays 75) (reached lays 100) ∧
  first_few (reached lays 25) (reached lays 50) (reached lays 75) (reached lays 100).
Proof.
  assert (depth_inv (reached lays 25) (reached lays 50) (reached lays 75)
                    (reached lays 100) (tracked_after lays)) as (H1 & H2 & _).
  { induction lays as [|lay lays IH] using rev_ind.
    - repeat split; intros; discriminate.
    - unfold tracked_after. rewrite foldl_app. cbn [foldl]. rewrite !reached_snoc.
      apply trackScroll_depth_inv, IH. }
  split; assumption.
Qed.
(** The percentage is rounded first: scrolled down 343 of 1400 pixels
    (24.5%), the page counts as scrolled to 25%; scrolling back up and
    down again reports nothing more. *)
Example scroll_depth_rounds_up :
  map percentage
      (scroll_depth (tracked_after [Examples.layout 600 343 2000 0 Examples.far_below
                                      Examples.far_below;
                                    Examples.layout 600 0 2000 0 Examples.far_below
                                      Examples.far_below;
                                    Examples.layout 600 343 2000 0 Examples.far_below
                                      Examples.far_below])) = [25].
Proof. vm_compute. reflexivity. Qed.

End ScrollDepthMilestones.

(** ** The analytics user id *)

Section UserId.
Import GameAnalytics.

(** X20.  [getOrCreateUserId] always returns a non-empty id, and once it
    has run the id is settled: every later call, whatever id it would
    generate, returns the same id and leaves the storage as it is.  (It
    replaces a stored empty string, which counts as no id.) *)
Theorem user_id_is_created_once (stamp stamp' : string) (localStorage : Storage) :
  (getOrCreateUserId stamp localStorage).1 ≠ "" ∧
  getOrCreateUserId stamp' (getOrCreateUserId stamp localStorage).2 =
    getOrCreateUserId stamp localStorage.
Proof.
  unfold getOrCreateUserId.
  destruct (localStorage !! "game_user_id") as [[|c rest]|] eqn:E; cbn.
  - rewrite lookup_insert_eq. cbn. split; [discriminate | reflexivity].
  - rewrite E. split; [discriminate | reflexivity].
  - rewrite lookup_insert_eq. cbn. split; [discriminate | reflexivity].
Qed.

Example user_id_replaces_an_empty_one :
  getOrCreateUserId "1700000000000_k3j9x2m1q" {["game_user_id" := ""]} =
    ("user_1700000000000_k3j9x2m1q",
     {["game_user_id" := "user_1700000000000_k3j9x2m1q"]}).
Proof. vm_compute. reflexivity. Qed.

End UserId.

(** ** The API client *)

Section ApiClient.
Import GameAPI GameAPIClient.

Lemma new_after_string other s c :
  new (localStorage (setToken other (VString s) c)) = setToken other (VString s) c.
Proof.
  unfold new, setToken. cbn. rewrite lookup_insert_eq. reflexivity.
Qed.

Lemma new_after_clear c : new (localStorage (clearToken c)) = clearToken c.
Proof.
  unfold new, clearToken. cbn. rewrite lookup_delete_eq. reflexivity.
Qed.

Lemma handler_reload other k c :
  stores_a_string k = true → new (localStorage c) = c →
  new (localStorage (handler other k c)) = handler other k c.
Proof.
  intros Hk Hc. destruct k as [t| |t|]; cbn [handler stores_a_string] in *.
  - destruct t; try discriminate Hk. apply new_after_string.
  - apply new_after_clear.
  - unfold login. destruct (truthy t) eqn:Ht; [|exact Hc].
    cbn in Hk. destruct t; try discriminate Hk. apply new_after_string.
  - apply new_after_clear.
Qed.

(** X21.  The client after a reload is the client before it: starting
    from [new GameAPI()] over any storage, after any sequence of
    [setToken], [clearToken], [login] and [logout] calls that store only
    strings, a new client constructed over the storage left behind has
    the same token, so [isAuthenticated] gives the same answer on both
    sides of a page load. *)
Theorem client_token_survives_reload
    (other : value → string) (storage : Storage) (ks : list call) :
  forallb stores_a_string ks = true →
  let c := foldl (λ c k, handler other k c) (new storage) ks in
  new (localStorage c) = c ∧
  isAuthenticated (new (localStorage c)) = isAuthenticated c.
Proof.
  intros Hks. cbn zeta.
  assert (new (localStorage (foldl (λ c k, handler other k c) (new storage) ks)) =
          foldl (λ c k, handler other k c) (new storage) ks) as H.
  { assert (new (localStorage (new storage)) = new storage) as H0 by reflexivity.
    revert H0 Hks. generalize (new storage) as c.
    induction ks as [|k ks IH]; intros c Hc Hks; [exact Hc|].
    cbn [forallb] in Hks. apply andb_true_iff in Hks as [Hk Hks].
    cbn [foldl]. apply IH; [|exact Hks]. apply handler_reload; assumption. }
  split; [exact H|]. rewrite H. reflexivity.
Qed.

(** A login, a logout and a second login over an empty storage. *)
Lemma client_token_survives_reload_after_login :
  let c := foldl (λ c k, handler other_sample k c) (new ∅)
                 [Login (VString "a.b.c"); Logout; Login VUndefined;
                  Login (VString "d.e.f")] in
  new (localStorage c) = c ∧
  isAuthenticated (new (localStorage c)) = isAuthenticated c.
Proof.
  apply (client_token_survives_reload other_sample ∅). reflexivity.
Defined.

(** A token that is not a string comes back as one: after
    [setToken(null)] the client is signed out, and after a reload it
    holds the string "null" and counts as signed in. *)
Example null_token_signs_in_after_reload :
  isAuthenticated (setToken other_sample VNull (new ∅)) = false ∧
  isAuthenticated (new (localStorage (setToken other_sample VNull (new ∅)))) = true.
Proof. split; vm_compute; reflexivity. Qed.

(** X22.  When the caller passes no [headers], as every method of the
    client does, the request carries [Content-Type: application/json]
    and carries [Authorization: Bearer <token>] exactly when the token is
    truthy.  When the caller passes [headers], they replace the defaults
    instead of being merged into them: the request carries the caller's
    [Content-Type] or none at all. *)
Theorem request_carries_default_or_caller_headers (other : value → string) (c : Client) (options : Options) :
  (headers options = None →
   ∃ h, request_config other c options =
          Normal {| method := method options; body := body options;
                    headers := Some (Some h) |} ∧
        h !! "Content-Type" = Some "application/json" ∧
        h !! "Authorization" =
          (if truthy (token c)
           then Some (String.append "Bearer " (to_string other (token c)))
           else None)) ∧
  (∀ given, headers options = Some (Some given) →
   ∃ h, request_config other c options =
          Normal {| method := method options; body := body options;
                    headers := Some (Some h) |} ∧
        h !! "Content-Type" = given !! "Content-Type" ∧
        ∀ name, name ≠ "Authorization" → h !! name = given !! name).
Proof.
  split.
  - intros Hh. unfold request_config, spread, default_headers. rewrite Hh. cbn.
    destruct (method options), (body options), (truthy (token c));
      eexists; (split; [reflexivity|]); split;
      rewrite ?lookup_insert_ne by discriminate; try reflexivity;
      rewrite ?lookup_insert_eq; reflexivity.
  - intros given Hh. unfold request_config, spread, default_headers. rewrite Hh. cbn.
    destruct (method options), (body options), (truthy (token c));
      eexists; (split; [reflexivity|]); split;
      rewrite ?lookup_insert_ne by discriminate; try reflexivity;
      intros name Hname; rewrite ?lookup_insert_ne by congruence; reflexivity.
Qed.

(** The request of [saveGame], signed in. *)
Lemma request_headers_of_a_post :
  ∃ h, request_config other_sample (new {["access_token" := "a.b.c"]}) (post "{}") =
         Normal {| method := method (post "{}"); body := body (post "{}");
                   headers := Some (Some h) |} ∧
       h !! "Content-Type" = Some "application/json" ∧
       h !! "Authorization" =
         (if truthy (token (new {["access_token" := "a.b.c"]}))
          then Some (String.append "Bearer "
                       (to_string other_sample (token (new {["access_token" := "a.b.c"]}))))
          else None).
Proof.
  apply (request_carries_default_or_caller_headers other_sample (new {["access_token" := "a.b.c"]}) (post "{}")).
  reflexivity.
Defined.

Example caller_headers_lose_the_content_type :
  request_config other_sample (new ∅)
    {| method := Some "POST"; body := Some "{}";
       headers := Some (Some {["X-Requested-With" := "fetch"]}) |} =
  Normal {| method := Some "POST"; body := Some "{}";
            headers := Some (Some {["X-Requested-With" := "fetch"]}) |}.
Proof. reflexivity. Qed.

End ApiClient.

(** ** The user documents *)

Section UserDocuments.
Import firebaseStore.

Ltac lookup_field :=
  repeat first [ rewrite lookup_insert_eq
               | rewrite lookup_insert_ne by discriminate
               | rewrite lookup_empty ].

Lemma username_after_register createdAt lastLogin user fullname username users :
  ∃ d, saveUserData true createdAt lastLogin user (register_data fullname username) users
         !! uid user = Some d ∧
       d !! "username" = Some (FString username) ∧
       d !! "fullname" = Some (FString fullname).
Proof.
  unfold saveUserData. rewrite lookup_insert_eq. eexists. split; [reflexivity|].
  split; apply lookup_union_Some_l, lookup_union_Some_l;
    unfold register_data; lookup_field; reflexivity.
Qed.

Lemma fields_after_login createdAt lastLogin user t users :
  ∃ d, saveUserData true createdAt lastLogin user (login_data t) users !! uid user = Some d ∧
       d !! "username" = Some (FString "") ∧
       d !! "createdAt" = Some (FString createdAt) ∧
       d !! "provider" = Some (FString "email") ∧
       d !! "lastLogin" = Some (FString t) ∧
       ∀ key, key ∉ ["uid"; "email"; "displayName"; "username"; "createdAt";
                     "lastLogin"; "provider"] →
              d !! key = default ∅ (users !! uid user) !! key.
Proof.
  unfold saveUserData. rewrite lookup_insert_eq. eexists. split; [reflexivity|].
  split; [|split; [|split; [|split]]].
  - apply lookup_union_Some_l. rewrite lookup_union_r by (unfold login_data; lookup_field; reflexivity).
    lookup_field. unfold login_data. lookup_field. reflexivity.
  - apply lookup_union_Some_l. rewrite lookup_union_r by (unfold login_data; lookup_field; reflexivity).
    lookup_field. reflexivity.
  - apply lookup_union_Some_l. rewrite lookup_union_r by (unfold login_data; lookup_field; reflexivity).
    lookup_field. unfold login_data. lookup_field. reflexivity.
  - apply lookup_union_Some_l, lookup_union_Some_l. unfold login_data. lookup_field. reflexivity.
  - intros key Hkey. rewrite lookup_union_r; [reflexivity|].
    apply lookup_union_None. split.
    + unfold login_data. rewrite lookup_insert_ne by (intros <-; set_solver). apply lookup_empty.
    + repeat (rewrite lookup_insert_ne by (intros <-; set_solver)). apply lookup_empty.
Qed.

(** X23.  [saveUserData] writes [username: ''] and a new [createdAt]
    whenever the caller passes none, as [login] does, and [setDoc] with
    [merge] writes them over the stored fields.  A username that
    [register] has stored is therefore gone after the same account's next
    login: [checkUsernameExists] found it before and does not find it
    afterwards, [createdAt] is the time of the login, and only fields
    that [saveUserData] does not write, like [fullname], are kept. *)
Theorem login_gives_up_the_username
    (users : collection) (user : User) (fullname username : string)
    (created1 login1 created2 login2 t : string) :
  username ≠ "" →
  checkUsernameExists true username users = false →
  let registered :=
    saveUserData true created1 login1 user (register_data fullname username) users in
  let logged_in := saveUserData true created2 login2 user (login_data t) registered in
  checkUsernameExists true username registered = true ∧
  checkUsernameExists true username logged_in = false ∧
  ∃ d, logged_in !! uid user = Some d ∧
       d !! "username" = Some (FString "") ∧
       d !! "createdAt" = Some (FString created2) ∧
       d !! "fullname" = Some (FString fullname).
Proof.
  intros Hname Hfree. cbn zeta.
  set (registered := saveUserData true created1 login1 user
                       (register_data fullname username) users).
  unfold checkUsernameExists in *.
  apply bool_decide_eq_false in Hfree.
  destruct (username_after_register created1 login1 user fullname username users)
    as (d1 & Hd1 & Hu1 & Hf1).
  fold registered in Hd1.
  destruct (fields_after_login created2 login2 user t registered)
    as (d2 & Hd2 & Hu2 & Hc2 & _ & _ & Hrest).
  split; [|split].
  - apply bool_decide_eq_true. apply (map_Exists_lookup_2 _ _ (uid user) d1); assumption.
  - apply bool_decide_eq_false. intros (i & d & Hi & Hd)%map_Exists_lookup.
    destruct (decide (i = uid user)) as [->|Hne].
    + rewrite Hd2 in Hi. injection Hi as <-. rewrite Hu2 in Hd. congruence.
    + apply Hfree. apply (map_Exists_lookup_2 _ _ i d); [|exact Hd].
      unfold saveUserData in Hi. rewrite lookup_insert_ne in Hi by congruence.
      unfold registered, saveUserData in Hi. rewrite lookup_insert_ne in Hi by congruence.
      exact Hi.
  - exists d2. split; [exact Hd2|]. split; [exact Hu2|]. split; [exact Hc2|].
    rewrite Hrest by set_solver. rewrite Hd1. cbn. exact Hf1.
Qed.

(** The first account of an empty collection. *)
Lemma login_gives_up_the_username_of_the_first_user :
  let registered :=
    saveUserData true "2025-01-01T08:00:00.000Z" "2025-01-01T08:00:00.001Z" sample_user
      (register_data "Lan" "lan") ∅ in
  let logged_in :=
    saveUserData true "2025-02-01T09:00:00.001Z" "2025-02-01T09:00:00.002Z" sample_user
      (login_data "2025-02-01T09:00:00.000Z") registered in
  checkUsernameExists true "lan" registered = true ∧
  checkUsernameExists true "lan" logged_in = false ∧
  ∃ d, logged_in !! uid sample_user = Some d ∧
       d !! "username" = Some (FString "") ∧
       d !! "createdAt" = Some (FString "2025-02-01T09:00:00.001Z") ∧
       d !! "fullname" = Some (FString "Lan").
Proof.
  apply (login_gives_up_the_username ∅ sample_user "Lan" "lan").
  - discriminate.
  - apply bool_decide_eq_false, map_Exists_empty.
Defined.

End UserDocuments.

(** ** The payment dialog *)

Section PaymentPackages.
Import PaymentSystem.



Example plain_vip_card_opens_its_package :
  click {| featured := false; badge := Some "vip" |} createPaymentModal =
    Normal (Some {| packageName := "Gói Tối Thượng"; packagePrice := "500,000";
                    packageIcon := "fas fa-crown"; display := "block";
                    opened := [("vip", "500,000")] |}).
Proof. reflexivity. Qed.

End PaymentPackages.

(** ** The guide's tabs *)

Section GuideTabs.
Import DOM GameplayGuide.

Lemma remove_class_elem c n (cls : nodes) c' n' :
  c' ∈ remove_class c n cls !!! n' ↔ c' ∈ cls !!! n' ∧ ¬ (c' = c ∧ n' = n).
Proof.
  unfold remove_class, remove. destruct (decide (n = n')) as [->|Hne].
  - rewrite lookup_total_insert_eq. set_solver.
  - rewrite lookup_total_insert_ne by exact Hne. set_solver.
Qed.

Lemma remove_all_elem c ns : ∀ (cls : nodes) c' n',
  c' ∈ remove_all c ns cls !!! n' ↔ c' ∈ cls !!! n' ∧ ¬ (c' = c ∧ n' ∈ ns).
Proof.
  unfold remove_all.
  induction ns as [|n ns IH]; intros cls c' n'; cbn [foldl].
  - set_solver.
  - rewrite IH, remove_class_elem. set_solver.
Qed.

Lemma click_result button w :
  exec (click button) w =
    (let cleared := remove_all "active" (tabPanels w)
                      (remove_all "active" (tabButtons w) (classes w)) in
     match by_id w !! id_of (data_tab w button) with
     | Some element =>
         {| tabButtons := tabButtons w; tabPanels := tabPanels w; data_tab := data_tab w;
            by_id := by_id w;
            classes := add_class "active" element (add_class "active" button cleared);
            switched := (switched w ++ [data_tab w button])%list |}
     | None => set_classes (add_class "active" button cleared) w
     end) ∧
  completes (click button) w = bool_decide (is_Some (by_id w !! id_of (data_tab w button))).
Proof.
  unfold exec, completes, click, bind, get, modify, throw. cbn.
  destruct (by_id w !! id_of (data_tab w button)); cbn; split; reflexivity.
Qed.

(** X25.  A click on a tab button whose [data-tab] names one of the
    panels leaves exactly that button, among the buttons, and exactly
    that panel, among the panels, with the class [active], and reports
    the switch.  When no element has the id named by [data-tab], the
    listener throws after it has cleared the marks: the button is
    selected, no panel is active, and nothing is reported. *)
Theorem tab_click_selects_one_tab (w : World) (button : nat) :
  button ∈ tabButtons w →
  (∀ n, n ∈ tabButtons w → n ∉ tabPanels w) →
  let w' := exec (click button) w in
  (∀ panel, by_id w !! id_of (data_tab w button) = Some panel → panel ∈ tabPanels w →
     completes (click button) w = true ∧
     (∀ b, b ∈ tabButtons w → "active" ∈ classes w' !!! b ↔ b = button) ∧
     (∀ p, p ∈ tabPanels w → "active" ∈ classes w' !!! p ↔ p = panel) ∧
     switched w' = (switched w ++ [data_tab w button])%list) ∧
  (by_id w !! id_of (data_tab w button) = None →
     completes (click button) w = false ∧
     (∀ b, b ∈ tabButtons w → "active" ∈ classes w' !!! b ↔ b = button) ∧
     (∀ p, p ∈ tabPanels w → "active" ∉ classes w' !!! p) ∧
     switched w' = switched w).
Proof.
  intros Hb Hdisj. cbn zeta. destruct (click_result button w) as [-> ->].
  split.
  - intros panel -> Hp. cbn [classes switched].
    split; [reflexivity|]. split; [|split; [|reflexivity]].
    + intros b Hbb. rewrite !add_class_elem, !remove_all_elem.
      split; [|intros ->; left; right; auto].
      intros [[[[H Hn1] Hn2]|[_ ->]]|[_ ->]];
        [exfalso; apply Hn1; auto | reflexivity | exfalso; exact (Hdisj _ Hbb Hp)].
    + intros p Hpp. rewrite !add_class_elem, !remove_all_elem.
      split; [|intros ->; right; auto].
      intros [[[[H Hn1] Hn2]|[_ ->]]|[_ ->]];
        [exfalso; apply Hn2; auto | exfalso; exact (Hdisj _ Hb Hpp) | reflexivity].
  - intros ->. cbn [classes switched set_classes].
    split; [reflexivity|]. split; [|split; [|reflexivity]].
    + intros b Hbb. rewrite !add_class_elem, !remove_all_elem.
      split; [|intros ->; right; auto].
      intros [[[H Hn1] Hn2]|[_ ->]]; [exfalso; apply Hn1; auto | reflexivity].
    + intros p Hpp. rewrite !add_class_elem, !remove_all_elem.
      intros [[[H Hn1] Hn2]|[_ ->]]; [apply Hn2; auto | exact (Hdisj _ Hb Hpp)].
Qed.

(** The second tab of the sample guide. *)
Lemma second_tab_is_selected :
  let w' := exec (click 1) sample in
  (∀ panel, by_id sample !! id_of (data_tab sample 1) = Some panel →
     panel ∈ tabPanels sample →
     completes (click 1) sample = true ∧
     (∀ b, b ∈ tabButtons sample → "active" ∈ classes w' !!! b ↔ b = 1) ∧
     (∀ p, p ∈ tabPanels sample → "active" ∈ classes w' !!! p ↔ p = panel) ∧
     switched w' = (switched sample ++ [data_tab sample 1])%list) ∧
  (by_id sample !! id_of (data_tab sample 1) = None →
     completes (click 1) sample = false ∧
     (∀ b, b ∈ tabButtons sample → "active" ∈ classes w' !!! b ↔ b = 1) ∧
     (∀ p, p ∈ tabPanels sample → "active" ∉ classes w' !!! p) ∧
     switched w' = switched sample).
Proof.
  apply (tab_click_selects_one_tab sample 1).
  - cbn. set_solver.
  - cbn. set_solver by lia.
Defined.

(** The third button of the sample guide, whose panel is missing. *)
Example tab_without_panel_clears_the_panels :
  completes (click 2) sample = false ∧
  has_class "active" 2 (classes (exec (click 2) sample)) = true ∧
  has_class "active" 10 (classes (exec (click 2) sample)) = false ∧
  switched (exec (click 2) sample) = [].
Proof. repeat split; vm_compute; reflexivity. Qed.

End GuideTabs.

(** ** Story section effects *)

Section StoryEffects.
Import DOM StoryScrollEffects.

Lemma slide_style_cases progress index :
  let slideProgress := (progress - inject_Z (Z.of_nat index) * (1 # 10))%Q in
  match slide_style progress index with
  | Some s => (0 < slideProgress)%Q ∧ in_range s ∧ ((1 <= slideProgress)%Q → arrived s)
  | None => (slideProgress <= 0)%Q
  end.
Proof.
  cbn zeta. unfold slide_style.
  set (d := (progress - inject_Z (Z.of_nat index) * (1 # 10))%Q).
  destruct (Q.max_spec 0 d) as [[Hlt Hmax]|[Hle Hmax]].
  - assert (Qgt_bool (Qmax 0 d) 0 = true) as ->.
    { apply Qgt_bool_true. rewrite Hmax. exact Hlt. }
    split; [exact Hlt|]. unfold in_range, arrived. cbn [translateY rotateX scale opacity].
    pose proof (Q.le_min_l (Qmax 0 d * 100) 100).
    pose proof (Q.le_min_r (Qmax 0 d * 100) 100).
    destruct (Q.min_spec (Qmax 0 d * 100) 100) as [[Ha Hmin]|[Ha Hmin]];
    destruct (Q.max_spec 0 (50 - Qmin (Qmax 0 d * 100) 100)) as [[Hb Hm1]|[Hb Hm1]];
    destruct (Q.max_spec 0 (5 - Qmax 0 d * 5)) as [[Hc Hm2]|[Hc Hm2]];
    destruct (Q.min_spec 1 ((9 # 10) + Qmax 0 d * (1 # 10))) as [[Hd Hm3]|[Hd Hm3]];
    destruct (Q.min_spec 1 (Qmax 0 d * 2)) as [[He Hm4]|[He Hm4]];
    (split; [repeat apply conj; lra | intros H1; repeat apply conj; lra]).
  - assert (Qgt_bool (Qmax 0 d) 0 = false) as ->.
    { apply Qgt_bool_false. rewrite Hmax. apply Qle_refl. }
    exact Hle.
Qed.
(** X26.  Whatever the layout, [updateStoryEffects] either leaves a
    slide's style alone or writes numbers within fixed ranges: a
    translation in [[0, 50)] pixels, a rotation in [[0, 5)] degrees, a
    scale in [(0.9, 1]] and an opacity in [(0, 1]].  Only the first
    fifteen slides are ever written, because the section progress has to
    be below 1.5 and slide [index] starts at [0.1 index]. *)
Theorem story_effects_stay_in_range
    (lay : Layout) (storySection : nat) (storySlides : list (option Style))
    (index : nat) (old : option Style) :
  storySlides !! index = Some old →
  updateStoryEffects lay storySection storySlides !! index = Some old ∨
  ∃ s, updateStoryEffects lay storySection storySlides !! index = Some (Some s) ∧
       in_range s ∧ (index < 15)%nat.
Proof.
  intros Hold. unfold updateStoryEffects.
  destruct (scrollProgress lay storySection) as [q| | |]; cbn [gt_fin lt_fin andb];
    try (left; exact Hold).
  destruct (negb (Qle_bool q 0)) eqn:E0; cbn [andb]; [|left; exact Hold].
  destruct (negb (Qle_bool (15 # 10) q)) eqn:E1; [|left; exact Hold].
  rewrite list_lookup_imap, Hold. cbn.
  pose proof (slide_style_cases q index) as Hcases. cbn zeta in Hcases.
  destruct (slide_style q index) as [s|]; [|left; reflexivity].
  right. exists s. split; [reflexivity|]. destruct Hcases as (Hpos & Hrange & _).
  split; [exact Hrange|].
  apply negb_true_iff in E1.
  assert (q < 15 # 10)%Q as Hq.
  { apply Qnot_le_lt. intros Hle. apply Qle_bool_iff in Hle. congruence. }
  destruct (decide (index < 15)%nat) as [Hi|Hi]; [exact Hi|]. exfalso.
  assert (15 <= inject_Z (Z.of_nat index))%Q as H15
    by (change 15%Q with (inject_Z 15); rewrite <- Zle_Qle; lia).
  lra.
Qed.

(** The second of three slides when the section top is a quarter of the
    window above the window's top edge. *)
Lemma second_slide_style_is_in_range :
  updateStoryEffects (Examples.layout 800 0 6000 4 (Examples.box (-200) 900)
                        Examples.far_below) 4 [None; None; None] !! 1%nat = Some None ∨
  ∃ s, updateStoryEffects (Examples.layout 800 0 6000 4 (Examples.box (-200) 900)
                             Examples.far_below) 4 [None; None; None] !! 1%nat
         = Some (Some s) ∧
       in_range s ∧ (1 < 15)%nat.
Proof.
  apply (story_effects_stay_in_range
           (Examples.layout 800 0 6000 4 (Examples.box (-200) 900) Examples.far_below)
           4 [None; None; None] 1 None).
  reflexivity.
Defined.

End StoryEffects.

(** ** The throttled pass *)

Section ThrottledPass.
Import ScrollThrottle.

Lemma throttle_with_story evs :
  let w := run true evs in
  waiting_frames w = (if ticking w then 1 else 0)%nat ∧
  requested w = (completed w + waiting_frames w)%nat.
Proof.
  cbn zeta. unfold run. induction evs as [|ev evs IH] using rev_ind; [split; reflexivity|].
  rewrite foldl_app. cbn [foldl]. destruct IH as [Hw Hr].
  destruct (foldl (step true) initial evs) as [t n r c]. cbn in Hw, Hr.
  destruct ev, t; subst; cbn; split; reflexivity || lia.
Qed.

Lemma throttle_without_story evs :
  let w := run false evs in
  (requested w ≤ 1)%nat ∧ completed w = 0%nat ∧
  (requested w = 1%nat → ticking w = true) ∧ (waiting_frames w ≤ requested w)%nat.
Proof.
  cbn zeta. unfold run. induction evs as [|ev evs IH] using rev_ind.
  - cbn. repeat split; try lia; discriminate.
  - rewrite foldl_app. cbn [foldl]. destruct IH as (Hr & Hc & Ht & Hw).
    destruct (foldl (step false) initial evs) as [t n r c]. cbn in Hr, Hc, Ht, Hw.
    destruct ev; cbn.
    + destruct t; cbn; [repeat split; auto|].
      assert (r = 0)%nat as -> by (destruct r as [|[|r]]; [reflexivity | | lia];
                                    specialize (Ht eq_refl); discriminate Ht).
      repeat split; try lia.
    + destruct n as [|n]; cbn; [repeat split; auto|].
      repeat split; try lia; auto.
Qed.

(** X27.  The scroll listener requests an animation frame only while
    [ticking] is false, and [updateScrollAnimations] resets [ticking] as
    its last statement.  On a page with the story section every requested
    frame runs to its end and at most one frame is waiting at any time.
    On a page without it, [updateStoryEffects] throws before the reset:
    no pass ever completes and, whatever events follow, at most one frame
    is ever requested. *)
Theorem frame_pass_stops_without_story_section (evs : list event) :
  (let w := run true evs in
   waiting_frames w = (if ticking w then 1 else 0)%nat ∧
   requested w = (completed w + waiting_frames w)%nat) ∧
  (let w := run false evs in
   (requested w ≤ 1)%nat ∧ completed w = 0%nat).
Proof.
  split; [apply throttle_with_story|].
  destruct (throttle_without_story evs) as (H1 & H2 & _). split; assumption.
Qed.

Example frame_pass_with_and_without_story :
  requested (run true [Scroll; Scroll; Frame; Scroll; Frame; Scroll]) = 3%nat ∧
  requested (run false [Scroll; Scroll; Frame; Scroll; Frame; Scroll]) = 1%nat.
Proof. split; reflexivity. Qed.

End ThrottledPass.

(** ** Start-up *)

Section StartupChain.
Import Startup AutoPlayState Examples.

(** The constructor of the story carousel returns exactly on a page that
    has every element it looks up. *)
Lemma story_constructs_complete pg : story_constructs pg = page_complete pg.
Proof.
  unfold page_complete, story_constructs, completes, story_world, StoryCarousel.init,
    StoryCarousel.createIndicators, StoryCarousel.setupEventListeners,
    StoryCarousel.require, StoryCarousel.updateSlide, StoryCarousel.trackEvent,
    StoryCarousel.startAutoPlay, StoryCarousel.updateAutoPlayButton,
    StoryCarousel.set_button, bind, get, modify, throw, ret.
  destruct pg as [n hi hp hn hc ss sp btn an]; cbn.
  destruct hi, hp, hn, hc, ss as [t|], sp as [p|], btn as [[cl [ic|] html]|], an;
    reflexivity.
Qed.

(** X28.  The start-up listener constructs the components one after the
    other and nothing catches a constructor that throws: the newsletter
    is set up only on a page with [.hamburger], which [Navigation] needs,
    and the story carousel, the hero carousel's timeout, the guide, the
    payment dialog and the animations only on a page that also has every
    element the story carousel looks up. *)
Theorem startup_stops_at_the_first_failure (pg : Page) :
  let w := started pg in
  let ok := has_hamburger pg && page_complete (story pg) in
  analytics w = true ∧
  navigation w = has_hamburger pg ∧ newsletter w = has_hamburger pg ∧
  storyCarousel w = ok ∧ hero_timeout w = ok ∧ gameplayGuide w = ok ∧
  paymentSystem w = ok ∧ animations w = ok.
Proof.
  cbn zeta. rewrite <- story_constructs_complete.
  unfold started, exec, on_DOMContentLoaded, new_Navigation, new_StoryCarousel,
    bind, modify, throw, ret.
  destruct (has_hamburger pg); cbn; [|repeat split].
  destruct (story_constructs (story pg)); cbn; repeat split.
Qed.

(** A page with everything, one without [#storyProgress], one without
    [.hamburger]. *)
Example startup_samples :
  paymentSystem (started {| has_hamburger := true; story := story_page 5 true |}) = true ∧
  paymentSystem (started {| has_hamburger := true; story := story_page 5 false |}) = false ∧
  newsletter (started {| has_hamburger := false; story := story_page 5 true |}) = false.
Proof. repeat split; vm_compute; reflexivity. Qed.

End StartupChain.
